(** * PulsePortraiture: the Fourier-domain portrait fit, in exact real arithmetic

    A shallow embedding of [pplib.py] (template generation, the phase/DM
    objective with its derivatives, rotation by the shift theorem,
    [fit_portrait], the dispersive delay, power laws, the Wiener and
    brick-wall filters, noise levels and the first guess of the phase) and
    of the per-subintegration driver of [pptoas.py]
    ([GetTOAs.get_TOAs]).

    numpy's float64 arrays are lists of real numbers, complex arrays are
    lists of pairs of reals, and every operation is the exact one: no
    rounding, no overflow, no NaN.  Exceptions raised by Python are explicit
    results. *)

From Stdlib Require Import String DecimalString.
From Stdlib Require Import Reals Lra Lia List ZArith Bool.
Import ListNotations.

Open Scope R_scope.

(** ** Complex numbers, as numpy's complex128 in exact arithmetic *)

Module Cplx.

Record C : Type := mkC { Re : R; Im : R }.

Definition RtoC (x : R) : C := mkC x 0.
Definition Cj (y : R) : C := mkC 0 y.
Definition Cadd (a b : C) : C := mkC (Re a + Re b) (Im a + Im b).
Definition Cmul (a b : C) : C :=
  mkC (Re a * Re b - Im a * Im b) (Re a * Im b + Im a * Re b).
Definition Cconj (a : C) : C := mkC (Re a) (- Im a).
Definition Cexp (a : C) : C :=
  mkC (exp (Re a) * cos (Im a)) (exp (Re a) * sin (Im a)).
Definition Cabs2 (a : C) : R := Re a * Re a + Im a * Im a.

End Cplx.
Import Cplx.

(** ** The numpy operations the code uses *)

Definition zeros (N : nat) : list R := repeat 0 N.

(** [np.arange(N, dtype='d')] *)
Definition arange (N : nat) : list R := map INR (seq 0 N).

(** [a.sum()] of a real array: the accumulation loop. *)
Definition np_sum (l : list R) : R := fold_left Rplus l 0.

(** Element-wise product of two complex arrays of one shape. *)
Fixpoint vmul (a b : list C) : list C :=
  match a, b with
  | x :: a', y :: b' => Cmul x y :: vmul a' b'
  | _, _ => []
  end.

(** [np.max] of a real array; an empty array raises [ValueError]. *)
Definition np_max (l : list R) : option R :=
  match l with
  | [] => None
  | x :: l' => Some (fold_left Rmax l' x)
  end.

(** [np.put(a, inds, vals)]: [a[inds[i]] = vals[i]]. *)
Fixpoint list_set (l : list R) (i : nat) (v : R) : list R :=
  match l, i with
  | [], _ => []
  | _ :: l', O => v :: l'
  | x :: l', S i' => x :: list_set l' i' v
  end.

Fixpoint np_put (a : list R) (inds : list nat) (vals : list R) : list R :=
  match inds, vals with
  | i :: inds', v :: vals' => np_put (list_set a i v) inds' vals'
  | _, _ => a
  end.

(** [x ** -2.0] *)
Definition pow_m2 (x : R) : R := / (x * x).

(** ** Python results: a value, or an exception *)

Module Py.

(** The exceptions the modelled paths can raise. *)
Inductive exn : Type :=
| TypeError
| IndexError
| KeyError
| ValueError.

Inductive outcome (A : Type) : Type :=
| Return (a : A)
| Raise (e : exn).
Arguments Return {A} a.
Arguments Raise {A} e.

Definition bind {A B : Type} (c : outcome A) (k : A -> outcome B)
  : outcome B :=
  match c with
  | Return a => k a
  | Raise e => Raise e
  end.

Notation "x <- c ;; k" := (bind c (fun x => k))
  (at level 61, c at next level, right associativity).

(** Run [f] on every element, stopping at the first exception. *)
Fixpoint mapM {A B : Type} (f : A -> outcome B) (l : list A)
  : outcome (list B) :=
  match l with
  | [] => Return []
  | x :: l' => y <- f x ;; ys <- mapM f l' ;; Return (y :: ys)
  end.

End Py.

(** ** [gaussian_profile] *)

Module Gaussian.

(** What a call can produce: an array, the scalar [0] of the last [else]
    branch, or the [ValueError] of [np.max] on an empty array. *)
Inductive result : Type :=
| Profile (a : list R)
| Scalar (z : Z)
| ValueError.

(** [loc % 1.0] *)
Definition mod1 (loc : R) : R := frac_part loc.

(** [locval], after the wrap to the shortest cyclic path around [mean]. *)
Definition locvals (N : nat) (mean : R) : list R :=
  let locval := map (fun k => k / INR N) (arange N) in
  if Rlt_dec mean (1/2)
  then map (fun x => if Rgt_dec x (mean + 1/2) then x - 1 else x) locval
  else map (fun x => if Rlt_dec x (mean - 1/2) then x + 1 else x) locval.

Definition sigma_of (wid : R) : R := wid / (2 * sqrt (2 * ln 2)).

(** [zs = (locval - mean) / sigma] *)
Definition zs_of (N : nat) (loc wid : R) : list R :=
  let mean := mod1 loc in
  map (fun x => (x - mean) / sigma_of wid) (locvals N mean).

(** [np.compress(np.fabs(zs) < 20.0, np.arange(N))] *)
Fixpoint okzinds_from (i : nat) (zs : list R) : list nat :=
  match zs with
  | [] => []
  | z :: zs' =>
      if Rlt_dec (Rabs z) 20 then i :: okzinds_from (S i) zs'
      else okzinds_from (S i) zs'
  end.

(** The array [retval] before normalisation. *)
Definition raw_profile (N : nat) (loc wid : R) : list R :=
  let sigma := sigma_of wid in
  let zs := zs_of N loc wid in
  let okzinds := okzinds_from 0 zs in
  let okzs := map (fun i => nth i zs 0) okzinds in
  np_put (zeros N) okzinds
    (map (fun z => exp (- (1/2) * (z * z)) / (sigma * sqrt (2 * PI))) okzs).

Definition gaussian_body (N : nat) (loc wid : R) (norm : bool) : result :=
  let retval := raw_profile N loc wid in
  if norm then Profile retval
  else
    match np_max (map Rabs retval) with
    | None => ValueError
    | Some mx =>
        if Req_dec_T mx 0 then Profile retval
        else Profile (map (fun x => x / mx) retval)
    end.

Definition gaussian_profile (N : nat) (loc wid : R)
    (norm abs_wid zeroout : bool) : result :=
  let wid := if abs_wid then Rabs wid else wid in
  if Rgt_dec wid 0 then gaussian_body N loc wid norm
  else if Req_dec_T wid 0 then Profile (zeros N)
  else if Rlt_dec wid 0 then
         if zeroout then Profile (zeros N)
         else gaussian_body N loc wid norm
  else Scalar 0.

(** The call with the default options [norm=False, abs_wid=False,
    zeroout=True]. *)
Definition gaussian_profile_default (N : nat) (loc wid : R) : result :=
  gaussian_profile N loc wid false false true.

End Gaussian.

(** ** The phase/DM objective and its derivatives *)

(** A frequency in MHz; [np.inf] is the default reference frequency, and
    the channel frequency of the phase-only branch. *)
Inductive freq : Type :=
| MHz (f : R)
| inf_freq.

(** [freq ** -2.0] *)
Definition freq_pow_m2 (f : freq) : R :=
  match f with
  | MHz x => pow_m2 x
  | inf_freq => 0
  end.

(** [Dconst = Dconst_trad = 0.000241**-1] *)
Definition Dconst_trad : R := / (241 / 1000000).
Definition Dconst : R := Dconst_trad.

(** [np.exp(harmind * 2.0j * np.pi * delta)] for [harmind = np.arange(n)] *)
Definition phasor (n : nat) (delta : R) : list C :=
  map (fun k => Cexp (Cmul (Cmul (Cmul (RtoC k) (Cj 2)) (RtoC PI))
                        (RtoC delta)))
      (arange n).

(** [np.real(a * np.conj(b) * c).sum()] *)
Definition real_corr_sum (a b c : list C) : R :=
  np_sum (map Re (vmul (vmul a (map Cconj b)) c)).

(** [np.real(coef * a * np.conj(b) * c).sum()]: as above, with a leading
    array of coefficients. *)
Definition real_corr_sum_coef (coef a b c : list C) : R :=
  np_sum (map Re (vmul (vmul (vmul coef a) (map Cconj b)) c)).

(** The trial delay of one channel, [phase + D * (freq**-2 - nu0**-2)]. *)
Definition chan_delay (phase D : R) (f nu0 : freq) : R :=
  phase + D * (freq_pow_m2 f - freq_pow_m2 nu0).

Definition fit_portrait_function (params : R * R) (model : list (list C))
    (p : list R) (data : list (list C)) (d : R) (errs : list R)
    (P : option R) (freqs : option (list freq)) (nu0 : freq) : R :=
  let phase := fst params in
  let D_freqs :=
    match P, freqs with
    | Some P, Some freqs => (Dconst * snd params / P, freqs)
    | _, _ => (0, repeat inf_freq (length model))
    end in
  let D := fst D_freqs in
  let freqs := snd D_freqs in
  let m :=
    fold_left
      (fun m nn =>
         let err := nth nn errs 0 in
         let freq := nth nn freqs inf_freq in
         let mrow := nth nn model [] in
         let ph := phasor (length mrow) (chan_delay phase D freq nu0) in
         let mm := real_corr_sum (nth nn data []) mrow ph in
         m + mm ^ 2 * err / nth nn p 0)
      (seq 0 (length freqs)) 0 in
  d - m.

(** [2j * np.pi * harmind] *)
Definition coef_phi (n : nat) : list C :=
  map (fun k => Cmul (Cmul (Cj 2) (RtoC PI)) (RtoC k)) (arange n).

(** [2j * np.pi * harmind * (freq**-2.0 - nu0**-2.0) * (Dconst/P)] *)
Definition coef_DM (n : nat) (P : R) (f nu0 : freq) : list C :=
  map (fun k => Cmul (Cmul (Cmul (Cmul (Cj 2) (RtoC PI)) (RtoC k))
                        (RtoC (freq_pow_m2 f - freq_pow_m2 nu0)))
                  (RtoC (Dconst / P)))
      (arange n).

(** One pass of the loop of [fit_portrait_function_deriv]. *)
Definition deriv_step (phase D P : R) (model data : list (list C))
    (p errs : list R) (freqs : list freq) (nu0 : freq)
    (acc : R * R) (nn : nat) : R * R :=
  let err := nth nn errs 0 in
  let freq := nth nn freqs inf_freq in
  let mrow := nth nn model [] in
  let drow := nth nn data [] in
  let n := length mrow in
  let ph := phasor n (chan_delay phase D freq nu0) in
  let g1 := real_corr_sum drow mrow ph in
  let gp2 := real_corr_sum_coef (coef_phi n) drow mrow ph in
  let gd2 := real_corr_sum_coef (coef_DM n P freq nu0) drow mrow ph in
  (fst acc + -2 * g1 * gp2 * err / nth nn p 0,
   snd acc + -2 * g1 * gd2 * err / nth nn p 0).

(** [None] is the [TypeError] of [Dconst * params[1] / P] when [P] is
    [None], or of [len(freqs)] when [freqs] is [None]: this function has no
    phase-only branch. *)
Definition fit_portrait_function_deriv (params : R * R)
    (model : list (list C)) (p : list R) (data : list (list C)) (d : R)
    (errs : list R) (P : option R) (freqs : option (list freq))
    (nu0 : freq) : option (R * R) :=
  match P, freqs with
  | Some P, Some freqs =>
      let phase := fst params in
      let D := Dconst * snd params / P in
      Some (fold_left (deriv_step phase D P model data p errs freqs nu0)
              (seq 0 (length freqs)) (0, 0))
  | _, _ => None
  end.

(** [pow(z, 2.0)] of a complex array *)
Definition vsquare (l : list C) : list C := map (fun z => Cmul z z) l.

(** One pass of the loop of [fit_portrait_function_2deriv]. *)
Definition deriv2_step (phase D P : R) (model data : list (list C))
    (p errs : list R) (freqs : list freq) (nu0 : freq)
    (acc : R * R) (nn : nat) : R * R :=
  let err := nth nn errs 0 in
  let freq := nth nn freqs inf_freq in
  let mrow := nth nn model [] in
  let drow := nth nn data [] in
  let n := length mrow in
  let ph := phasor n (chan_delay phase D freq nu0) in
  let g1 := real_corr_sum drow mrow ph in
  let gp2 := real_corr_sum_coef (coef_phi n) drow mrow ph in
  let gd2 := real_corr_sum_coef (coef_DM n P freq nu0) drow mrow ph in
  let gp3 := real_corr_sum_coef (vsquare (coef_phi n)) drow mrow ph in
  let gd3 :=
    real_corr_sum_coef (vsquare (coef_DM n P freq nu0)) drow mrow ph in
  (fst acc + -2 * err * (gp2 ^ 2 + g1 * gp3) / nth nn p 0,
   snd acc + -2 * err * (gd2 ^ 2 + g1 * gd3) / nth nn p 0).

(** Returns [np.array([d2_phi, d2_DM])]: two numbers. *)
Definition fit_portrait_function_2deriv (params : R * R)
    (model : list (list C)) (p : list R) (data : list (list C)) (d : R)
    (errs : list R) (P : option R) (freqs : option (list freq))
    (nu0 : freq) : option (R * R) :=
  match P, freqs with
  | Some P, Some freqs =>
      let phase := fst params in
      let D := Dconst * snd params / P in
      Some (fold_left (deriv2_step phase D P model data p errs freqs nu0)
              (seq 0 (length freqs)) (0, 0))
  | _, _ => None
  end.

(** *** What [fit_portrait] passes for [d] and [p] *)

(** [np.sum] of a complex array *)
Definition np_csum (l : list C) : C := fold_left Cadd l (RtoC 0).

(** [np.real(np.sum(np.transpose(errs * np.transpose(dFFT *
    np.conj(dFFT)))))]: row [c] of [dFFT * conj(dFFT)] is scaled by
    [errs[c]], and the whole array is summed. *)
Definition portrait_d (errs : list R) (dFFT : list (list C)) : R :=
  Re (np_csum
        (concat
           (map (fun er => map (fun z => Cmul (RtoC (fst er)) z)
                             (vmul (snd er) (map Cconj (snd er))))
                (combine errs dFFT)))).

(** [np.real(np.sum(mFFT * np.conj(mFFT), axis=1))] *)
Definition portrait_p (mFFT : list (list C)) : list R :=
  map (fun row => Re (np_csum (vmul row (map Cconj row)))) mFFT.

(** *** The objective as the specification words it *)

Module Spec.

(** Sum over [k = 0 .. n-1] of a real and of a complex term. *)
Definition Rsum (n : nat) (f : nat -> R) : R :=
  fold_right Rplus 0 (map f (seq 0 n)).
Definition Csum (n : nat) (f : nat -> C) : C :=
  fold_right Cadd (RtoC 0) (map f (seq 0 n)).

Definition czero : C := RtoC 0.

(** [exp(2 pi i k Delta)] *)
Definition shift (k : nat) (Delta : R) : C :=
  Cexp (Cj (2 * PI * INR k * Delta)).

(** [Delta_c = phase + (Dconst DM / P) (f_c^-2 - nu0^-2)] *)
Definition Delta (phase DM P : R) (f nu0 : freq) : R :=
  phase + (Dconst * DM / P) * (freq_pow_m2 f - freq_pow_m2 nu0).

(** [g1_c = Re (sum_k D_c[k] conj(M_c[k]) exp(2 pi i k Delta_c))] *)
Definition g1 (Dc Mc : list C) (Delta : R) : R :=
  Re (Csum (length Mc)
        (fun k => Cmul (Cmul (nth k Dc czero) (Cconj (nth k Mc czero)))
                    (shift k Delta))).

(** [g1'_c]: the same sum with the extra factor [2 pi i k dDelta]. *)
Definition g1' (Dc Mc : list C) (Delta dDelta : R) : R :=
  Re (Csum (length Mc)
        (fun k => Cmul (Cj (2 * PI * INR k * dDelta))
                    (Cmul (Cmul (nth k Dc czero) (Cconj (nth k Mc czero)))
                       (shift k Delta)))).

(** [p_c = sum_k |M_c[k]|^2] *)
Definition power (Mc : list C) : R :=
  Rsum (length Mc) (fun k => Cabs2 (nth k Mc czero)).

(** [d = sum_c eps_c sum_k |D_c[k]|^2] *)
Definition d (eps : list R) (D : list (list C)) : R :=
  Rsum (length D)
    (fun c => nth c eps 0 * power (nth c D [])).

(** [d - sum_c g1_c^2 eps_c / p_c] *)
Definition objective (D M : list (list C)) (eps : list R)
    (phase DM P : R) (freqs : list freq) (nu0 : freq) : R :=
  d eps D
  - Rsum (length freqs)
      (fun c => (g1 (nth c D []) (nth c M [])
                   (Delta phase DM P (nth c freqs inf_freq) nu0)) ^ 2
                * nth c eps 0 / power (nth c M [])).

(** The gradient with respect to a parameter whose effect on the delay of
    a channel at frequency [f] is [dDelta f]:
    [sum_c - (eps_c / p_c) 2 g1_c g1'_c]. *)
Definition gradient (D M : list (list C)) (p eps : list R)
    (phase DM P : R) (freqs : list freq) (nu0 : freq)
    (dDelta : freq -> R) : R :=
  Rsum (length freqs)
    (fun c =>
       let f := nth c freqs inf_freq in
       - (nth c eps 0 / nth c p 0)
       * (2 * g1 (nth c D []) (nth c M []) (Delta phase DM P f nu0)
            * g1' (nth c D []) (nth c M []) (Delta phase DM P f nu0)
                (dDelta f))).

(** [dDelta_c / dphase = 1] and
    [dDelta_c / dDM = (Dconst / P) (f_c^-2 - nu0^-2)] *)
Definition dDelta_dphase (f : freq) : R := 1.
Definition dDelta_dDM (P : R) (nu0 f : freq) : R :=
  (Dconst / P) * (freq_pow_m2 f - freq_pow_m2 nu0).

(** [g1''_c]: the sum with two extra factors, [2 pi i k dDelta1] and
    [2 pi i k dDelta2]. *)
Definition g1'' (Dc Mc : list C) (Delta dDelta1 dDelta2 : R) : R :=
  Re (Csum (length Mc)
        (fun k => Cmul (Cj (2 * PI * INR k * dDelta2))
                    (Cmul (Cj (2 * PI * INR k * dDelta1))
                       (Cmul (Cmul (nth k Dc czero) (Cconj (nth k Mc czero)))
                          (shift k Delta))))).

(** An entry of the Hessian of the objective, for two parameters whose
    effects on the delay are [dDelta1] and [dDelta2]:
    [sum_c - (eps_c / p_c) 2 (g1'_c,1 g1'_c,2 + g1_c g1''_c)]. *)
Definition hessian (D M : list (list C)) (p eps : list R)
    (phase DM P : R) (freqs : list freq) (nu0 : freq)
    (dDelta1 dDelta2 : freq -> R) : R :=
  Rsum (length freqs)
    (fun c =>
       let f := nth c freqs inf_freq in
       let Dl := Delta phase DM P f nu0 in
       - (nth c eps 0 / nth c p 0)
       * (2 * (g1' (nth c D []) (nth c M []) Dl (dDelta2 f)
               * g1' (nth c D []) (nth c M []) Dl (dDelta1 f)
               + g1 (nth c D []) (nth c M []) Dl
                 * g1'' (nth c D []) (nth c M []) Dl (dDelta1 f)
                     (dDelta2 f)))).

(** The Nyquist component of a real array: [sum_n (-1)^n x[n]]. *)
Definition nyquist (x : list R) : R :=
  Rsum (length x) (fun n => (-1) ^ n * nth n x 0).

(** The population variance of a sample. *)
Definition variance (a : list R) : R :=
  let n := INR (length a) in
  let mu := fold_right Rplus 0 a / n in
  fold_right Rplus 0 (map (fun x => (x - mu) * (x - mu)) a) / n.

(** The last quarter of an array: its last [ceil(len / 4)] entries. *)
Definition last_quarter {A : Type} (a : list A) : list A :=
  skipn (length a - (length a + 3) / 4) a.

(** [eps_c]: the inverse variance of the real parts of the last quarter of
    the harmonic coefficients of channel [c]. *)
Definition precisions (D : list (list C)) : list R :=
  map (fun row => / variance (map Re (last_quarter row))) D.

End Spec.

(** ** numpy's real transform pair, by its definition *)

Module FFT.
Import Py.

(** [exp(i t)] *)
Definition cis (t : R) : C := Cexp (Cj t).

(** The angle [2 pi k n / N] of harmonic [k] at sample [n]. *)
Definition angle (k n N : nat) : R := 2 * PI * INR k * INR n / INR N.

(** [np.fft.rfft(x)[k] = sum_n x[n] exp(-2 pi i k n / N)], for
    [k = 0 .. N/2]; an empty input raises [ValueError]. *)
Definition rfft_coef (x : list R) (k : nat) : C :=
  Spec.Csum (length x)
    (fun n => Cmul (RtoC (nth n x 0)) (cis (- angle k n (length x)))).

Definition rfft (x : list R) : outcome (list C) :=
  match x with
  | [] => Raise ValueError
  | _ :: _ => Return (map (rfft_coef x) (seq 0 (length x / 2 + 1)))
  end.

(** [np.fft.rfft(a, axis=1)] of a 2-D array with non-empty rows. *)
Definition rfft_rows (a : list (list R)) : list (list C) :=
  map (fun x => map (rfft_coef x) (seq 0 (length x / 2 + 1))) a.

(** [np.fft.irfft(a, n)[j]]: the inverse of [rfft] on [n] output points.
    It reads the coefficients [0 .. n/2] of [a], and only the real part of
    the first and, for even [n], of the last of them. *)
Definition irfft_sample (a : list C) (n j : nat) : R :=
  (Re (nth 0 a Spec.czero)
   + Spec.Rsum ((n - 1) / 2)
       (fun i => 2 * Re (Cmul (nth (S i) a Spec.czero)
                           (cis (angle (S i) j n))))
   + (if Nat.even n
      then Re (nth (n / 2) a Spec.czero) * cos (PI * INR j)
      else 0))
  / INR n.

Definition irfft (a : list C) (n : nat) : outcome (list R) :=
  match n with
  | O => Raise ValueError
  | S _ => Return (map (irfft_sample a n) (seq 0 n))
  end.

(** [np.fft.irfft(a)]: [n] defaults to [2 * (len(a) - 1)]. *)
Definition irfft_default (a : list C) : outcome (list R) :=
  irfft a (2 * (length a - 1)).

End FFT.

(** ** Rotation by the shift theorem *)

(** [z / r] for a complex [z] and a float [r] *)
Definition Cdiv_real (z : C) (r : R) : C := mkC (Re z / r) (Im z / r).

Definition fft_rotate (arr : list R) (bins : R) : Py.outcome (list R) :=
  let size := length arr in
  let freqs := arange (size / 2 + 1) in
  let phasor :=
    map (fun f => Cexp (Cdiv_real
                          (Cmul (Cmul (mkC 0 (2 * PI)) (RtoC f)) (RtoC bins))
                          (INR size)))
        freqs in
  Py.bind (FFT.rfft arr) (fun X => FFT.irfft (vmul phasor X) size).

(** The body of the loop of [rotate_portrait] on row [nn]. *)
Definition rotate_row (phase : R) (DM P : option R)
    (freqs : option (list freq)) (nu0 : freq) (nn : nat) (row : list C)
  : Py.outcome (list C) :=
  match DM, freqs with
  | None, None => Py.Return (vmul row (phasor (length row) phase))
  | Some DM, Some freqs =>
      match P with
      | None => Py.Raise Py.TypeError
      | Some P =>
          let D := DM * Dconst / P in
          match nth_error freqs nn with
          | None => Py.Raise Py.IndexError
          | Some freq =>
              Py.Return
                (vmul row (phasor (length row) (chan_delay phase D freq nu0)))
          end
      end
  | _, _ => Py.Raise Py.TypeError
  end.

Definition rotate_portrait (port : list (list R)) (phase : R)
    (DM P : option R) (freqs : option (list freq)) (nu0 : freq)
  : Py.outcome (list (list R)) :=
  Py.bind (Py.mapM FFT.rfft port) (fun pFFT =>
  Py.bind (Py.mapM (fun nr => rotate_row phase DM P freqs nu0 (fst nr)
                                (snd nr))
             (combine (seq 0 (length pFFT)) pFFT)) (fun pFFT =>
  Py.mapM FFT.irfft_default pFFT)).

(** ** [get_scales] and [fit_portrait] *)

(** [pow(x, -0.5)] *)
Definition pow_mhalf (x : R) : R := / sqrt x.

Definition get_scales (data model : list (list R)) (phase DM P : R)
    (freqs : list freq) (nu0 : freq) : Py.outcome (list R) :=
  Py.bind (Py.mapM FFT.rfft data) (fun dFFT =>
  Py.bind (Py.mapM FFT.rfft model) (fun mFFT =>
  let p := portrait_p mFFT in
  let D := DM * Dconst / P in
  match mFFT with
  | [] => Py.Raise Py.IndexError
  | mrow0 :: _ =>
      Py.Return
        (fold_left
           (fun scales kk =>
              map (fun c =>
                     nth c scales 0
                     + Re (Cmul (Cmul (nth kk (nth c dFFT []) Spec.czero)
                                   (Cconj (nth kk (nth c mFFT []) Spec.czero)))
                             (Cexp (Cmul (Cmul (Cmul (Cj 2) (RtoC PI))
                                            (RtoC (INR kk)))
                                      (RtoC (chan_delay phase D
                                               (nth c freqs inf_freq) nu0)))))
                       / nth c p 0)
                  (seq 0 (length mFFT)))
           (seq 0 (length mrow0)) (zeros (length mFFT)))
  end)).

(** [a[s:]] for a possibly negative [s] *)
Definition slice_from {A : Type} (s : Z) (a : list A) : list A :=
  let len := Z.of_nat (length a) in
  let start := if (s <? 0)%Z then Z.max (len + s) 0 else Z.min s len in
  skipn (Z.to_nat start) a.

(** [a.mean()] and [a.std()] *)
Definition np_mean (a : list R) : R := np_sum a / INR (length a).
Definition np_std (a : list R) : R :=
  let m := np_mean a in
  sqrt (np_mean (map (fun x => Rabs (x - m) ^ 2) a)).

(** [np.real(dFFT[:, -len(dFFT[0])/4:]).std(axis=1)**-2.0]; the division
    is Python 2's floor division of the negated length. *)
Definition unnorm_errs (dFFT : list (list C)) (row0 : list C) : list R :=
  let s := Z.div (Z.opp (Z.of_nat (length row0))) 4 in
  map (fun row => pow_m2 (np_std (map Re (slice_from s row)))) dFFT.

(** The table [RCSTRINGS], keyed by the decimal string of the return
    code. *)
Definition RCSTRINGS : list (string * string) :=
  [("-1", "INFEASIBLE: Infeasible (low > up).");
   ("0", "LOCALMINIMUM: Local minima reach (|pg| ~= 0).");
   ("1", "FCONVERGED: Converged (|f_n-f_(n-1)| ~= 0.)");
   ("2", "XCONVERGED: Converged (|x_n-x_(n-1)| ~= 0.)");
   ("3", "MAXFUN: Max. number of function evaluations reach.");
   ("4", "LSFAIL: Linear search failed.");
   ("5", "CONSTANT: All lower bounds are equal to the upper bounds.");
   ("6", "NOPROGRESS: Unable to progress.");
   ("7", "USERABORT: User requested end of minimization.")]%string.

(** [d[key]] *)
Definition dict_get (d : list (string * string)) (key : string)
  : Py.outcome string :=
  match find (fun kv => String.eqb (fst kv) key) d with
  | Some kv => Py.Return (snd kv)
  | None => Py.Raise Py.KeyError
  end.

(** [str(n)] and ["%d" % n] of an integer *)
Definition str_of_int (n : Z) : string := NilZero.string_of_int (Z.to_int n).

Definition newline : string := String (Ascii.ascii_of_nat 10) EmptyString.

(** What [scipy.optimize.minimize] returns, as far as [fit_portrait] reads
    it. *)
Record OptimizeResult : Type := mkOptimizeResult {
  x : R * R;
  nfev : Z;
  status : Z;
  success : bool;
  fun_ : R
}.

(** The tuple [fit_portrait] returns; [ret_scales] is absent from it when
    [scales] is false. *)
Record fit : Type := mkFit {
  ret_phi : R;
  ret_DM : R;
  ret_nfeval : Z;
  ret_return_code : Z;
  ret_scales : option (list R);
  ret_param_errs : list R;
  ret_red_chi2 : R;
  ret_duration : R
}.

Section FitPortrait.

(** [scipy.optimize.minimize(f, x0, jac=..., method='TNC', bounds=...)]
    with both bounds open: the objective, the start, the gradient.  A call
    that raises is [Raise]. *)
Variable minimize :
  (R * R -> R) -> R * R -> (R * R -> option (R * R)) ->
  Py.outcome OptimizeResult.

(** The two readings of [time.time()]. *)
Variable time_start time_stop : R.

(** [fit_portrait] from the line [errs = unnorm_errs] on.  The first
    component is what was written to [sys.stderr]. *)
Definition fit_portrait_from (errs : list R) (dFFT mFFT : list (list C))
    (data model : list (list R)) (init_params : R * R) (P : option R)
    (freqs : option (list freq)) (nu0 : freq) (scales quiet : bool)
  : list string * Py.outcome fit :=
  let d := portrait_d errs dFFT in
  let p := portrait_p mFFT in
  match minimize
          (fun params =>
             fit_portrait_function params mFFT p dFFT d errs P freqs nu0)
          init_params
          (fun params =>
             fit_portrait_function_deriv params mFFT p dFFT d errs P freqs
               nu0) with
  | Py.Raise e => ([], Py.Raise e)
  | Py.Return results =>
      let duration := time_stop - time_start in
      let phi := fst (x results) in
      let DM := snd (x results) in
      let nfeval := nfev results in
      let return_code := status results in
      match dict_get RCSTRINGS (str_of_int return_code) with
      | Py.Raise e => ([], Py.Raise e)
      | Py.Return rcstring =>
          let failed :=
            if negb (success results)
            then [("Fit failed with return code "
                   ++ str_of_int (status results) ++ " -- " ++ rcstring
                   ++ newline)%string]
            else [] in
          let suceeded :=
            if negb quiet && success results
            then [("Fit suceeded with return code "
                   ++ str_of_int (status results) ++ " -- " ++ rcstring
                   ++ newline)%string]
            else [] in
          let stderr := failed ++ suceeded in
          match fit_portrait_function_2deriv (phi, DM) mFFT p dFFT d errs P
                  freqs nu0, P, freqs with
          | Some d2, Some P', Some freqs' =>
              let param_errs := [pow_mhalf (fst d2); pow_mhalf (snd d2)] in
              let DoF :=
                (Z.of_nat (length (concat data))
                 - (Z.of_nat (length freqs') + 2))%Z in
              let red_chi2 := fun_ results / IZR DoF in
              if scales then
                (stderr,
                 Py.bind (get_scales data model phi DM P' freqs' nu0)
                   (fun sc =>
                      Py.Return
                        {| ret_phi := phi; ret_DM := DM;
                           ret_nfeval := nfeval;
                           ret_return_code := return_code;
                           ret_scales := Some sc;
                           ret_param_errs :=
                             param_errs
                             ++ map (fun pe => pow_mhalf (2 * fst pe * snd pe))
                                  (combine p errs);
                           ret_red_chi2 := red_chi2;
                           ret_duration := duration |}))
              else
                (stderr,
                 Py.Return
                   {| ret_phi := phi; ret_DM := DM; ret_nfeval := nfeval;
                      ret_return_code := return_code; ret_scales := None;
                      ret_param_errs := param_errs;
                      ret_red_chi2 := red_chi2;
                      ret_duration := duration |})
          | _, _, _ => (stderr, Py.Raise Py.TypeError)
          end
      end
  end.

(** [fit_portrait]: its arguments are the data, the model, the start, the
    period, the frequencies and the reference frequency; there is no noise
    argument.  [norm_dFFT] and [norm_errs] are computed and never read, and
    are left out. *)
Definition fit_portrait (data model : list (list R)) (init_params : R * R)
    (P : option R) (freqs : option (list freq)) (nu0 : freq)
    (scales quiet : bool) : list string * Py.outcome fit :=
  match Py.mapM FFT.rfft data with
  | Py.Raise e => ([], Py.Raise e)
  | Py.Return dFFT =>
      match Py.mapM FFT.rfft model with
      | Py.Raise e => ([], Py.Raise e)
      | Py.Return mFFT =>
          match dFFT with
          | [] => ([], Py.Raise Py.IndexError)
          | row0 :: _ =>
              let unnorm_errs := unnorm_errs dFFT row0 in
              let errs := unnorm_errs in
              fit_portrait_from errs dFFT mFFT data model init_params P
                freqs nu0 scales quiet
          end
      end
  end.

End FitPortrait.

(** ** [GetTOAs.get_TOAs]: the driver of [pptoas.py] *)

Module PPToas.

Import Py.

(** A float attribute that the code may set to [None]. *)
Definition pyfloat : Type := option R.

(** One entry of [bounds]: a 2-tuple of a float or [None]. *)
Definition bound : Type := (option R * option R)%type.

(** The attributes of [results] that [get_TOAs] reads or sets. *)
Record results : Type := mkResults {
  phi : R;
  phi_err : R;
  DM : pyfloat;
  DM_err : pyfloat;
  GM : pyfloat;
  GM_err : pyfloat;
  tau : pyfloat;
  tau_err : pyfloat;
  alpha : pyfloat;
  alpha_err : pyfloat;
  nu_DM : R;
  nu_GM : R;
  nu_tau : R;
  nfeval : Z;
  return_code : Z;
  scales : list R;
  scale_errs : list R;
  covariance_matrix : list (list R);
  duration : R;
  red_chi2 : R;
  snr : R
}.

(** What [fit_phase_shift] returns, as far as [get_TOAs] reads it. *)
Record phase_shift : Type := mkPhaseShift {
  phase : R;
  phase_err : R;
  scale : R;
  scale_error : R;
  ps_duration : R;
  ps_red_chi2 : R;
  ps_snr : R
}.

(** The keyword arguments of [get_TOAs] that the modelled code reads. *)
Record options : Type := mkOptions {
  DM0 : option R;
  bary_DM : bool;
  fit_DM : bool;
  fit_GM : bool;
  fit_scat : bool;
  log10_tau : bool;
  fix_alpha : bool;
  method : string;
  bounds : option (list bound);
  nu_refs : option (R * R);
  nu_fits : option (R * R)
}.

(** The defaults of the signature. *)
Definition default_options : options :=
  {| DM0 := None; bary_DM := true; fit_DM := true; fit_GM := false;
     fit_scat := false; log10_tau := true; fix_alpha := false;
     method := "trust-ncg"; bounds := None; nu_refs := None;
     nu_fits := None |}.

(** What the first lines of [get_TOAs] store on [self]. *)
Record setup : Type := mkSetup {
  nfit : nat;
  nchan_min : nat;
  fit_flags : list Z;
  self_log10_tau : bool
}.

Definition int_of_bool (b : bool) : Z := if b then 1%Z else 0%Z.

Definition get_setup (o : options) : setup :=
  let nfit := 1%nat in
  let nchan_min := 1%nat in
  let nfit := if fit_DM o then S nfit else nfit in
  let nchan_min := if fit_DM o then S nchan_min else nchan_min in
  let nfit := if fit_GM o then S nfit else nfit in
  let nchan_min := if fit_GM o then S nchan_min else nchan_min in
  let nfit := if fit_scat o then (nfit + 2)%nat else nfit in
  let nfit := if fix_alpha o then (nfit - 1)%nat else nfit in
  let fit_phi := true in
  let fit_tau := fit_scat o in
  let fit_alpha := if fit_scat o then negb (fix_alpha o) else fit_scat o in
  let nchan_min := if fit_alpha then Nat.max 2 nchan_min else nchan_min in
  {| nfit := nfit;
     nchan_min := nchan_min;
     fit_flags := [int_of_bool fit_phi; int_of_bool (fit_DM o);
                   int_of_bool (fit_GM o); int_of_bool fit_tau;
                   int_of_bool fit_alpha];
     self_log10_tau := if fit_scat o then log10_tau o else false |}.

(** [np.identity(n)] *)
Definition identity (n : nat) : list (list R) :=
  map (fun i => map (fun j => if Nat.eqb i j then 1 else 0) (seq 0 n))
      (seq 0 n).

(** One good subintegration, as [load_data] and the guessing code
    hand it to the fit: the valid channels' frequencies, data, model and
    noise, and the initial guesses. *)
Record subint : Type := mkSubint {
  isub : nat;
  P : R;
  epoch : R;
  freqsx : list R;
  portx : list (list R);
  modelx : list (list R);
  errs : list R;
  doppler_factor : R;
  guess_fit_freq : R;
  phi_guess : R;
  tau_guess : R;
  alpha_guess : R
}.

(** What [load_data] returns, as far as the modelled code reads it;
    [ok_subints] are the subintegrations of [ok_isubs]. *)
Record archive : Type := mkArchive {
  DM_stored : R;
  nbin : nat;
  backend_delay : R;
  ok_subints : list subint
}.

(** [load_data] either returns or raises [RuntimeError], which
    [get_TOAs] catches. *)
Inductive load_result : Type :=
| RuntimeError
| Loaded (a : archive).

(** A recorded TOA: the arguments of the [TOA] constructor that come from
    the fit, and the [results] they were taken from. *)
Record TOA : Type := mkTOA {
  toa_frequency : R;
  toa_MJD : R;
  toa_error : R;
  toa_DM : pyfloat;
  toa_DM_error : pyfloat;
  toa_results : results
}.

(** [x *= df] on an attribute that may be [None]. *)
Definition imul (x : pyfloat) (df : R) : outcome pyfloat :=
  match x with
  | Some v => Return (Some (v * df))
  | None => Raise TypeError
  end.

(** [bounds[i] = v] *)
Definition setitem (bounds : option (list bound)) (i : nat) (v : bound)
  : outcome (option (list bound)) :=
  match bounds with
  | None => Raise TypeError
  | Some l =>
      if Nat.ltb i (length l)
      then Return (Some (firstn i l ++ v :: skipn (S i) l))
      else Raise IndexError
  end.

Definition log10 (x : R) : R := ln x / ln 10.

Section Driver.

(** The two fitting routines live in the library module that [pptoas.py]
    imports; the driver only calls them. *)
Variable fit_portrait_full :
  list (list R) -> list (list R) -> list R -> R -> list R -> list R ->
  list (option R) -> list R -> list Z -> option (list bound) -> bool ->
  string -> results.
Variable fit_phase_shift : list R -> list R -> R -> nat -> phase_shift.

Variable o : options.

(** The body of the loop over [ok_isubs], from the initial guesses to the
    Doppler correction; [bounds] is the local variable of [get_TOAs], which
    the body may assign. *)
Definition fit_subint (a : archive) (bounds : option (list bound))
    (s : subint) : outcome (TOA * option (list bound)) :=
  let self := get_setup o in
  let DM_guess := DM_stored a in
  let GM_guess := 0 in
  let param_guesses :=
    [phi_guess s; DM_guess; GM_guess; tau_guess s; alpha_guess s] in
  let nu_fits_isub :=
    match nu_fits o with
    | None => [guess_fit_freq s; guess_fit_freq s; guess_fit_freq s]
    | Some t => [fst t; fst t; snd t]
    end in
  let nu_refs_isub :=
    match nu_refs o with
    | None => [None; None; None]
    | Some t => [Some (fst t); Some (fst t); Some (snd t)]
    end in
  let bounds :=
    match bounds with
    | None =>
        if String.eqb (method o) "TNC" then
          let phi_bounds := (None, None) in
          let DM_bounds := (None, None) in
          let GM_bounds := (None, None) in
          let tau_bounds :=
            if negb (self_log10_tau self) then (Some 0, None)
            else (Some (log10 (/ (10 * INR (nbin a)))), None) in
          let alpha_bounds := (Some (-10), Some 10) in
          Some [phi_bounds; DM_bounds; GM_bounds; tau_bounds; alpha_bounds]
        else None
    | Some l => Some l
    end in
  r <- (if Nat.leb (nchan_min self) (length (freqsx s))
        then Return (fit_portrait_full (portx s) (modelx s) param_guesses
                       (P s) (freqsx s) nu_fits_isub nu_refs_isub
                       (errs s) (fit_flags self) bounds
                       (self_log10_tau self) (method o))
        else
          match portx s, modelx s, errs s, freqsx s with
          | p0 :: _, m0 :: _, e0 :: _, f0 :: _ =>
              let ps := fit_phase_shift p0 m0 e0 (nbin a) in
              Return
                {| phi := phase ps;
                   phi_err := phase_err ps;
                   DM := None; DM_err := None;
                   GM := None; GM_err := None;
                   tau := None; tau_err := None;
                   alpha := None; alpha_err := None;
                   nu_DM := f0; nu_GM := f0; nu_tau := f0;
                   nfeval := 0%Z;
                   return_code := (-2)%Z;
                   scales := [scale ps];
                   scale_errs := [scale_error ps];
                   covariance_matrix := identity (nfit self);
                   duration := ps_duration ps;
                   red_chi2 := ps_red_chi2 ps;
                   snr := ps_snr ps |}
          | _, _, _, _ => Raise IndexError
          end) ;;
  let TOA_MJD := epoch s + (phi r * P s + backend_delay a) / (3600 * 24) in
  let TOA_err := phi_err r * P s * 1000000 in
  r <- (if bary_DM o then
          let df := doppler_factor s in
          if Nat.ltb 1 (length (freqsx s)) then
            dm <- imul (DM r) df ;;
            gm <- imul (GM r) df ;;
            Return
              {| phi := phi r; phi_err := phi_err r;
                 DM := dm; DM_err := DM_err r;
                 GM := gm; GM_err := GM_err r;
                 tau := tau r; tau_err := tau_err r;
                 alpha := alpha r; alpha_err := alpha_err r;
                 nu_DM := nu_DM r; nu_GM := nu_GM r; nu_tau := nu_tau r;
                 nfeval := nfeval r; return_code := return_code r;
                 scales := scales r; scale_errs := scale_errs r;
                 covariance_matrix := covariance_matrix r;
                 duration := duration r; red_chi2 := red_chi2 r;
                 snr := snr r |}
          else Return r
        else Return r) ;;
  Return
    ({| toa_frequency := nu_DM r; toa_MJD := TOA_MJD; toa_error := TOA_err;
        toa_DM := DM r; toa_DM_error := DM_err r; toa_results := r |},
     bounds).

(** The loop over [ok_isubs] of one archive. *)
Fixpoint fit_subints (a : archive) (bounds : option (list bound))
    (ss : list subint) (acc : list TOA)
  : outcome (list TOA * option (list bound)) :=
  match ss with
  | [] => Return (acc, bounds)
  | s :: ss' =>
      tb <- fit_subint a bounds s ;;
      fit_subints a (snd tb) ss' (acc ++ [fst tb])
  end.

(** The loop over the data files; the result is [self.TOA_list]. *)
Fixpoint get_TOAs_loop (datafiles : list load_result)
    (bounds : option (list bound)) (TOA_list : list TOA)
  : outcome (list TOA) :=
  match datafiles with
  | [] => Return TOA_list
  | RuntimeError :: rest => get_TOAs_loop rest bounds TOA_list
  | Loaded a :: rest =>
      match ok_subints a with
      | [] => get_TOAs_loop rest bounds TOA_list
      | _ :: _ =>
          let DM0' :=
            match DM0 o with
            | None => DM_stored a
            | Some v => v
            end in
          bounds <- (if negb (fit_DM o)
                     then setitem bounds 1 (Some DM0', Some DM0')
                     else Return bounds) ;;
          tb <- fit_subints a bounds (ok_subints a) TOA_list ;;
          get_TOAs_loop rest (snd tb) (fst tb)
      end
  end.

Definition get_TOAs (datafiles : list load_result) : outcome (list TOA) :=
  get_TOAs_loop datafiles (bounds o) [].

End Driver.

End PPToas.

(** ** Dispersive delay and the Doppler correction of frequencies *)

(** [DM_delay(DM, freq, freq2=np.inf, P=None)]: the test [if P:] fails for
    [None] and for [0.0], and the delay is then left in seconds. *)
Definition DM_delay (DM : R) (f f2 : freq) (P : option R) : R :=
  let delay := Dconst * DM * (freq_pow_m2 f - freq_pow_m2 f2) in
  match P with
  | Some P => if Req_dec_T P 0 then delay else delay / P
  | None => delay
  end.

(** [doppler_correct_freqs(freqs, doppler_factor)] *)
Definition doppler_correct_freqs (freqs : list R) (doppler_factor : R)
  : list R :=
  map (fun f => doppler_factor * f) freqs.

(** ** Power laws *)

(** [x ** y] of two floats; the exponential of [y ln x], which is the
    power for a positive base [x]. *)
Definition fpow (x y : R) : R := Rpower x y.

(** [powlaw(nu, nu0, A, alpha)] *)
Definition powlaw (nu nu0 A alpha : R) : R := A * fpow (nu / nu0) alpha.

(** [powlaw_integral(nu2, nu1, nu0, A, alpha)] *)
Definition powlaw_integral (nu2 nu1 nu0 A alpha : R) : R :=
  if Req_dec_T alpha (-1) then A * nu0 * ln (nu2 / nu1)
  else
    let C := A * fpow nu0 (- alpha) / (1 + alpha) in
    let diff := fpow nu2 (1 + alpha) - fpow nu1 (1 + alpha) in
    C * diff.

(** [np.linspace(a, b, num)]: [num] points from [a] in steps of
    [(b - a) / (num - 1)]; one point is [a] alone. *)
Definition linspace (a b : R) (num : nat) : list R :=
  match num with
  | O => []
  | S O => [a]
  | _ => map (fun i => a + INR i * ((b - a) / INR (num - 1))) (seq 0 num)
  end.

(** [powlaw_freqs(lo, hi, N, alpha, mid=False)] *)
Definition powlaw_freqs (lo hi : R) (N : nat) (alpha : R) (mid : bool)
  : list R :=
  let nus :=
    if Req_dec_T alpha (-1)
    then map exp (linspace (ln lo) (ln hi) (N + 1))
    else map (fun x => fpow x (/ (1 + alpha)))
           (linspace (fpow lo (1 + alpha)) (fpow hi (1 + alpha)) (N + 1)) in
  if mid
  then map (fun nn => 1/2 * (nth nn nus 0 + nth (S nn) nus 0)) (seq 0 N)
  else nus.

(** ** [gen_gaussian_profile] *)

(** [model += amp * g] for two arrays of one length *)
Definition add_scaled (model : list R) (amp : R) (g : list R) : list R :=
  map (fun mg => fst mg + amp * snd mg) (combine model g).

(** One pass of the loop: component [ii] is added to [model]. *)
Definition add_component (params : list R) (N : nat)
    (model : Py.outcome (list R)) (ii : nat) : Py.outcome (list R) :=
  Py.bind model (fun model =>
    let loc := nth (1 + ii * 3) params 0 in
    let wid := nth (2 + ii * 3) params 0 in
    let amp := nth (3 + ii * 3) params 0 in
    match Gaussian.gaussian_profile_default N loc wid with
    | Gaussian.Profile g => Py.Return (add_scaled model amp g)
    | Gaussian.Scalar z => Py.Return (map (fun x => x + amp * IZR z) model)
    | Gaussian.ValueError => Py.Raise Py.ValueError
    end).

(** [ngauss = (len(params) - 1) / 3] is Python 2's floor division, and
    [params[0]] raises [IndexError] on an empty sequence. *)
Definition gen_gaussian_profile (params : list R) (N : nat)
  : Py.outcome (list R) :=
  let ngauss := ((Z.of_nat (length params) - 1) / 3)%Z in
  match params with
  | [] => Py.Raise Py.IndexError
  | p0 :: _ =>
      fold_left (add_component params N) (seq 0 (Z.to_nat ngauss))
        (Py.Return (map (fun z => z + p0) (zeros N)))
  end.

(** ** Filters *)

(** [wiener_filter(prof, noise)] *)
Definition wiener_filter (prof : list R) (noise : R)
  : Py.outcome (list R) :=
  Py.bind (FFT.rfft prof) (fun FFT =>
  let pows :=
    map (fun z => Re (Cmul z (Cconj z)) / INR (length prof)) FFT in
  Py.Return (map (fun pw => pw / (pw + noise ^ 2)) pows)).

(** [brickwall_filter(n, kc)]: [fk[:kc] = 1.0], where a negative [kc]
    counts from the end. *)
Definition brickwall_filter (n : nat) (kc : Z) : list R :=
  let len := Z.of_nat n in
  let stop :=
    Z.to_nat (if (kc <? 0)%Z then Z.max (len + kc) 0 else Z.min kc len) in
  repeat 1 stop ++ skipn stop (zeros n).

(** [a.argmin()]: the first index of the least entry; [None] is the
    [ValueError] of an empty array. *)
Fixpoint argmin_from (i best : nat) (least : R) (l : list R) : nat :=
  match l with
  | [] => best
  | x :: l' =>
      if Rlt_dec x least then argmin_from (S i) i x l'
      else argmin_from (S i) best least l'
  end.

Definition argmin (l : list R) : option nat :=
  match l with
  | [] => None
  | x :: l' => Some (argmin_from 1 0 x l')
  end.

(** The array [X2] of [find_kc]: the squared distance of [wf] to each
    brick wall. *)
Definition brickwall_distances (wf : list R) : list R :=
  let N := length wf in
  map (fun ii =>
         np_sum (map (fun wb => (fst wb - snd wb) ^ 2)
                   (combine wf (brickwall_filter N (Z.of_nat ii)))))
      (seq 0 N).

(** [find_kc(prof, noise)] *)
Definition find_kc (prof : list R) (noise : R) : Py.outcome nat :=
  Py.bind (wiener_filter prof noise) (fun wf =>
  match argmin (brickwall_distances wf) with
  | Some kc => Py.Return kc
  | None => Py.Raise Py.ValueError
  end).

(** ** [first_guess] *)

(** [np.sum(a, axis=0)] of a 2-D array: the sums of the columns.  A
    portrait without a row has no column. *)
Definition col_sums (a : list (list R)) : list R :=
  match a with
  | [] => []
  | row0 :: _ =>
      map (fun j => np_sum (map (fun row => nth j row 0) a))
        (seq 0 (length row0))
  end.

(** [crosscorr[ii] = np.correlate(a, v)]: for two non-empty arrays of one
    length the correlation is the one number [sum_n a[n] v[n]]; an empty
    array makes the call raise [ValueError], and two different lengths
    give several numbers, which the assignment refuses with
    [ValueError]. *)
Definition correlate_scalar (a v : list R) : Py.outcome R :=
  match a with
  | [] => Py.Raise Py.ValueError
  | _ :: _ =>
      if Nat.eqb (length a) (length v)
      then Py.Return (np_sum (map (fun av => fst av * snd av) (combine a v)))
      else Py.Raise Py.ValueError
  end.

(** [a.argmax()]: the first index of the greatest entry; [None] is the
    [ValueError] of an empty array. *)
Fixpoint argmax_from (i best : nat) (most : R) (l : list R) : nat :=
  match l with
  | [] => best
  | x :: l' =>
      if Rgt_dec x most then argmax_from (S i) i x l'
      else argmax_from (S i) best most l'
  end.

Definition argmax (l : list R) : option nat :=
  match l with
  | [] => None
  | x :: l' => Some (argmax_from 1 0 x l')
  end.

(** The body of the loop: the correlation of the rotated data profile
    with the model profile, at one trial phase. *)
Definition phase_correlation (data model : list (list R)) (phase : R)
  : Py.outcome R :=
  let prof := col_sums data in
  Py.bind (fft_rotate prof (phase * INR (length prof))) (fun rot =>
  correlate_scalar rot (col_sums model)).

(** [first_guess(data, model, nguess=1000)] *)
Definition first_guess (data model : list (list R)) (nguess : nat)
  : Py.outcome R :=
  let phaseguess := linspace (- (1/2)) (1/2) nguess in
  Py.bind (Py.mapM (phase_correlation data model) phaseguess)
    (fun crosscorr =>
  match argmax crosscorr with
  | Some i => Py.Return (nth i phaseguess 0)
  | None => Py.Raise Py.ValueError
  end).

(** ** [get_noise] *)

(** The array [data]: one profile, of shape [(n,)], or a portrait of shape
    [(len rows, ncol)]. *)
Inductive ndarray : Type :=
| Array1 (a : list R)
| Array2 (ncol : nat) (rows : list (list R)).

(** What [get_noise] returns: one level, or one level per channel. *)
Inductive noise : Type :=
| Level (x : R)
| Levels (l : list R).

(** [np.sort] and [np.median]; the median of an even number of values is
    the mean of the two in the middle. *)
Fixpoint insert_sorted (x : R) (l : list R) : list R :=
  match l with
  | [] => [x]
  | y :: l' => if Rle_dec x y then x :: l else y :: insert_sorted x l'
  end.

Definition np_sort (l : list R) : list R := fold_right insert_sorted [] l.

Definition np_median (l : list R) : R :=
  let s := np_sort l in
  let n := length s in
  np_mean (firstn (n / 2 - (n - 1) / 2 + 1) (skipn ((n - 1) / 2) s)).

(** [x[-len(x)/frac:]], with Python 2's floor division; [frac] is a
    positive integer. *)
Definition last_part {A : Type} (frac : positive) (x : list A) : list A :=
  slice_from (Z.div (Z.opp (Z.of_nat (length x))) (Zpos frac)) x.

(** [np.real(FFT * np.conj(FFT)) / len(prof)] *)
Definition power_spectrum (prof : list R) (FFT : list C) : list R :=
  map (fun z => Re (Cmul z (Cconj z)) / INR (length prof)) FFT.

(** The [try] branch, on the profile [prof]. *)
Definition profile_noise (prof : list R) (frac : positive) (tau fd : bool)
  : Py.outcome noise :=
  Py.bind (FFT.rfft prof) (fun FFT =>
  if fd then
    let sd := np_std (last_part frac (map Re FFT)) in
    Py.Return (Level (if tau then pow_m2 sd else sd))
  else
    let m := np_mean (last_part frac (power_spectrum prof FFT)) in
    Py.Return (Level (if tau then / m else sqrt m))).

(** The level of one row in the loop of the [except] branch. *)
Definition row_noise (frac : positive) (fd : bool) (prof : list R)
  : Py.outcome R :=
  Py.bind (FFT.rfft prof) (fun FFT =>
  if fd then Py.Return (np_std (last_part frac (map Re FFT)))
  else Py.Return (sqrt (np_mean (last_part frac (power_spectrum prof FFT))))).

(** [get_noise(data, frac=4, tau=False, chans=False, fd=False)].  [prof]
    is bound for a profile, for a portrait of one row and for a portrait of
    one column; otherwise reading it raises [UnboundLocalError], a
    [NameError], and the [except] branch runs over the rows. *)
Definition get_noise (data : ndarray) (frac : positive)
    (tau chans fd : bool) : Py.outcome noise :=
  match data with
  | Array1 a => profile_noise a frac tau fd
  | Array2 ncol rows =>
      if Nat.eqb (length rows) 1
      then profile_noise (nth 0 rows []) frac tau fd
      else if Nat.eqb ncol 1
      then profile_noise (map (fun row => nth 0 row 0) rows) frac tau fd
      else
        Py.bind (Py.mapM (row_noise frac fd) rows) (fun noise =>
        if chans
        then Py.Return (Levels (if tau then map pow_m2 noise else noise))
        else
          Py.Return (Level (if tau then pow_m2 (np_median noise)
                            else np_median noise)))
  end.

(** * Properties *)

(** ** Complex arithmetic *)

Lemma C_eq (a b : C) : Re a = Re b -> Im a = Im b -> a = b.
Proof. destruct a, b; simpl; intros -> ->; reflexivity. Qed.

Lemma Re_mul_conj_self (a : C) : Re (Cmul a (Cconj a)) = Cabs2 a.
Proof. unfold Cabs2; simpl; ring. Qed.

Lemma Cmul_comm (a b : C) : Cmul a b = Cmul b a.
Proof. apply C_eq; simpl; ring. Qed.

Lemma Cmul_assoc (a b c : C) : Cmul a (Cmul b c) = Cmul (Cmul a b) c.
Proof. apply C_eq; simpl; ring. Qed.


(** ** [gaussian_profile]: the zero-width and zero-maximum policies *)

Section GaussianFacts.
Import Gaussian.

Lemma okzinds_beyond_cutoff (zs : list R) (i : nat) :
  Forall (fun z => 20 <= Rabs z) zs -> okzinds_from i zs = [].
Proof.
  intros H; revert i; induction H as [|z zs Hz _ IH]; intros i; simpl.
  - reflexivity.
  - destruct (Rlt_dec (Rabs z) 20) as [Hlt|_]; [lra | apply IH].
Qed.

Lemma raw_profile_beyond_cutoff (N : nat) (loc wid : R) :
  Forall (fun z => 20 <= Rabs z) (zs_of N loc wid) ->
  raw_profile N loc wid = zeros N.
Proof.
  intros H; unfold raw_profile.
  rewrite (okzinds_beyond_cutoff _ 0 H); reflexivity.
Qed.

Lemma fold_Rmax_zeros (n : nat) : fold_left Rmax (repeat 0 n) 0 = 0.
Proof.
  induction n as [|n IH]; simpl; [reflexivity|].
  rewrite Rmax_left by lra; exact IH.
Qed.

Lemma np_max_abs_zeros (N : nat) :
  (0 < N)%nat -> np_max (map Rabs (zeros N)) = Some 0.
Proof.
  destruct N as [|n]; [lia|intros _].
  unfold zeros; simpl; rewrite map_repeat, Rabs_R0, fold_Rmax_zeros.
  reflexivity.
Qed.

Lemma gaussian_body_zero_max (N : nat) (loc wid : R) :
  np_max (map Rabs (raw_profile N loc wid)) = Some 0 ->
  gaussian_body N loc wid false = Profile (raw_profile N loc wid).
Proof.
  intros H; unfold gaussian_body; cbv zeta; rewrite H.
  destruct (Req_dec_T 0 0) as [_|Hne]; [reflexivity | contradiction Hne; reflexivity].
Qed.

End GaussianFacts.

(** C7.  With the default options, [gaussian_profile] returns the all-zero
    array of length [N] whenever [wid <= 0], for every [N] and [loc]; when
    [wid > 0] and the largest absolute value of the raw profile is [0], that
    raw profile is returned as it is, with no division; and when [wid > 0]
    and every sample is at 20 sigma or beyond, the raw profile of a
    non-empty grid is the zero array and its largest absolute value is [0],
    so the zero array is what the call returns. *)
Theorem gaussian_profile_zero_policy (N : nat) (loc wid : R) :
  (wid <= 0 ->
     Gaussian.gaussian_profile_default N loc wid = Gaussian.Profile (zeros N))
  /\ (0 < wid ->
      np_max (map Rabs (Gaussian.raw_profile N loc wid)) = Some 0 ->
      Gaussian.gaussian_profile_default N loc wid
        = Gaussian.Profile (Gaussian.raw_profile N loc wid))
  /\ (0 < wid -> (0 < N)%nat ->
      Forall (fun z => 20 <= Rabs z) (Gaussian.zs_of N loc wid) ->
      Gaussian.raw_profile N loc wid = zeros N
      /\ np_max (map Rabs (Gaussian.raw_profile N loc wid)) = Some 0
      /\ Gaussian.gaussian_profile_default N loc wid
           = Gaussian.Profile (zeros N)).
Proof.
  unfold Gaussian.gaussian_profile_default, Gaussian.gaussian_profile.
  repeat split.
  - intros Hw.
    destruct (Rgt_dec wid 0) as [Hgt|_]; [lra|].
    destruct (Req_dec_T wid 0) as [_|Hne]; [reflexivity|].
    destruct (Rlt_dec wid 0) as [_|Hnlt]; [reflexivity | lra].
  - intros Hw Hmax.
    destruct (Rgt_dec wid 0) as [_|Hngt]; [|lra].
    apply gaussian_body_zero_max; exact Hmax.
  - apply raw_profile_beyond_cutoff; assumption.
  - rewrite raw_profile_beyond_cutoff by assumption.
    apply np_max_abs_zeros; assumption.
  - destruct (Rgt_dec wid 0) as [_|Hngt]; [|lra].
    rewrite gaussian_body_zero_max.
    + f_equal; apply raw_profile_beyond_cutoff; assumption.
    + rewrite raw_profile_beyond_cutoff by assumption.
      apply np_max_abs_zeros; assumption.
Qed.

Lemma sqrt_2ln2_gt_1 : 1 < sqrt (2 * ln 2).
Proof.
  pose proof ln_lt_2 as H.
  rewrite <- sqrt_1 at 1.
  apply sqrt_lt_1; lra.
Qed.

Lemma zs_one_bin_half :
  Forall (fun z => 20 <= Rabs z) (Gaussian.zs_of 1 (1/2) (1/100)).
Proof.
  assert (Hm : Gaussian.mod1 (1/2) = 1/2).
  { unfold Gaussian.mod1, frac_part.
    rewrite <- (Int_part_spec (1/2) 0) by (simpl; lra). simpl; lra. }
  unfold Gaussian.zs_of; cbv zeta; rewrite Hm.
  unfold Gaussian.locvals, arange; simpl.
  destruct (Rlt_dec (1/2) (1/2)) as [Hlt|_]; [lra|]; simpl.
  destruct (Rlt_dec (0 / 1) (1/2 - 1/2)) as [Hlt|_]; [lra|].
  constructor; [|constructor].
  unfold Gaussian.sigma_of.
  pose proof sqrt_2ln2_gt_1 as Hs.
  replace ((0 / 1 - 1 / 2) / (1 / 100 / (2 * sqrt (2 * ln 2))))
    with (- (100 * sqrt (2 * ln 2))) by (field; lra).
  rewrite Rabs_Ropp, Rabs_right; lra.
Qed.

(** C7 at concrete inputs: a negative width on 4 bins, and the width
    [1/100] on one bin centred half a turn away from the component. *)
Lemma gaussian_profile_zero_policy_witness :
  Gaussian.gaussian_profile_default 4 (1/3) (-1) = Gaussian.Profile (zeros 4)
  /\ Gaussian.gaussian_profile_default 1 (1/2) (1/100)
       = Gaussian.Profile (zeros 1).
Proof.
  split.
  - apply (proj1 (gaussian_profile_zero_policy 4 (1/3) (-1))); lra.
  - apply (proj2 (proj2 (gaussian_profile_zero_policy 1 (1/2) (1/100))));
      [lra | lia | exact zs_one_bin_half].
Defined.

Lemma Re_Cadd (a b : C) : Re (Cadd a b) = Re a + Re b.
Proof. reflexivity. Qed.

(** ** Sums: the accumulation loops and the indexed sums agree *)

Lemma fold_left_Rplus_acc (l : list R) (a : R) :
  fold_left Rplus l a = a + fold_right Rplus 0 l.
Proof.
  revert a; induction l as [|x l IH]; intros a; simpl.
  - ring.
  - rewrite IH; ring.
Qed.

Lemma np_sum_fold_right (l : list R) : np_sum l = fold_right Rplus 0 l.
Proof. unfold np_sum; rewrite fold_left_Rplus_acc; ring. Qed.

Lemma fold_left_Cadd_acc (l : list C) (a : C) :
  fold_left Cadd l a = Cadd a (fold_right Cadd (RtoC 0) l).
Proof.
  revert a; induction l as [|x l IH]; intros a; simpl.
  - apply C_eq; simpl; ring.
  - rewrite IH; apply C_eq; simpl; ring.
Qed.

Lemma Re_fold_right_Cadd (l : list C) :
  Re (fold_right Cadd (RtoC 0) l) = fold_right Rplus 0 (map Re l).
Proof.
  induction l as [|x l IH]; simpl; [reflexivity|].
  rewrite IH; reflexivity.
Qed.

Lemma Re_np_csum (l : list C) :
  Re (np_csum l) = fold_right Rplus 0 (map Re l).
Proof.
  unfold np_csum; rewrite fold_left_Cadd_acc, Re_Cadd, Re_fold_right_Cadd.
  simpl; ring.
Qed.

Lemma fold_left_loop_sum (F : nat -> R) (l : list nat) (a : R) :
  fold_left (fun m nn => m + F nn) l a = a + fold_right Rplus 0 (map F l).
Proof.
  revert a; induction l as [|x l IH]; intros a; simpl.
  - ring.
  - rewrite IH; ring.
Qed.

Lemma fold_right_Rplus_app (l1 l2 : list R) :
  fold_right Rplus 0 (l1 ++ l2)
  = fold_right Rplus 0 l1 + fold_right Rplus 0 l2.
Proof.
  induction l1 as [|x l1 IH]; simpl; [ring | rewrite IH; ring].
Qed.

Lemma fold_right_Rplus_scal (e : R) (l : list R) :
  fold_right Rplus 0 (map (fun x => e * x) l) = e * fold_right Rplus 0 l.
Proof.
  induction l as [|x l IH]; simpl; [ring | rewrite IH; ring].
Qed.

Lemma Rsum_ext (n : nat) (f g : nat -> R) :
  (forall k, (k < n)%nat -> f k = g k) -> Spec.Rsum n f = Spec.Rsum n g.
Proof.
  intros H; unfold Spec.Rsum; f_equal.
  apply map_ext_in; intros k Hk; apply in_seq in Hk; apply H; lia.
Qed.

(** ** Element-wise products, by index *)

Lemma vmul_length (a b : list C) :
  length (vmul a b) = Nat.min (length a) (length b).
Proof.
  revert b; induction a as [|x a IH]; intros [|y b]; simpl; auto.
Qed.

Lemma vmul_nth (a b : list C) (i : nat) (z : C) :
  (i < length a)%nat -> (i < length b)%nat ->
  nth i (vmul a b) z = Cmul (nth i a z) (nth i b z).
Proof.
  revert b i; induction a as [|x a IH]; intros [|y b] [|i]; simpl;
    try lia; intros Ha Hb; [reflexivity | apply IH; lia].
Qed.

Lemma map_seq_nth {A : Type} (l : list A) (z : A) :
  l = map (fun k => nth k l z) (seq 0 (length l)).
Proof.
  apply (nth_ext _ _ z z).
  - rewrite length_map, length_seq; reflexivity.
  - intros n Hn.
    rewrite (nth_indep (map _ _) z (nth 0 l z))
      by (rewrite length_map, length_seq; exact Hn).
    rewrite (map_nth (fun k => nth k l z) (seq 0 (length l)) 0%nat n).
    rewrite seq_nth by exact Hn; reflexivity.
Qed.

Lemma arange_nth (n i : nat) : (i < n)%nat -> nth i (arange n) 0 = INR i.
Proof.
  intros Hi; unfold arange.
  change 0 with (INR 0); rewrite map_nth, seq_nth by exact Hi; reflexivity.
Qed.

Lemma arange_length (n : nat) : length (arange n) = n.
Proof. unfold arange; rewrite length_map, length_seq; reflexivity. Qed.

Lemma map_arange_nth (g : R -> C) (n i : nat) (z : C) :
  (i < n)%nat -> nth i (map g (arange n)) z = g (INR i).
Proof.
  intros Hi.
  rewrite (nth_indep _ z (g 0)) by (rewrite length_map, arange_length; exact Hi).
  rewrite map_nth, arange_nth by exact Hi; reflexivity.
Qed.

Lemma map_seq_by_index (f : nat -> C) (l : list C) (n : nat) :
  length l = n ->
  (forall i, (i < n)%nat -> nth i l Spec.czero = f i) ->
  l = map f (seq 0 n).
Proof.
  intros Hl H; subst n.
  rewrite (map_seq_nth l Spec.czero) at 1.
  apply map_ext_in; intros i Hi; apply in_seq in Hi; apply H; lia.
Qed.

Lemma map_conj_nth (l : list C) (i : nat) (z : C) :
  (i < length l)%nat -> nth i (map Cconj l) z = Cconj (nth i l z).
Proof.
  intros Hi.
  rewrite (nth_indep (map _ _) z (Cconj z)) by (rewrite length_map; exact Hi).
  apply map_nth.
Qed.

(** ** The phasor *)

Lemma phasor_factor (k delta : R) :
  Cexp (Cmul (Cmul (Cmul (RtoC k) (Cj 2)) (RtoC PI)) (RtoC delta))
  = Cexp (Cj (2 * PI * k * delta)).
Proof.
  apply C_eq; simpl; (f_equal; f_equal; ring).
Qed.

Lemma phasor_length (n : nat) (delta : R) : length (phasor n delta) = n.
Proof. unfold phasor; rewrite length_map, arange_length; reflexivity. Qed.

Lemma phasor_nth (n i : nat) (delta : R) :
  (i < n)%nat -> nth i (phasor n delta) Spec.czero = Spec.shift i delta.
Proof.
  intros Hi; unfold phasor.
  rewrite map_arange_nth by exact Hi.
  apply phasor_factor.
Qed.

(** The cross-correlation sum of one channel, as the indexed sum. *)
Lemma real_corr_sum_spec (drow mrow : list C) (delta : R) :
  length drow = length mrow ->
  real_corr_sum drow mrow (phasor (length mrow) delta)
  = Spec.g1 drow mrow delta.
Proof.
  intros Hl; unfold real_corr_sum, Spec.g1, Spec.Csum.
  rewrite np_sum_fold_right, <- Re_fold_right_Cadd; do 2 f_equal.
  apply map_seq_by_index.
  - rewrite !vmul_length, length_map, phasor_length; lia.
  - intros i Hi.
    rewrite vmul_nth
      by (rewrite ?vmul_length, ?length_map, ?phasor_length; lia).
    rewrite vmul_nth by (rewrite ?length_map; lia).
    rewrite phasor_nth by exact Hi.
    rewrite map_conj_nth by lia.
    reflexivity.
Qed.

(** ** The constants [d] and [p] that [fit_portrait] passes *)

Lemma sum_Re_self_conj (row : list C) :
  fold_right Rplus 0 (map Re (vmul row (map Cconj row)))
  = fold_right Rplus 0 (map Cabs2 row).
Proof.
  induction row as [|z row IH]; simpl; [reflexivity|].
  rewrite IH; unfold Cabs2; ring.
Qed.

Lemma sum_Cabs2_power (row : list C) :
  fold_right Rplus 0 (map Cabs2 row) = Spec.power row.
Proof.
  unfold Spec.power, Spec.Rsum.
  rewrite (map_seq_nth row Spec.czero) at 1.
  rewrite map_map; reflexivity.
Qed.

Lemma row_power (row : list C) :
  Re (np_csum (vmul row (map Cconj row))) = Spec.power row.
Proof. rewrite Re_np_csum, sum_Re_self_conj; apply sum_Cabs2_power. Qed.

Lemma portrait_p_nth (model : list (list C)) (c : nat) :
  nth c (portrait_p model) 0 = Spec.power (nth c model []).
Proof.
  unfold portrait_p.
  destruct (Nat.lt_ge_cases c (length model)) as [Hc|Hc].
  - rewrite (nth_indep (map _ _) 0 (Re (np_csum (vmul [] (map Cconj [])))))
      by (rewrite length_map; exact Hc).
    rewrite (map_nth (fun row => Re (np_csum (vmul row (map Cconj row))))).
    apply row_power.
  - rewrite !nth_overflow by (rewrite ?length_map; exact Hc).
    reflexivity.
Qed.

Lemma sum_Re_concat (L : list (list C)) :
  fold_right Rplus 0 (map Re (concat L))
  = fold_right Rplus 0 (map (fun l => fold_right Rplus 0 (map Re l)) L).
Proof.
  induction L as [|l L IH]; simpl; [reflexivity|].
  rewrite map_app, fold_right_Rplus_app, IH; reflexivity.
Qed.

Lemma sum_Re_scaled (e : R) (l : list C) :
  fold_right Rplus 0 (map Re (map (fun z => Cmul (RtoC e) z) l))
  = e * fold_right Rplus 0 (map Re l).
Proof.
  induction l as [|z l IH]; simpl; [ring | rewrite IH; ring].
Qed.

Lemma map_combine_seq {A B T : Type} (G : A * B -> T) (a0 : A) (b0 : B)
    (la : list A) (lb : list B) :
  length la = length lb ->
  map G (combine la lb)
  = map (fun c => G (nth c la a0, nth c lb b0)) (seq 0 (length lb)).
Proof.
  revert lb; induction la as [|x la IH]; intros [|y lb] Hl; simpl in *;
    try discriminate; [reflexivity|].
  f_equal.
  rewrite <- seq_shift, map_map.
  apply IH; lia.
Qed.

Lemma portrait_d_spec (errs : list R) (data : list (list C)) :
  length errs = length data ->
  portrait_d errs data = Spec.d errs data.
Proof.
  intros Hl; unfold portrait_d, Spec.d, Spec.Rsum.
  rewrite Re_np_csum, sum_Re_concat, map_map.
  rewrite (map_combine_seq _ 0 [] errs data Hl).
  f_equal; apply map_ext; intros c; simpl.
  rewrite sum_Re_scaled, sum_Re_self_conj, sum_Cabs2_power; reflexivity.
Qed.

(** ** C1: the objective *)

Lemma chan_delay_spec (phase DM P : R) (f nu0 : freq) :
  chan_delay phase (Dconst * DM / P) f nu0 = Spec.Delta phase DM P f nu0.
Proof. reflexivity. Qed.



(** ** Derivatives: the rules in pointwise form *)

Lemma dpl_ext (f g : R -> R) (x l : R) :
  (forall y, f y = g y) -> derivable_pt_lim f x l -> derivable_pt_lim g x l.
Proof.
  intros E H eps Heps; destruct (H eps Heps) as [dl Hd].
  exists dl; intros h Hh1 Hh2; rewrite <- !E; apply Hd; assumption.
Qed.

Lemma dpl_val (f : R -> R) (x l l' : R) :
  l = l' -> derivable_pt_lim f x l -> derivable_pt_lim f x l'.
Proof. intros ->; trivial. Qed.

Lemma dpl_const (c x : R) : derivable_pt_lim (fun _ => c) x 0.
Proof. exact (derivable_pt_lim_const c x). Qed.

Lemma dpl_plus (f g : R -> R) (x lf lg : R) :
  derivable_pt_lim f x lf -> derivable_pt_lim g x lg ->
  derivable_pt_lim (fun y => f y + g y) x (lf + lg).
Proof. intros Hf Hg; exact (derivable_pt_lim_plus f g x lf lg Hf Hg). Qed.

Lemma dpl_minus (f g : R -> R) (x lf lg : R) :
  derivable_pt_lim f x lf -> derivable_pt_lim g x lg ->
  derivable_pt_lim (fun y => f y - g y) x (lf - lg).
Proof. intros Hf Hg; exact (derivable_pt_lim_minus f g x lf lg Hf Hg). Qed.

Lemma dpl_mult (f g : R -> R) (x lf lg : R) :
  derivable_pt_lim f x lf -> derivable_pt_lim g x lg ->
  derivable_pt_lim (fun y => f y * g y) x (lf * g x + f x * lg).
Proof. intros Hf Hg; exact (derivable_pt_lim_mult f g x lf lg Hf Hg). Qed.

Lemma dpl_scal (a : R) (f : R -> R) (x lf : R) :
  derivable_pt_lim f x lf ->
  derivable_pt_lim (fun y => a * f y) x (a * lf).
Proof. intros Hf; exact (derivable_pt_lim_scal f a x lf Hf). Qed.

Lemma dpl_cos_comp (f : R -> R) (x lf : R) :
  derivable_pt_lim f x lf ->
  derivable_pt_lim (fun y => cos (f y)) x (- sin (f x) * lf).
Proof.
  intros Hf.
  exact (derivable_pt_lim_comp f cos x lf (- sin (f x)) Hf
           (derivable_pt_lim_cos (f x))).
Qed.

Lemma dpl_sin_comp (f : R -> R) (x lf : R) :
  derivable_pt_lim f x lf ->
  derivable_pt_lim (fun y => sin (f y)) x (cos (f x) * lf).
Proof.
  intros Hf.
  exact (derivable_pt_lim_comp f sin x lf (cos (f x)) Hf
           (derivable_pt_lim_sin (f x))).
Qed.

Lemma dpl_list_sum (l : list nat) (f : nat -> R -> R) (f' : nat -> R)
    (x : R) :
  (forall k, In k l -> derivable_pt_lim (f k) x (f' k)) ->
  derivable_pt_lim (fun y => fold_right Rplus 0 (map (fun k => f k y) l)) x
    (fold_right Rplus 0 (map f' l)).
Proof.
  induction l as [|k l IH]; intros H; simpl.
  - apply dpl_const.
  - apply dpl_plus.
    + apply H; left; reflexivity.
    + apply IH; intros j Hj; apply H; right; exact Hj.
Qed.

Lemma dpl_Rsum (n : nat) (f : nat -> R -> R) (f' : nat -> R) (x : R) :
  (forall k, (k < n)%nat -> derivable_pt_lim (f k) x (f' k)) ->
  derivable_pt_lim (fun y => Spec.Rsum n (fun k => f k y)) x
    (Spec.Rsum n f').
Proof.
  intros H; unfold Spec.Rsum; apply dpl_list_sum.
  intros k Hk; apply in_seq in Hk; apply H; lia.
Qed.

Lemma Rsum_opp (n : nat) (f : nat -> R) :
  Spec.Rsum n (fun k => - f k) = - Spec.Rsum n f.
Proof.
  unfold Spec.Rsum; induction (seq 0 n) as [|k l IH]; simpl;
    [ring | rewrite IH; ring].
Qed.

Lemma Re_Csum (n : nat) (f : nat -> C) :
  Re (Spec.Csum n f) = Spec.Rsum n (fun k => Re (f k)).
Proof.
  unfold Spec.Csum, Spec.Rsum.
  rewrite Re_fold_right_Cadd, map_map; reflexivity.
Qed.

(** ** The derivative of one channel's cross-correlation *)

Lemma dpl_shift_term (A : C) (k : nat) (delta : R -> R) (x delta' : R) :
  derivable_pt_lim delta x delta' ->
  derivable_pt_lim (fun y => Re (Cmul A (Spec.shift k (delta y)))) x
    (Re (Cmul (Cj (2 * PI * INR k * delta'))
           (Cmul A (Spec.shift k (delta x))))).
Proof.
  intros H.
  assert (Ht : derivable_pt_lim (fun y => 2 * PI * INR k * delta y) x
                 (2 * PI * INR k * delta'))
    by (apply dpl_scal; exact H).
  apply (dpl_ext
           (fun y => Re A * (exp 0 * cos (2 * PI * INR k * delta y))
                     - Im A * (exp 0 * sin (2 * PI * INR k * delta y))));
    [intros y; reflexivity|].
  eapply dpl_val;
    [| apply dpl_minus; apply dpl_scal; apply dpl_scal;
       [apply dpl_cos_comp | apply dpl_sin_comp]; exact Ht].
  simpl; ring.
Qed.

Lemma dpl_g1 (Dc Mc : list C) (delta : R -> R) (x delta' : R) :
  derivable_pt_lim delta x delta' ->
  derivable_pt_lim (fun y => Spec.g1 Dc Mc (delta y)) x
    (Spec.g1' Dc Mc (delta x) delta').
Proof.
  intros H; unfold Spec.g1, Spec.g1'.
  eapply dpl_ext; [intros y; symmetry; apply Re_Csum|].
  eapply dpl_val; [symmetry; apply Re_Csum|].
  apply (dpl_Rsum (length Mc)
           (fun k y => Re (Cmul (Cmul (nth k Dc Spec.czero)
                                   (Cconj (nth k Mc Spec.czero)))
                             (Spec.shift k (delta y))))).
  intros k _; apply dpl_shift_term; exact H.
Qed.

(** The delay of a channel as a function of each trial parameter. *)
Lemma dpl_Delta_phase (phase DM P : R) (f nu0 : freq) :
  derivable_pt_lim (fun x => Spec.Delta x DM P f nu0) phase
    (Spec.dDelta_dphase f).
Proof.
  unfold Spec.Delta, Spec.dDelta_dphase.
  eapply dpl_val;
    [| apply dpl_plus; [apply derivable_pt_lim_id | apply dpl_const]].
  ring.
Qed.

Lemma dpl_Delta_DM (phase DM P : R) (f nu0 : freq) :
  derivable_pt_lim (fun y => Spec.Delta phase y P f nu0) DM
    (Spec.dDelta_dDM P nu0 f).
Proof.
  unfold Spec.Delta, Spec.dDelta_dDM.
  apply (dpl_ext
           (fun y => phase
                     + (Dconst / P * (freq_pow_m2 f - freq_pow_m2 nu0))
                       * (fun z => z) y));
    [intros y; unfold Rdiv; ring|].
  eapply dpl_val;
    [| apply dpl_plus;
       [apply dpl_const | apply dpl_scal; apply derivable_pt_lim_id]].
  ring.
Qed.

(** ** The derivative of a weighted sum of squares *)

Lemma dpl_weighted_squares (n : nat) (G : nat -> R -> R) (G' e p : nat -> R)
    (d x : R) :
  (forall c, (c < n)%nat -> derivable_pt_lim (G c) x (G' c)) ->
  derivable_pt_lim
    (fun y => d - Spec.Rsum n (fun c => G c y ^ 2 * e c / p c)) x
    (Spec.Rsum n (fun c => - (e c / p c) * (2 * G c x * G' c))).
Proof.
  intros H.
  eapply dpl_val;
    [| apply dpl_minus;
       [apply dpl_const
       | apply (dpl_Rsum n (fun c y => G c y ^ 2 * e c / p c)
                  (fun c => (e c / p c) * (G' c * G c x + G c x * G' c)))]].
  - rewrite Rminus_0_l, <- Rsum_opp.
    apply Rsum_ext; intros c _; ring.
  - intros c Hc.
    apply (dpl_ext (fun y => (e c / p c) * (G c y * G c y)));
      [intros y; unfold Rdiv; ring|].
    apply dpl_scal, dpl_mult; apply H; exact Hc.
Qed.

(** ** The loops of the objective and of its gradient, as indexed sums *)

Lemma fit_portrait_function_sum (data model : list (list C)) (p errs : list R)
    (d phase DM P : R) (freqs : list freq) (nu0 : freq) :
  (forall c, (c < length freqs)%nat ->
     length (nth c data []) = length (nth c model [])) ->
  fit_portrait_function (phase, DM) model p data d errs (Some P)
    (Some freqs) nu0
  = d - Spec.Rsum (length freqs)
          (fun c => Spec.g1 (nth c data []) (nth c model [])
                      (Spec.Delta phase DM P (nth c freqs inf_freq) nu0) ^ 2
                    * nth c errs 0 / nth c p 0).
Proof.
  intros Hrows.
  unfold fit_portrait_function; cbv zeta; simpl fst; simpl snd.
  f_equal; rewrite fold_left_loop_sum, Rplus_0_l.
  apply Rsum_ext; intros c Hc.
  rewrite real_corr_sum_spec by (apply Hrows; exact Hc).
  rewrite chan_delay_spec; reflexivity.
Qed.

Lemma real_corr_sum_coef_spec (g : R -> C) (dd : R) (drow mrow : list C)
    (delta : R) :
  (forall k, g (INR k) = Cj (2 * PI * INR k * dd)) ->
  length drow = length mrow ->
  real_corr_sum_coef (map g (arange (length mrow))) drow mrow
    (phasor (length mrow) delta)
  = Spec.g1' drow mrow delta dd.
Proof.
  intros Hg Hl; unfold real_corr_sum_coef, Spec.g1', Spec.Csum.
  rewrite np_sum_fold_right, <- Re_fold_right_Cadd; do 2 f_equal.
  apply map_seq_by_index.
  - rewrite !vmul_length, !length_map, arange_length, phasor_length; lia.
  - intros i Hi.
    rewrite vmul_nth
      by (rewrite ?vmul_length, ?length_map, ?arange_length,
            ?phasor_length; lia).
    rewrite vmul_nth
      by (rewrite ?vmul_length, ?length_map, ?arange_length; lia).
    rewrite vmul_nth by (rewrite ?length_map, ?arange_length; lia).
    rewrite phasor_nth, map_conj_nth, map_arange_nth, Hg by lia.
    apply C_eq; simpl; ring.
Qed.

Lemma coef_phi_factor (k : nat) :
  Cmul (Cmul (Cj 2) (RtoC PI)) (RtoC (INR k)) = Cj (2 * PI * INR k * 1).
Proof. apply C_eq; simpl; ring. Qed.

Lemma coef_DM_factor (P : R) (f nu0 : freq) (k : nat) :
  Cmul (Cmul (Cmul (Cmul (Cj 2) (RtoC PI)) (RtoC (INR k)))
          (RtoC (freq_pow_m2 f - freq_pow_m2 nu0)))
    (RtoC (Dconst / P))
  = Cj (2 * PI * INR k * Spec.dDelta_dDM P nu0 f).
Proof. unfold Spec.dDelta_dDM; apply C_eq; simpl; ring. Qed.

Lemma deriv_fold (step : R * R -> nat -> R * R) (tphi tDM : nat -> R)
    (l : list nat) (acc : R * R) :
  (forall a nn, step a nn = (fst a + tphi nn, snd a + tDM nn)) ->
  fold_left step l acc
  = (fst acc + fold_right Rplus 0 (map tphi l),
     snd acc + fold_right Rplus 0 (map tDM l)).
Proof.
  intros Hstep; revert acc; induction l as [|nn l IH]; intros acc; simpl.
  - destruct acc; simpl; f_equal; ring.
  - rewrite IH, Hstep; simpl; f_equal; ring.
Qed.

Lemma fit_portrait_function_deriv_sum (data model : list (list C))
    (p errs : list R) (d phase DM P : R) (freqs : list freq) (nu0 : freq) :
  (forall c, (c < length freqs)%nat ->
     length (nth c data []) = length (nth c model [])) ->
  fit_portrait_function_deriv (phase, DM) model p data d errs (Some P)
    (Some freqs) nu0
  = Some (Spec.gradient data model p errs phase DM P freqs nu0
            Spec.dDelta_dphase,
          Spec.gradient data model p errs phase DM P freqs nu0
            (Spec.dDelta_dDM P nu0)).
Proof.
  intros Hrows.
  unfold fit_portrait_function_deriv; cbv zeta; simpl fst; simpl snd.
  f_equal.
  erewrite deriv_fold by (intros a nn; unfold deriv_step; reflexivity).
  rewrite !Rplus_0_l; unfold Spec.gradient.
  f_equal; apply Rsum_ext; intros c Hc; cbv zeta.
  - rewrite real_corr_sum_spec by (apply Hrows; exact Hc).
    unfold coef_phi.
    rewrite (real_corr_sum_coef_spec _ 1)
      by (first [apply coef_phi_factor | apply Hrows; exact Hc]).
    rewrite chan_delay_spec; unfold Spec.dDelta_dphase, Rdiv; ring.
  - rewrite real_corr_sum_spec by (apply Hrows; exact Hc).
    unfold coef_DM.
    rewrite (real_corr_sum_coef_spec _
               (Spec.dDelta_dDM P nu0 (nth c freqs inf_freq)))
      by (first [apply coef_DM_factor | apply Hrows; exact Hc]).
    rewrite chan_delay_spec; unfold Rdiv; ring.
Qed.

(** ** C2: the gradient *)




(** ** [get_TOAs]: the degenerate fallback and the fixed DM *)

Section DriverFacts.
Import Py PPToas.

Variable fit_portrait_full :
  list (list R) -> list (list R) -> list R -> R -> list R -> list R ->
  list (option R) -> list R -> list Z -> option (list bound) -> bool ->
  string -> results.
Variable fit_phase_shift : list R -> list R -> R -> nat -> phase_shift.

(** [nchan_min] is 1, plus one for each of [fit_DM] and [fit_GM], and at
    least 2 when the scattering index is fitted. *)
Lemma nchan_min_value (o : options) :
  nchan_min (get_setup o)
  = let n := (1 + (if fit_DM o then 1 else 0)
                + (if fit_GM o then 1 else 0))%nat in
    if fit_scat o && negb (fix_alpha o) then Nat.max 2 n else n.
Proof.
  unfold get_setup; simpl.
  destruct (fit_DM o), (fit_GM o), (fit_scat o), (fix_alpha o); reflexivity.
Qed.

(** With fewer valid channels than [nchan_min], but at least one, and
    the Doppler correction off or at most one valid channel, the fallback
    is taken and the recorded results are those of the phase-only fit. *)
Lemma fit_subint_degenerate (o : options) (a : archive)
    (b : option (list bound)) (s : subint) :
  (0 < length (freqsx s))%nat ->
  length (portx s) = length (freqsx s) ->
  length (modelx s) = length (freqsx s) ->
  length (errs s) = length (freqsx s) ->
  (length (freqsx s) < nchan_min (get_setup o))%nat ->
  bary_DM o = false \/ (length (freqsx s) <= 1)%nat ->
  exists t b',
    fit_subint fit_portrait_full fit_phase_shift o a b s = Return (t, b')
    /\ toa_DM t = None /\ toa_DM_error t = None
    /\ DM (toa_results t) = None /\ DM_err (toa_results t) = None
    /\ GM (toa_results t) = None /\ GM_err (toa_results t) = None
    /\ tau (toa_results t) = None /\ tau_err (toa_results t) = None
    /\ alpha (toa_results t) = None /\ alpha_err (toa_results t) = None
    /\ return_code (toa_results t) = (-2)%Z
    /\ nfeval (toa_results t) = 0%Z
    /\ covariance_matrix (toa_results t) = identity (nfit (get_setup o)).
Proof.
  intros Hpos Hp Hm He Hlt Hd.
  unfold fit_subint; cbv zeta.
  destruct (Nat.leb_spec (nchan_min (get_setup o)) (length (freqsx s)))
    as [Hle|_]; [lia|].
  destruct (portx s) as [|p0 ps]; [simpl in Hp; lia|].
  destruct (modelx s) as [|m0 ms]; [simpl in Hm; lia|].
  destruct (errs s) as [|e0 es]; [simpl in He; lia|].
  destruct (freqsx s) as [|f0 fs] eqn:Hf; [simpl in Hpos; lia|].
  cbn [bind].
  destruct Hd as [Hb|Hone].
  - rewrite Hb; cbn [bind].
    eexists; eexists; split; [reflexivity|].
    cbn; repeat split; reflexivity.
  - destruct (bary_DM o).
    + destruct (Nat.ltb_spec 1 (length (f0 :: fs))) as [Hgt|_]; [lia|].
      cbn [bind].
      eexists; eexists; split; [reflexivity|].
      cbn; repeat split; reflexivity.
    + cbn [bind].
      eexists; eexists; split; [reflexivity|].
      cbn; repeat split; reflexivity.
Qed.

(** C3, evaluated where the code departs from it.  With DM and GM both
    fitted [nchan_min] is 3; on a subintegration with two valid channels
    the fallback is taken and sets [DM] and [GM] to [None], and the
    Doppler correction, which is guarded by [len(freqsx) > 1], then
    multiplies [None] by the Doppler factor: [TypeError], and nothing is
    recorded. *)
Theorem fit_subint_two_channels_raises
    (dm0 : option R) (fs ls fa : bool) (mth : string)
    (bnds b : option (list bound)) (nr nf : option (R * R)) (a : archive)
    (i : nat) (P0 ep f1 f2 e1 e2 df nu pg tg ag : R)
    (p1 p2 m1 m2 : list R) :
  let o := {| DM0 := dm0; bary_DM := true; fit_DM := true; fit_GM := true;
              fit_scat := fs; log10_tau := ls; fix_alpha := fa;
              method := mth; bounds := bnds; nu_refs := nr;
              nu_fits := nf |} in
  let s := {| isub := i; P := P0; epoch := ep; freqsx := [f1; f2];
              portx := [p1; p2]; modelx := [m1; m2]; errs := [e1; e2];
              doppler_factor := df; guess_fit_freq := nu; phi_guess := pg;
              tau_guess := tg; alpha_guess := ag |} in
  nchan_min (get_setup o) = 3%nat
  /\ (length (freqsx s) < nchan_min (get_setup o))%nat
  /\ fit_subint fit_portrait_full fit_phase_shift o a b s = Raise TypeError.
Proof.
  intros o s.
  assert (Hn : nchan_min (get_setup o) = 3%nat)
    by (rewrite nchan_min_value; simpl; destruct fs, fa; reflexivity).
  split; [exact Hn|]; split; [rewrite Hn; simpl; lia|].
  unfold fit_subint; cbv zeta; rewrite Hn; reflexivity.
Qed.

(** Without [fit_DM], and with [bounds] left at [None], the first archive
    that loads with a good subintegration stops the call. *)
Lemma get_TOAs_loop_no_bounds (o : options) (datafiles : list load_result)
    (TOA_list : list TOA) :
  fit_DM o = false ->
  (exists a, In (Loaded a) datafiles /\ ok_subints a <> []) ->
  get_TOAs_loop fit_portrait_full fit_phase_shift o datafiles None TOA_list
  = Raise TypeError.
Proof.
  intros Hfit [a [Hin Hok]].
  induction datafiles as [|f rest IH]; [contradiction Hin|].
  simpl; destruct f as [|a'].
  - apply IH; destruct Hin as [Heq|Hin]; [discriminate Heq | exact Hin].
  - destruct (ok_subints a') as [|s ss] eqn:Hs.
    + apply IH; destruct Hin as [Heq|Hin]; [|exact Hin].
      injection Heq as ->; contradiction Hok.
    + rewrite Hfit; reflexivity.
Qed.

(** C8, evaluated where the code departs from it.  [get_TOAs] called with
    [fit_DM=False] and [bounds] left at [None], on data files of which the
    first loads with at least one good subintegration, raises [TypeError]
    at [bounds[1] = (DM0, DM0)]: no fit is run and no TOA is recorded. *)
Theorem get_TOAs_fit_DM_false_raises
    (dm0 : option R) (bd fg fs ls fa : bool) (mth : string)
    (nr nf : option (R * R)) (dms bdl : R) (nb : nat) (s : subint)
    (ss : list subint) (rest : list load_result) :
  get_TOAs fit_portrait_full fit_phase_shift
    {| DM0 := dm0; bary_DM := bd; fit_DM := false; fit_GM := fg;
       fit_scat := fs; log10_tau := ls; fix_alpha := fa; method := mth;
       bounds := None; nu_refs := nr; nu_fits := nf |}
    (Loaded {| DM_stored := dms; nbin := nb; backend_delay := bdl;
               ok_subints := s :: ss |} :: rest)
  = Raise TypeError.
Proof.
  unfold get_TOAs; cbn [bounds].
  apply get_TOAs_loop_no_bounds; [reflexivity|].
  eexists; split; [left; reflexivity | discriminate].
Qed.

End DriverFacts.

(** ** [fit_portrait]: the transforms and the noise estimate *)

Lemma mapM_rfft_rows (a : list (list R)) :
  Forall (fun row => row <> []) a ->
  Py.mapM FFT.rfft a = Py.Return (FFT.rfft_rows a).
Proof.
  induction 1 as [|row a Hrow _ IH]; simpl; [reflexivity|].
  destruct row as [|r row]; [contradiction Hrow; reflexivity|].
  unfold FFT.rfft at 1; cbn [Py.bind]; rewrite IH; reflexivity.
Qed.

Lemma rfft_rows_length (a : list (list R)) :
  length (FFT.rfft_rows a) = length a.
Proof. apply length_map. Qed.

Lemma rfft_rows_uniform (a : list (list R)) (nbin : nat) :
  Forall (fun row => length row = nbin) a ->
  Forall (fun row => length row = (nbin / 2 + 1)%nat) (FFT.rfft_rows a).
Proof.
  intros H; unfold FFT.rfft_rows; apply Forall_map.
  eapply Forall_impl; [|exact H].
  intros row Hrow; simpl; rewrite length_map, length_seq, Hrow; reflexivity.
Qed.

Lemma slice_last_quarter {A : Type} (L : nat) (row : list A) :
  length row = L ->
  slice_from (Z.div (Z.opp (Z.of_nat L)) 4) row = Spec.last_quarter row.
Proof.
  intros Hl; unfold slice_from, Spec.last_quarter; rewrite Hl; f_equal.
  apply Nat2Z.inj.
  assert (Hq : ((L + 3) / 4 <= L)%nat).
  { destruct L as [|n]; [reflexivity|].
    apply Nat.Div0.div_le_upper_bound; lia. }
  rewrite Nat2Z.inj_sub by exact Hq.
  rewrite (Nat2Z.inj_div (L + 3) 4), Nat2Z.inj_add.
  change (Z.of_nat 3) with 3%Z; change (Z.of_nat 4) with 4%Z.
  destruct (Z.ltb_spec (Z.div (Z.opp (Z.of_nat L)) 4) 0) as [Hneg|Hpos];
    rewrite Z2Nat.id by (Z.to_euclidean_division_equations; lia);
    Z.to_euclidean_division_equations; lia.
Qed.

Lemma fold_right_Rplus_nonneg (l : list R) :
  Forall (fun x => 0 <= x) l -> 0 <= fold_right Rplus 0 l.
Proof.
  induction 1 as [|x l Hx _ IH]; simpl; lra.
Qed.

Lemma Rinv_nonneg (r : R) : 0 <= r -> 0 <= / r.
Proof.
  intros [Hpos|<-].
  - left; apply Rinv_0_lt_compat; exact Hpos.
  - rewrite Rinv_0; lra.
Qed.

Lemma variance_nonneg (a : list R) : 0 <= Spec.variance a.
Proof.
  unfold Spec.variance; cbv zeta; unfold Rdiv.
  apply Rmult_le_pos.
  - apply fold_right_Rplus_nonneg, Forall_map, Forall_forall.
    intros x _; exact (Rle_0_sqr _).
  - apply Rinv_nonneg, pos_INR.
Qed.

Lemma np_std_variance (a : list R) :
  pow_m2 (np_std a) = / Spec.variance a.
Proof.
  assert (Hv : np_mean (map (fun x => Rabs (x - np_mean a) ^ 2) a)
               = Spec.variance a).
  { unfold np_mean, Spec.variance; cbv zeta.
    rewrite !np_sum_fold_right, length_map; f_equal; f_equal.
    apply map_ext; intros x; rewrite pow2_abs; ring. }
  unfold pow_m2, np_std; cbv zeta; rewrite Hv.
  rewrite sqrt_sqrt by apply variance_nonneg; reflexivity.
Qed.

Lemma unnorm_errs_precisions (dFFT : list (list C)) (row0 : list C) :
  Forall (fun row => length row = length row0) dFFT ->
  unnorm_errs dFFT row0 = Spec.precisions dFFT.
Proof.
  intros H; unfold unnorm_errs, Spec.precisions; cbv zeta.
  apply map_ext_in; intros row Hin.
  rewrite Forall_forall in H.
  rewrite slice_last_quarter by (apply H; exact Hin).
  apply np_std_variance.
Qed.

(** ** C10: the noise estimate of [fit_portrait] *)



(** ** C9: [fit_portrait] after the optimizer has returned *)

Lemma RCSTRINGS_has_tnc_codes (rc : Z) :
  (-1 <= rc <= 7)%Z ->
  exists rcstring,
    dict_get RCSTRINGS (str_of_int rc) = Py.Return rcstring.
Proof.
  intros H.
  assert (Hc : (rc = -1 \/ rc = 0 \/ rc = 1 \/ rc = 2 \/ rc = 3 \/ rc = 4
                \/ rc = 5 \/ rc = 6 \/ rc = 7)%Z) by lia.
  destruct Hc as [->|[->|[->|[->|[->|[->|[->|[->| ->]]]]]]]];
    eexists; reflexivity.
Qed.

Lemma get_scales_returns (data model : list (list R)) (phase DM P : R)
    (freqs : list freq) (nu0 : freq) :
  Forall (fun row => row <> []) data ->
  model <> [] ->
  Forall (fun row => row <> []) model ->
  exists sc, get_scales data model phase DM P freqs nu0 = Py.Return sc.
Proof.
  intros Hd Hne Hm; unfold get_scales.
  rewrite (mapM_rfft_rows data Hd), (mapM_rfft_rows model Hm).
  cbn [Py.bind].
  destruct model as [|m0 ms]; [contradiction Hne; reflexivity|].
  simpl; eexists; reflexivity.
Qed.



(** ** C6: the shapes that the rotations return *)

Lemma rfft_returns (arr : list R) :
  arr <> [] ->
  FFT.rfft arr
  = Py.Return (map (FFT.rfft_coef arr) (seq 0 (length arr / 2 + 1))).
Proof.
  destruct arr; [intros H; contradiction H; reflexivity | reflexivity].
Qed.

Lemma irfft_returns (a : list C) (n : nat) :
  n <> 0%nat ->
  FFT.irfft a n = Py.Return (map (FFT.irfft_sample a n) (seq 0 n)).
Proof.
  destruct n; [intros H; contradiction H; reflexivity | reflexivity].
Qed.

(** [fft_rotate] keeps the length of a non-empty array. *)
Lemma fft_rotate_length (arr : list R) (bins : R) :
  arr <> [] ->
  exists out,
    fft_rotate arr bins = Py.Return out /\ length out = length arr.
Proof.
  intros Hne; unfold fft_rotate; cbv zeta.
  rewrite (rfft_returns arr Hne); cbn [Py.bind].
  rewrite irfft_returns
    by (destruct arr; [contradiction Hne; reflexivity | simpl; discriminate]).
  eexists; split; [reflexivity|].
  rewrite length_map, length_seq; reflexivity.
Qed.

Lemma mapM_rotate_row_phase_only (phase : R) (P : option R) (nu0 : freq)
    (X : list (list C)) (idx : list nat) :
  length idx = length X ->
  Py.mapM (fun nr => rotate_row phase None P None nu0 (fst nr) (snd nr))
    (combine idx X)
  = Py.Return (map (fun row => vmul row (phasor (length row) phase)) X).
Proof.
  revert idx; induction X as [|row X IH]; intros [|i idx] Hl;
    try discriminate Hl; [reflexivity|].
  cbn [combine Py.mapM fst snd rotate_row Py.bind map].
  rewrite IH by (simpl in Hl; lia); reflexivity.
Qed.

Lemma mapM_irfft_default (L : list (list C)) :
  Forall (fun a => (2 <= length a)%nat) L ->
  exists out,
    Py.mapM FFT.irfft_default L = Py.Return out
    /\ map (@length R) out = map (fun a => (2 * (length a - 1))%nat) L.
Proof.
  induction 1 as [|a L Ha _ [out [Hout Hlen]]].
  - exists []; split; reflexivity.
  - cbn [Py.mapM]; unfold FFT.irfft_default at 1.
    rewrite irfft_returns by lia.
    cbn [Py.bind]; rewrite Hout; cbn [Py.bind].
    eexists; split; [reflexivity|].
    cbn [map]; rewrite length_map, length_seq, Hlen; reflexivity.
Qed.

(** With [DM] and [freqs] left at [None], [rotate_portrait] returns rows
    of [2 * (nbin / 2)] bins: [nbin] for an even [nbin], one fewer for an
    odd one. *)
Lemma rotate_portrait_shape (port : list (list R)) (phase : R) (P : option R)
    (nu0 : freq) :
  Forall (fun row => (2 <= length row)%nat) port ->
  exists out,
    rotate_portrait port phase None P None nu0 = Py.Return out
    /\ map (@length R) out = map (fun row => (2 * (length row / 2))%nat) port.
Proof.
  intros H; unfold rotate_portrait.
  assert (Hne : Forall (fun row : list R => row <> []) port).
  { eapply Forall_impl; [|exact H].
    intros row Hl Heq; subst row; simpl in Hl; lia. }
  rewrite (mapM_rfft_rows port Hne); cbn [Py.bind].
  rewrite mapM_rotate_row_phase_only by apply length_seq.
  cbn [Py.bind].
  destruct (mapM_irfft_default
              (map (fun row => vmul row (phasor (length row) phase))
                 (FFT.rfft_rows port))) as [out [Hout Hlen]].
  - apply Forall_map; unfold FFT.rfft_rows; apply Forall_map.
    eapply Forall_impl; [|exact H].
    intros row Hrow; cbv beta in Hrow |- *.
    rewrite vmul_length, phasor_length, length_map, length_seq.
    assert (1 <= length row / 2)%nat by (apply Nat.div_le_lower_bound; lia).
    lia.
  - exists out; split; [exact Hout|].
    rewrite Hlen; unfold FFT.rfft_rows; rewrite !map_map.
    apply map_ext; intros row.
    rewrite vmul_length, phasor_length, length_map, length_seq; lia.
Qed.

(** C6, evaluated where the code departs from it.  A portrait of one
    channel and three bins comes back from [rotate_portrait], for every
    phase, with two bins: the inverse transform is called without the
    number of bins, which [fft_rotate] does pass. *)
Theorem rotate_portrait_three_bins (phase : R) :
  exists row,
    rotate_portrait [[1; 2; 3]] phase None None None inf_freq
    = Py.Return [row]
    /\ length row = 2%nat.
Proof.
  destruct (rotate_portrait_shape [[1; 2; 3]] phase None inf_freq)
    as [out [Hout Hlen]].
  - repeat constructor; simpl; lia.
  - destruct out as [|row [|row' out]]; try discriminate Hlen.
    exists row; split; [exact Hout|].
    simpl in Hlen; injection Hlen as Hlen; exact Hlen.
Qed.

(** ** Second derivatives *)

Lemma dpl_g1' (Dc Mc : list C) (delta : R -> R) (x delta' dd : R) :
  derivable_pt_lim delta x delta' ->
  derivable_pt_lim (fun y => Spec.g1' Dc Mc (delta y) dd) x
    (Spec.g1'' Dc Mc (delta x) dd delta').
Proof.
  intros H; unfold Spec.g1', Spec.g1''.
  eapply dpl_ext; [intros y; symmetry; apply Re_Csum|].
  eapply dpl_val; [symmetry; apply Re_Csum|].
  apply (dpl_Rsum (length Mc)
           (fun k y =>
              Re (Cmul (Cj (2 * PI * INR k * dd))
                    (Cmul (Cmul (nth k Dc Spec.czero)
                             (Cconj (nth k Mc Spec.czero)))
                       (Spec.shift k (delta y)))))).
  intros k _.
  eapply dpl_ext; [intros y; rewrite Cmul_assoc; reflexivity|].
  eapply dpl_val; [|apply dpl_shift_term; exact H].
  rewrite <- Cmul_assoc; reflexivity.
Qed.

Lemma dpl_weighted_products (n : nat) (G H : nat -> R -> R)
    (G' H' e p : nat -> R) (x : R) :
  (forall c, (c < n)%nat -> derivable_pt_lim (G c) x (G' c)) ->
  (forall c, (c < n)%nat -> derivable_pt_lim (H c) x (H' c)) ->
  derivable_pt_lim
    (fun y => Spec.Rsum n (fun c => - (e c / p c) * (2 * G c y * H c y))) x
    (Spec.Rsum n
       (fun c => - (e c / p c) * (2 * (G' c * H c x + G c x * H' c)))).
Proof.
  intros HG HH.
  apply (dpl_Rsum n (fun c y => - (e c / p c) * (2 * G c y * H c y))).
  intros c Hc.
  apply (dpl_ext (fun y => (- (e c / p c) * 2) * (G c y * H c y)));
    [intros y; ring|].
  eapply dpl_val;
    [| apply dpl_scal, dpl_mult; [apply HG | apply HH]; exact Hc].
  ring.
Qed.

(** The derivative with respect to the DM of the phase component of the
    gradient is the off-diagonal entry of the Hessian. *)
Lemma dpl_gradient_phase_DM (data model : list (list C)) (p errs : list R)
    (phase DM P : R) (freqs : list freq) (nu0 : freq) :
  derivable_pt_lim
    (fun y => Spec.gradient data model p errs phase y P freqs nu0
                Spec.dDelta_dphase) DM
    (Spec.hessian data model p errs phase DM P freqs nu0
       Spec.dDelta_dphase (Spec.dDelta_dDM P nu0)).
Proof.
  unfold Spec.gradient, Spec.hessian; cbv zeta.
  apply (dpl_weighted_products (length freqs)
           (fun c y => Spec.g1 (nth c data []) (nth c model [])
                         (Spec.Delta phase y P (nth c freqs inf_freq) nu0))
           (fun c y => Spec.g1' (nth c data []) (nth c model [])
                         (Spec.Delta phase y P (nth c freqs inf_freq) nu0)
                         (Spec.dDelta_dphase (nth c freqs inf_freq)))
           (fun c => Spec.g1' (nth c data []) (nth c model [])
                       (Spec.Delta phase DM P (nth c freqs inf_freq) nu0)
                       (Spec.dDelta_dDM P nu0 (nth c freqs inf_freq)))
           (fun c => Spec.g1'' (nth c data []) (nth c model [])
                       (Spec.Delta phase DM P (nth c freqs inf_freq) nu0)
                       (Spec.dDelta_dphase (nth c freqs inf_freq))
                       (Spec.dDelta_dDM P nu0 (nth c freqs inf_freq)))
           (fun c => nth c errs 0) (fun c => nth c p 0)).
  - intros c _.
    apply (dpl_g1 _ _
             (fun y => Spec.Delta phase y P (nth c freqs inf_freq) nu0)).
    apply dpl_Delta_DM.
  - intros c _.
    apply (dpl_g1' _ _
             (fun y => Spec.Delta phase y P (nth c freqs inf_freq) nu0)).
    apply dpl_Delta_DM.
Qed.

Lemma real_corr_sum_coef_index (g : R -> C) (h : nat -> C)
    (drow mrow : list C) (delta : R) :
  (forall k, g (INR k) = h k) ->
  length drow = length mrow ->
  real_corr_sum_coef (map g (arange (length mrow))) drow mrow
    (phasor (length mrow) delta)
  = Re (Spec.Csum (length mrow)
          (fun k => Cmul (h k)
                      (Cmul (Cmul (nth k drow Spec.czero)
                               (Cconj (nth k mrow Spec.czero)))
                         (Spec.shift k delta)))).
Proof.
  intros Hg Hl; unfold real_corr_sum_coef, Spec.Csum.
  rewrite np_sum_fold_right, <- Re_fold_right_Cadd; do 2 f_equal.
  apply map_seq_by_index.
  - rewrite !vmul_length, !length_map, arange_length, phasor_length; lia.
  - intros i Hi.
    rewrite vmul_nth
      by (rewrite ?vmul_length, ?length_map, ?arange_length,
            ?phasor_length; lia).
    rewrite vmul_nth
      by (rewrite ?vmul_length, ?length_map, ?arange_length; lia).
    rewrite vmul_nth by (rewrite ?length_map, ?arange_length; lia).
    rewrite phasor_nth, map_conj_nth, map_arange_nth, Hg by lia.
    apply C_eq; simpl; ring.
Qed.

Lemma fit_portrait_function_2deriv_sum (data model : list (list C))
    (p errs : list R) (d phase DM P : R) (freqs : list freq) (nu0 : freq) :
  (forall c, (c < length freqs)%nat ->
     length (nth c data []) = length (nth c model [])) ->
  fit_portrait_function_2deriv (phase, DM) model p data d errs (Some P)
    (Some freqs) nu0
  = Some (Spec.hessian data model p errs phase DM P freqs nu0
            Spec.dDelta_dphase Spec.dDelta_dphase,
          Spec.hessian data model p errs phase DM P freqs nu0
            (Spec.dDelta_dDM P nu0) (Spec.dDelta_dDM P nu0)).
Proof.
  intros Hrows.
  unfold fit_portrait_function_2deriv; cbv zeta; simpl fst; simpl snd.
  f_equal.
  erewrite deriv_fold by (intros a nn; unfold deriv2_step; reflexivity).
  rewrite !Rplus_0_l; unfold Spec.hessian.
  f_equal; apply Rsum_ext; intros c Hc; cbv zeta.
  - rewrite real_corr_sum_spec by (apply Hrows; exact Hc).
    unfold coef_phi, vsquare; rewrite map_map.
    rewrite (real_corr_sum_coef_spec _ 1)
      by (first [apply coef_phi_factor | apply Hrows; exact Hc]).
    rewrite (real_corr_sum_coef_index _
               (fun k => Cmul (Cj (2 * PI * INR k * 1))
                           (Cj (2 * PI * INR k * 1))))
      by (first [ intros k; rewrite coef_phi_factor; reflexivity
                | apply Hrows; exact Hc ]).
    rewrite chan_delay_spec; unfold Spec.g1'', Spec.dDelta_dphase, Rdiv.
    replace (Spec.Csum (length (nth c model []))
               (fun k => Cmul (Cmul (Cj (2 * PI * INR k * 1))
                                 (Cj (2 * PI * INR k * 1)))
                           (Cmul (Cmul (nth k (nth c data []) Spec.czero)
                                    (Cconj (nth k (nth c model []) Spec.czero)))
                              (Spec.shift k
                                 (Spec.Delta phase DM P
                                    (nth c freqs inf_freq) nu0)))))
      with (Spec.Csum (length (nth c model []))
              (fun k => Cmul (Cj (2 * PI * INR k * 1))
                          (Cmul (Cj (2 * PI * INR k * 1))
                             (Cmul (Cmul (nth k (nth c data []) Spec.czero)
                                      (Cconj (nth k (nth c model [])
                                                Spec.czero)))
                                (Spec.shift k
                                   (Spec.Delta phase DM P
                                      (nth c freqs inf_freq) nu0))))))
      by (unfold Spec.Csum; f_equal; apply map_ext; intros k;
          apply Cmul_assoc).
    ring.
  - rewrite real_corr_sum_spec by (apply Hrows; exact Hc).
    unfold coef_DM, vsquare; rewrite map_map.
    rewrite (real_corr_sum_coef_spec _
               (Spec.dDelta_dDM P nu0 (nth c freqs inf_freq)))
      by (first [apply coef_DM_factor | apply Hrows; exact Hc]).
    rewrite (real_corr_sum_coef_index _
               (fun k =>
                  Cmul (Cj (2 * PI * INR k
                            * Spec.dDelta_dDM P nu0 (nth c freqs inf_freq)))
                    (Cj (2 * PI * INR k
                         * Spec.dDelta_dDM P nu0 (nth c freqs inf_freq)))))
      by (first [ intros k; rewrite coef_DM_factor; reflexivity
                | apply Hrows; exact Hc ]).
    rewrite chan_delay_spec; unfold Spec.g1'', Rdiv.
    match goal with
    | |- context [Re (Spec.Csum ?n (fun k => Cmul (Cmul (@?a k) (@?b k)) (@?z k)))] =>
        replace (Spec.Csum n (fun k => Cmul (Cmul (a k) (b k)) (z k)))
          with (Spec.Csum n (fun k => Cmul (a k) (Cmul (b k) (z k))))
          by (unfold Spec.Csum; f_equal; apply map_ext; intros k;
              apply Cmul_assoc)
    end.
    ring.
Qed.

(** ** C4: the curvature behind the reported uncertainties *)

Lemma shift_at_0 (k : nat) : Spec.shift k 0 = mkC 1 0.
Proof.
  unfold Spec.shift, Cexp; simpl.
  replace (2 * PI * INR k * 0) with 0 by ring.
  rewrite exp_0, cos_0, sin_0; apply C_eq; simpl; ring.
Qed.

Lemma Delta_at_0 (P : R) (f nu0 : freq) : Spec.Delta 0 0 P f nu0 = 0.
Proof. unfold Spec.Delta, Rdiv; ring. Qed.

Lemma Dconst_pos : 0 < Dconst.
Proof.
  unfold Dconst, Dconst_trad; apply Rinv_0_lt_compat; lra.
Qed.

(** One channel whose only power is in the first harmonic, at zero
    delay. *)
Lemma g1_first_harmonic :
  Spec.g1 [mkC 0 0; mkC 1 0] [mkC 0 0; mkC 1 0] 0 = 1.
Proof.
  unfold Spec.g1, Spec.Csum; cbn [length seq map fold_right nth].
  rewrite !shift_at_0; simpl; ring.
Qed.

Lemma g1'_first_harmonic (dd : R) :
  Spec.g1' [mkC 0 0; mkC 1 0] [mkC 0 0; mkC 1 0] 0 dd = 0.
Proof.
  unfold Spec.g1', Spec.Csum; cbn [length seq map fold_right nth].
  rewrite !shift_at_0; simpl; ring.
Qed.

Lemma g1''_first_harmonic (dd1 dd2 : R) :
  Spec.g1'' [mkC 0 0; mkC 1 0] [mkC 0 0; mkC 1 0] 0 dd1 dd2
  = - (4 * PI ^ 2 * dd1 * dd2).
Proof.
  unfold Spec.g1'', Spec.Csum; cbn [length seq map fold_right nth].
  rewrite !shift_at_0; simpl; ring.
Qed.

Lemma hessian_two_channels (dd1 dd2 : freq -> R) :
  Spec.hessian [[mkC 0 0; mkC 1 0]; [mkC 0 0; mkC 1 0]]
    [[mkC 0 0; mkC 1 0]; [mkC 0 0; mkC 1 0]] [1; 1] [1; 1] 0 0 1
    [MHz 1; inf_freq] inf_freq dd1 dd2
  = 8 * PI ^ 2 * (dd1 (MHz 1) * dd2 (MHz 1) + dd1 inf_freq * dd2 inf_freq).
Proof.
  unfold Spec.hessian, Spec.Rsum; cbn [length seq map fold_right nth].
  rewrite !Delta_at_0, g1_first_harmonic, !g1'_first_harmonic,
    !g1''_first_harmonic.
  field.
Qed.

Lemma dDelta_dDM_MHz_1 : Spec.dDelta_dDM 1 inf_freq (MHz 1) = Dconst.
Proof. unfold Spec.dDelta_dDM; simpl; unfold pow_m2; field. Qed.

Lemma dDelta_dDM_inf : Spec.dDelta_dDM 1 inf_freq inf_freq = 0.
Proof. unfold Spec.dDelta_dDM; simpl; ring. Qed.

(** C4, evaluated where the code departs from it.  On two channels, both
    with all their power in the first harmonic, at frequencies 1 MHz and
    infinity, at [phase = DM = 0] with [P = 1]:
    [fit_portrait_function_2deriv] returns the two numbers
    [16 pi^2] and [8 pi^2 Dconst^2], from whose inverse square roots
    [fit_portrait] makes the uncertainties; the derivative with respect to
    the DM of the phase component of the gradient is [8 pi^2 Dconst],
    which is not zero and appears nowhere in them; and the phase variance
    [1 / (16 pi^2)] that the code reports is not the one of the inverse of
    the full 2x2 Hessian. *)
Theorem fit_portrait_function_2deriv_diagonal_only :
  let row := [mkC 0 0; mkC 1 0] in
  let data := [row; row] in
  let model := [row; row] in
  let freqs := [MHz 1; inf_freq] in
  let d2_phi := 16 * PI ^ 2 in
  let d2_DM := 8 * PI ^ 2 * Dconst ^ 2 in
  let d2_phi_DM := 8 * PI ^ 2 * Dconst in
  fit_portrait_function_2deriv (0, 0) model [1; 1] data 0 [1; 1] (Some 1)
    (Some freqs) inf_freq = Some (d2_phi, d2_DM)
  /\ derivable_pt_lim
       (fun DM =>
          match fit_portrait_function_deriv (0, DM) model [1; 1] data 0
                  [1; 1] (Some 1) (Some freqs) inf_freq with
          | Some g => fst g
          | None => 0
          end) 0 d2_phi_DM
  /\ d2_phi_DM <> 0
  /\ / d2_phi <> d2_DM / (d2_phi * d2_DM - d2_phi_DM ^ 2).
Proof.
  intros row data model freqs d2_phi d2_DM d2_phi_DM.
  assert (Hrows : forall c, (c < length freqs)%nat ->
                    length (nth c data []) = length (nth c model []))
    by (intros c _; reflexivity).
  pose proof PI_RGT_0 as Hpi.
  pose proof Dconst_pos as HD.
  assert (Hpi2 : 0 < PI ^ 2) by (apply pow_lt; exact Hpi).
  split; [|split; [|split]].
  - rewrite fit_portrait_function_2deriv_sum by exact Hrows.
    unfold data, model, row, freqs.
    rewrite !hessian_two_channels.
    unfold Spec.dDelta_dphase; rewrite dDelta_dDM_MHz_1, dDelta_dDM_inf.
    unfold d2_phi, d2_DM; do 2 f_equal; ring.
  - eapply dpl_ext.
    + intros DM.
      rewrite fit_portrait_function_deriv_sum by exact Hrows.
      reflexivity.
    + cbn [fst].
      eapply dpl_val; [|apply dpl_gradient_phase_DM].
      unfold data, model, row, freqs.
      rewrite hessian_two_channels.
      unfold Spec.dDelta_dphase; rewrite dDelta_dDM_MHz_1, dDelta_dDM_inf.
      unfold d2_phi_DM; ring.
  - unfold d2_phi_DM.
    apply Rgt_not_eq, Rmult_lt_0_compat; [lra | exact HD].
  - unfold d2_phi, d2_DM, d2_phi_DM.
    replace (8 * PI ^ 2 * Dconst ^ 2
             / (16 * PI ^ 2 * (8 * PI ^ 2 * Dconst ^ 2)
                - (8 * PI ^ 2 * Dconst) ^ 2))
      with (/ (8 * PI ^ 2)).
    2:{ field; split; [|apply Rgt_not_eq; exact Hpi].
        replace (16 * PI ^ 2 * (8 * PI ^ 2 * Dconst ^ 2)
                 - (8 * PI ^ 2 * Dconst) ^ 2)
          with (64 * (PI ^ 2 * PI ^ 2) * (Dconst * Dconst)) by ring.
        apply Rgt_not_eq, Rmult_lt_0_compat;
          [apply Rmult_lt_0_compat; [lra|]|];
          apply Rmult_lt_0_compat; assumption. }
    intros H; apply (f_equal Rinv) in H; rewrite !Rinv_inv in H; lra.
Qed.

(** ** Finite sums *)

Lemma Rsum_S (n : nat) (f : nat -> R) :
  Spec.Rsum (S n) f = Spec.Rsum n f + f n.
Proof.
  unfold Spec.Rsum; rewrite seq_S, map_app, fold_right_Rplus_app.
  simpl; ring.
Qed.

Lemma Rsum_0 (f : nat -> R) : Spec.Rsum 0 f = 0.
Proof. reflexivity. Qed.

Lemma Rsum_plus (n : nat) (f g : nat -> R) :
  Spec.Rsum n (fun k => f k + g k) = Spec.Rsum n f + Spec.Rsum n g.
Proof.
  induction n as [|n IH]; [rewrite !Rsum_0; ring|].
  rewrite !Rsum_S, IH; ring.
Qed.

Lemma Rsum_scal (n : nat) (c : R) (f : nat -> R) :
  Spec.Rsum n (fun k => c * f k) = c * Spec.Rsum n f.
Proof.
  induction n as [|n IH]; [rewrite !Rsum_0; ring|].
  rewrite !Rsum_S, IH; ring.
Qed.

Lemma Rsum_zero (n : nat) (f : nat -> R) :
  (forall k, (k < n)%nat -> f k = 0) -> Spec.Rsum n f = 0.
Proof.
  induction n as [|n IH]; intros H; [reflexivity|].
  rewrite Rsum_S, IH, H by (intros; try apply H; lia); ring.
Qed.

Lemma Rsum_const (n : nat) (c : R) : Spec.Rsum n (fun _ => c) = INR n * c.
Proof.
  induction n as [|n IH]; [rewrite Rsum_0; simpl; ring|].
  rewrite Rsum_S, IH, S_INR; ring.
Qed.

Lemma Rsum_swap (n m : nat) (f : nat -> nat -> R) :
  Spec.Rsum n (fun i => Spec.Rsum m (fun j => f i j))
  = Spec.Rsum m (fun j => Spec.Rsum n (fun i => f i j)).
Proof.
  induction n as [|n IH].
  - rewrite Rsum_0; symmetry; apply Rsum_zero; intros; apply Rsum_0.
  - rewrite Rsum_S, IH, <- Rsum_plus.
    apply Rsum_ext; intros j _; rewrite Rsum_S; reflexivity.
Qed.

(** A sum that picks one index. *)
Lemma Rsum_delta (n j : nat) (f : nat -> R) :
  (j < n)%nat ->
  Spec.Rsum n (fun k => if Nat.eqb k j then f k else 0) = f j.
Proof.
  induction n as [|n IH]; intros Hj; [lia|].
  rewrite Rsum_S.
  destruct (Nat.eqb_spec n j) as [->|Hne].
  - rewrite Rsum_zero; [ring|].
    intros k Hk; destruct (Nat.eqb_spec k j); [lia | reflexivity].
  - rewrite IH by lia; ring.
Qed.

(** ** Sums of cosines and sines over a full period *)

Lemma cos_shift_quarter (x : R) : cos (x - PI / 2) = sin x.
Proof. rewrite cos_minus, cos_PI2, sin_PI2; ring. Qed.

Lemma sin_diff (a b : R) : sin (a + b) - sin (a - b) = 2 * cos a * sin b.
Proof. rewrite sin_plus, sin_minus; ring. Qed.

(** The telescoping sum of a cosine along an arithmetic progression. *)
Lemma sum_cos_progression (n : nat) (alpha beta : R) :
  2 * sin (alpha / 2) * Spec.Rsum n (fun j => cos (alpha * INR j + beta))
  = sin (alpha * INR n - alpha / 2 + beta) - sin (beta - alpha / 2).
Proof.
  induction n as [|n IH].
  - rewrite Rsum_0; simpl.
    replace (alpha * 0 - alpha / 2 + beta) with (beta - alpha / 2) by ring.
    ring.
  - rewrite Rsum_S, Rmult_plus_distr_l, IH, S_INR.
    replace (alpha * (INR n + 1) - alpha / 2 + beta)
      with ((alpha * INR n + beta) + alpha / 2) by field.
    replace (alpha * INR n - alpha / 2 + beta)
      with ((alpha * INR n + beta) - alpha / 2) by ring.
    pose proof (sin_diff (alpha * INR n + beta) (alpha / 2)) as Hd.
    lra.
Qed.

Lemma sin_pos_fraction (m N : nat) :
  (0 < m < N)%nat -> 0 < sin (PI * INR m / INR N).
Proof.
  intros [Hm HN].
  assert (HmR : 0 < INR m) by (apply lt_0_INR; exact Hm).
  assert (HNR : 0 < INR N) by (apply lt_0_INR; lia).
  assert (HmN : INR m < INR N) by (apply lt_INR; exact HN).
  pose proof PI_RGT_0 as Hpi.
  assert (Hq : 0 < INR m / INR N < 1).
  { split.
    - apply Rdiv_lt_0_compat; assumption.
    - apply (Rmult_lt_reg_r (INR N)); [exact HNR|].
      unfold Rdiv; rewrite Rmult_assoc, Rinv_l by lra; lra. }
  apply sin_gt_0.
  - replace (PI * INR m / INR N) with (PI * (INR m / INR N))
      by (unfold Rdiv; ring).
    apply Rmult_lt_0_compat; lra.
  - replace (PI * INR m / INR N) with (PI * (INR m / INR N))
      by (unfold Rdiv; ring).
    rewrite <- (Rmult_1_r PI) at 2.
    apply Rmult_lt_compat_l; lra.
Qed.

(** Over a full period, a cosine of a non-zero harmonic sums to zero,
    whatever its phase. *)
Lemma sum_cos_period (m N : nat) (beta : R) :
  (0 < m < N)%nat ->
  Spec.Rsum N (fun j => cos (2 * PI * INR m * INR j / INR N + beta)) = 0.
Proof.
  intros Hm.
  assert (HNR : 0 < INR N) by (apply lt_0_INR; lia).
  pose proof (sin_pos_fraction m N Hm) as Hs.
  pose proof (sum_cos_progression N (2 * PI * INR m / INR N) beta) as H.
  replace (2 * PI * INR m / INR N / 2) with (PI * INR m / INR N) in H
    by (field; lra).
  replace (2 * PI * INR m / INR N * INR N - PI * INR m / INR N + beta)
    with ((beta - PI * INR m / INR N) + 2 * INR m * PI) in H
    by (field; lra).
  rewrite sin_period, Rminus_diag in H.
  assert (Hsum :
    Spec.Rsum N (fun j => cos (2 * PI * INR m / INR N * INR j + beta)) = 0).
  { apply (Rmult_eq_reg_l (2 * sin (PI * INR m / INR N))); [|lra].
    rewrite H; ring. }
  rewrite <- Hsum; apply Rsum_ext; intros j _; f_equal; field; lra.
Qed.

Lemma sum_sin_period (m N : nat) (beta : R) :
  (0 < m < N)%nat ->
  Spec.Rsum N (fun j => sin (2 * PI * INR m * INR j / INR N + beta)) = 0.
Proof.
  intros Hm.
  rewrite <- (sum_cos_period m N (beta - PI / 2) Hm).
  apply Rsum_ext; intros j _.
  rewrite <- cos_shift_quarter; f_equal; ring.
Qed.

(** ** Orthogonality of the harmonics on [N] samples *)

Lemma angle_0_l (n N : nat) : FFT.angle 0 n N = 0.
Proof. unfold FFT.angle, Rdiv; simpl; ring. Qed.

Lemma angle_add (l k n N : nat) :
  FFT.angle l n N + FFT.angle k n N = FFT.angle (l + k) n N.
Proof. unfold FFT.angle; rewrite plus_INR; unfold Rdiv; ring. Qed.

Lemma angle_sub (l k n N : nat) :
  (k <= l)%nat ->
  FFT.angle l n N - FFT.angle k n N = FFT.angle (l - k) n N.
Proof.
  intros H; unfold FFT.angle; rewrite minus_INR by exact H.
  unfold Rdiv; ring.
Qed.

Lemma sum_cos_harmonic (m N : nat) :
  (m < N)%nat ->
  Spec.Rsum N (fun n => cos (FFT.angle m n N))
  = if Nat.eqb m 0 then INR N else 0.
Proof.
  intros Hm; destruct (Nat.eqb_spec m 0) as [->|Hne].
  - rewrite (Rsum_ext N _ (fun _ => 1))
      by (intros n _; rewrite angle_0_l; apply cos_0).
    rewrite Rsum_const; ring.
  - rewrite <- (sum_cos_period m N 0) by lia.
    apply Rsum_ext; intros n _; unfold FFT.angle; f_equal; ring.
Qed.

Lemma sum_sin_harmonic (m N : nat) :
  (m < N)%nat -> Spec.Rsum N (fun n => sin (FFT.angle m n N)) = 0.
Proof.
  intros Hm; destruct (Nat.eq_dec m 0) as [->|Hne].
  - apply Rsum_zero; intros n _; rewrite angle_0_l; apply sin_0.
  - rewrite <- (sum_sin_period m N 0) by lia.
    apply Rsum_ext; intros n _; unfold FFT.angle; f_equal; ring.
Qed.

Lemma sum_cos_angle_diff (l k N : nat) :
  (l < N)%nat -> (k < N)%nat ->
  Spec.Rsum N (fun n => cos (FFT.angle l n N - FFT.angle k n N))
  = if Nat.eqb l k then INR N else 0.
Proof.
  intros Hl Hk; destruct (Nat.le_gt_cases k l) as [Hle|Hgt].
  - rewrite (Rsum_ext N _ (fun n => cos (FFT.angle (l - k) n N)))
      by (intros n _; rewrite angle_sub by exact Hle; reflexivity).
    rewrite sum_cos_harmonic by lia.
    destruct (Nat.eqb_spec (l - k) 0), (Nat.eqb_spec l k);
      try reflexivity; lia.
  - rewrite (Rsum_ext N _ (fun n => cos (FFT.angle (k - l) n N))).
    + rewrite sum_cos_harmonic by lia.
      destruct (Nat.eqb_spec (k - l) 0), (Nat.eqb_spec l k);
        try reflexivity; lia.
    + intros n _; rewrite <- angle_sub by lia.
      rewrite <- cos_neg; f_equal; ring.
Qed.

Lemma sum_sin_angle_diff (l k N : nat) :
  (l < N)%nat -> (k < N)%nat ->
  Spec.Rsum N (fun n => sin (FFT.angle l n N - FFT.angle k n N)) = 0.
Proof.
  intros Hl Hk; destruct (Nat.le_gt_cases k l) as [Hle|Hgt].
  - rewrite (Rsum_ext N _ (fun n => sin (FFT.angle (l - k) n N)))
      by (intros n _; rewrite angle_sub by exact Hle; reflexivity).
    apply sum_sin_harmonic; lia.
  - rewrite (Rsum_ext N _ (fun n => -1 * sin (FFT.angle (k - l) n N))).
    + rewrite Rsum_scal, sum_sin_harmonic by lia; ring.
    + intros n _; rewrite <- angle_sub by lia.
      replace (FFT.angle l n N - FFT.angle k n N)
        with (- (FFT.angle k n N - FFT.angle l n N)) by ring.
      rewrite sin_neg; ring.
Qed.

Lemma sum_cos_angle_add (l k N : nat) :
  (l + k < N)%nat ->
  Spec.Rsum N (fun n => cos (FFT.angle l n N + FFT.angle k n N))
  = if Nat.eqb (l + k) 0 then INR N else 0.
Proof.
  intros H.
  rewrite (Rsum_ext N _ (fun n => cos (FFT.angle (l + k) n N)))
    by (intros n _; rewrite angle_add; reflexivity).
  apply sum_cos_harmonic; exact H.
Qed.

Lemma sum_sin_angle_add (l k N : nat) :
  (l + k < N)%nat ->
  Spec.Rsum N (fun n => sin (FFT.angle l n N + FFT.angle k n N)) = 0.
Proof.
  intros H.
  rewrite (Rsum_ext N _ (fun n => sin (FFT.angle (l + k) n N)))
    by (intros n _; rewrite angle_add; reflexivity).
  apply sum_sin_harmonic; exact H.
Qed.

(** The four products, for a harmonic [l >= 1] against a harmonic [k]
    with [l + k < N]. *)
Lemma sum_cos_cos (l k N : nat) :
  (0 < l)%nat -> (l + k < N)%nat ->
  Spec.Rsum N (fun n => 2 * (cos (FFT.angle l n N) * cos (FFT.angle k n N)))
  = if Nat.eqb l k then INR N else 0.
Proof.
  intros Hl H.
  rewrite (Rsum_ext N _
             (fun n => cos (FFT.angle l n N + FFT.angle k n N)
                       + cos (FFT.angle l n N - FFT.angle k n N)))
    by (intros n _; rewrite cos_plus, cos_minus; ring).
  rewrite Rsum_plus, sum_cos_angle_add, sum_cos_angle_diff by lia.
  destruct (Nat.eqb_spec (l + k) 0); [lia | ring].
Qed.

Lemma sum_sin_sin (l k N : nat) :
  (0 < l)%nat -> (l + k < N)%nat ->
  Spec.Rsum N (fun n => 2 * (sin (FFT.angle l n N) * sin (FFT.angle k n N)))
  = if Nat.eqb l k then INR N else 0.
Proof.
  intros Hl H.
  rewrite (Rsum_ext N _
             (fun n => cos (FFT.angle l n N - FFT.angle k n N)
                       + -1 * cos (FFT.angle l n N + FFT.angle k n N)))
    by (intros n _; rewrite cos_plus, cos_minus; ring).
  rewrite Rsum_plus, Rsum_scal, sum_cos_angle_add, sum_cos_angle_diff by lia.
  destruct (Nat.eqb_spec (l + k) 0); [lia | ring].
Qed.

Lemma sum_sin_cos (l k N : nat) :
  (l + k < N)%nat ->
  Spec.Rsum N (fun n => 2 * (sin (FFT.angle l n N) * cos (FFT.angle k n N)))
  = 0.
Proof.
  intros H.
  rewrite (Rsum_ext N _
             (fun n => sin (FFT.angle l n N + FFT.angle k n N)
                       + sin (FFT.angle l n N - FFT.angle k n N)))
    by (intros n _; rewrite sin_plus, sin_minus; ring).
  rewrite Rsum_plus, sum_sin_angle_add, sum_sin_angle_diff by lia; ring.
Qed.

Lemma sum_cos_sin (l k N : nat) :
  (l + k < N)%nat ->
  Spec.Rsum N (fun n => 2 * (cos (FFT.angle l n N) * sin (FFT.angle k n N)))
  = 0.
Proof.
  intros H.
  rewrite <- (sum_sin_cos k l N) by lia.
  apply Rsum_ext; intros n _; ring.
Qed.

(** ** The transform of a synthesised signal *)

Lemma half_sum (N : nat) :
  (0 < N)%nat -> ((N - 1) / 2 + N / 2 = N - 1)%nat.
Proof.
  intros HN.
  pose proof (Nat.div_mod_eq N 2) as H1.
  pose proof (Nat.div_mod_eq (N - 1) 2) as H2.
  pose proof (Nat.mod_upper_bound N 2) as H3.
  pose proof (Nat.mod_upper_bound (N - 1) 2) as H4.
  lia.
Qed.

Lemma Rsum_scal_r (n : nat) (c : R) (f : nat -> R) :
  Spec.Rsum n (fun k => f k * c) = Spec.Rsum n f * c.
Proof.
  rewrite (Rsum_ext n _ (fun k => c * f k)) by (intros; ring).
  rewrite Rsum_scal; ring.
Qed.

(** A sum that picks the index [k - 1], if there is one. *)
Lemma Rsum_pick (H k : nat) (f : nat -> R) :
  Spec.Rsum H (fun i => if Nat.eqb (S i) k then f i else 0)
  = if Nat.eqb k 0 then 0 else if Nat.leb k H then f (k - 1)%nat else 0.
Proof.
  destruct (Nat.eqb_spec k 0) as [->|Hk].
  - apply Rsum_zero; intros i _; reflexivity.
  - destruct (Nat.leb_spec k H) as [Hle|Hgt].
    + rewrite <- (Rsum_delta H (k - 1) f) by lia.
      apply Rsum_ext; intros i _.
      destruct (Nat.eqb_spec (S i) k), (Nat.eqb_spec i (k - 1));
        try reflexivity; lia.
    + apply Rsum_zero; intros i Hi.
      destruct (Nat.eqb_spec (S i) k); [lia | reflexivity].
Qed.

Section Synthesis.

Variable N : nat.
Hypothesis N_pos : (0 < N)%nat.

(** The real and imaginary parts of the harmonics [1 .. H]. *)
Variables re_part im_part : nat -> R.
Variable A0 : R.

Let H : nat := ((N - 1) / 2)%nat.

(** A signal synthesised from the mean [A0] and [H] harmonics, times
    [N]. *)
Let synth (n : nat) : R :=
  A0 + Spec.Rsum H
         (fun i => 2 * (re_part i * cos (FFT.angle (S i) n N)
                        - im_part i * sin (FFT.angle (S i) n N))).

Lemma synth_against_cos (k : nat) :
  (k <= N / 2)%nat ->
  Spec.Rsum N (fun n => synth n * cos (FFT.angle k n N))
  = INR N * (if Nat.eqb k 0 then A0
             else if Nat.leb k H then re_part (k - 1)%nat else 0).
Proof.
  intros Hk.
  pose proof (half_sum N N_pos) as Hh; fold H in Hh.
  unfold synth.
  rewrite (Rsum_ext N _
             (fun n => A0 * cos (FFT.angle k n N)
                       + Spec.Rsum H
                           (fun i =>
                              re_part i
                              * (2 * (cos (FFT.angle (S i) n N)
                                      * cos (FFT.angle k n N)))
                              + - im_part i
                                * (2 * (sin (FFT.angle (S i) n N)
                                        * cos (FFT.angle k n N)))))).
  2:{ intros n _; rewrite Rmult_plus_distr_r, <- Rsum_scal_r.
      f_equal; apply Rsum_ext; intros i _; ring. }
  rewrite Rsum_plus, Rsum_scal, sum_cos_harmonic by lia.
  rewrite Rsum_swap.
  rewrite (Rsum_ext H _
             (fun i => if Nat.eqb (S i) k then INR N * re_part i else 0)).
  2:{ intros i Hi.
      rewrite Rsum_plus, (Rsum_scal N (re_part i)),
        (Rsum_scal N (- im_part i)), sum_cos_cos, sum_sin_cos by lia.
      destruct (Nat.eqb (S i) k); ring. }
  rewrite (Rsum_pick H k (fun i => INR N * re_part i)).
  destruct (Nat.eqb k 0); [ring|].
  destruct (Nat.leb k H); ring.
Qed.

Lemma synth_against_sin (k : nat) :
  (k <= N / 2)%nat ->
  Spec.Rsum N (fun n => synth n * sin (FFT.angle k n N))
  = INR N * (if Nat.eqb k 0 then 0
             else if Nat.leb k H then - im_part (k - 1)%nat else 0).
Proof.
  intros Hk.
  pose proof (half_sum N N_pos) as Hh; fold H in Hh.
  unfold synth.
  rewrite (Rsum_ext N _
             (fun n => A0 * sin (FFT.angle k n N)
                       + Spec.Rsum H
                           (fun i =>
                              re_part i
                              * (2 * (cos (FFT.angle (S i) n N)
                                      * sin (FFT.angle k n N)))
                              + - im_part i
                                * (2 * (sin (FFT.angle (S i) n N)
                                        * sin (FFT.angle k n N)))))).
  2:{ intros n _; rewrite Rmult_plus_distr_r, <- Rsum_scal_r.
      f_equal; apply Rsum_ext; intros i _; ring. }
  rewrite Rsum_plus, Rsum_scal, sum_sin_harmonic by lia.
  rewrite Rsum_swap.
  rewrite (Rsum_ext H _
             (fun i => if Nat.eqb (S i) k then INR N * - im_part i else 0)).
  2:{ intros i Hi.
      rewrite Rsum_plus, (Rsum_scal N (re_part i)),
        (Rsum_scal N (- im_part i)), sum_cos_sin, sum_sin_sin by lia.
      destruct (Nat.eqb (S i) k); ring. }
  rewrite (Rsum_pick H k (fun i => INR N * - im_part i)).
  destruct (Nat.eqb k 0); [ring|].
  destruct (Nat.leb k H); ring.
Qed.

End Synthesis.

(** ** The kernel of synthesis after analysis *)

Lemma sin_nat_PI (n : nat) : sin (PI * INR n) = 0.
Proof.
  induction n as [|n IH].
  - simpl; rewrite Rmult_0_r; apply sin_0.
  - rewrite S_INR, Rmult_plus_distr_l, Rmult_1_r, neg_sin, IH; ring.
Qed.

Lemma cos_nat_PI_sqr (n : nat) : cos (PI * INR n) * cos (PI * INR n) = 1.
Proof.
  pose proof (sin2_cos2 (PI * INR n)) as H.
  unfold Rsqr in H; rewrite sin_nat_PI in H; lra.
Qed.

Lemma sin_int_PI (j n : nat) : sin (PI * (INR j - INR n)) = 0.
Proof.
  rewrite Rmult_minus_distr_l, sin_minus, !sin_nat_PI; ring.
Qed.

Lemma cos_int_PI (j n : nat) :
  cos (PI * (INR j - INR n)) = cos (PI * INR n) * cos (PI * INR j).
Proof.
  rewrite Rmult_minus_distr_l, cos_minus, !sin_nat_PI; ring.
Qed.

Lemma sin_half_turn_fraction (j n N : nat) :
  (j < N)%nat -> (n < N)%nat -> j <> n ->
  sin (PI * (INR j - INR n) / INR N) <> 0.
Proof.
  intros Hj Hn Hne.
  destruct (Nat.lt_ge_cases n j) as [Hlt|Hge].
  - apply Rgt_not_eq.
    replace (INR j - INR n) with (INR (j - n))
      by (rewrite minus_INR by lia; reflexivity).
    apply sin_pos_fraction; lia.
  - apply Rlt_not_eq.
    replace (PI * (INR j - INR n) / INR N)
      with (- (PI * INR (n - j) / INR N))
      by (rewrite minus_INR by lia; unfold Rdiv; ring).
    rewrite sin_neg.
    assert (0 < sin (PI * INR (n - j) / INR N))
      by (apply sin_pos_fraction; lia).
    lra.
Qed.

Lemma parity_half (N : nat) :
  (0 < N)%nat ->
  if Nat.even N then (2 * ((N - 1) / 2) + 2 = N)%nat /\ (2 * (N / 2) = N)%nat
  else (2 * ((N - 1) / 2) + 1 = N)%nat.
Proof.
  intros HN.
  pose proof (Nat.div_mod_eq N 2) as H1.
  pose proof (Nat.div_mod_eq (N - 1) 2) as H2.
  pose proof (Nat.mod_upper_bound N 2) as H3.
  pose proof (Nat.mod_upper_bound (N - 1) 2) as H4.
  destruct (Nat.even N) eqn:He.
  - apply Nat.even_spec in He; destruct He as [c Hc].
    assert (N mod 2 = 0)%nat
      by (subst N; rewrite Nat.mul_comm; apply Nat.Div0.mod_mul).
    lia.
  - assert (Ho : Nat.odd N = true)
      by (rewrite <- Nat.negb_even, He; reflexivity).
    apply Nat.odd_spec in Ho; destruct Ho as [c Hc].
    assert (N mod 2 = 1)%nat.
    { subst N; rewrite Nat.add_comm, Nat.mul_comm, Nat.Div0.mod_add.
      reflexivity. }
    lia.
Qed.

(** [1 + 2 sum_(l=1..H) cos (l tau)], through the telescoping sum. *)
Lemma dirichlet_kernel (H : nat) (tau : R) :
  sin (tau / 2)
  * (1 + Spec.Rsum H (fun i => 2 * cos (tau * INR (S i))))
  = sin (tau * (INR H + 1 / 2)).
Proof.
  pose proof (sum_cos_progression H tau tau) as Hs.
  rewrite (Rsum_ext H _ (fun i => 2 * cos (tau * INR i + tau)))
    by (intros i _; rewrite S_INR; do 2 f_equal; ring).
  rewrite Rsum_scal.
  replace (tau * INR H - tau / 2 + tau) with (tau * (INR H + 1 / 2)) in Hs
    by field.
  replace (tau - tau / 2) with (tau / 2) in Hs by field.
  lra.
Qed.

(** The kernel: synthesis after analysis reads sample [j] alone. *)
Lemma synthesis_kernel (N j n : nat) :
  (j < N)%nat -> (n < N)%nat ->
  1 + Spec.Rsum ((N - 1) / 2)
        (fun i => 2 * cos (FFT.angle (S i) j N - FFT.angle (S i) n N))
  + (if Nat.even N then cos (FFT.angle (N / 2) n N) * cos (PI * INR j)
     else 0)
  = if Nat.eqb n j then INR N else 0.
Proof.
  intros Hj Hn.
  assert (HN : (0 < N)%nat) by lia.
  assert (HNR : 0 < INR N) by (apply lt_0_INR; exact HN).
  pose proof (parity_half N HN) as Hpar.
  set (Hh := ((N - 1) / 2)%nat) in *.
  assert (Hnyq : Nat.even N = true ->
                 FFT.angle (N / 2) n N = PI * INR n).
  { intros He; rewrite He in Hpar; destruct Hpar as [_ Hhalf].
    unfold FFT.angle.
    apply (f_equal INR) in Hhalf; rewrite mult_INR in Hhalf.
    change (INR 2) with (1 + 1) in Hhalf.
    field_simplify_eq; [|lra].
    rewrite <- Hhalf; ring. }
  destruct (Nat.eqb_spec n j) as [->|Hne].
  - rewrite (Rsum_ext Hh _ (fun _ => 2))
      by (intros i _; rewrite Rminus_diag, cos_0; ring).
    rewrite Rsum_const.
    destruct (Nat.even N) eqn:He.
    + rewrite Hnyq by reflexivity; rewrite cos_nat_PI_sqr.
      destruct Hpar as [Hpar _].
      apply (f_equal INR) in Hpar.
      rewrite plus_INR, mult_INR in Hpar; simpl in Hpar; lra.
    + apply (f_equal INR) in Hpar.
      rewrite plus_INR, mult_INR in Hpar; simpl in Hpar; lra.
  - set (tau := 2 * PI * (INR j - INR n) / INR N).
    assert (Hs : sin (tau / 2) <> 0).
    { unfold tau.
      replace (2 * PI * (INR j - INR n) / INR N / 2)
        with (PI * (INR j - INR n) / INR N) by (field; lra).
      apply sin_half_turn_fraction; auto. }
    rewrite (Rsum_ext Hh _ (fun i => 2 * cos (tau * INR (S i)))).
    2:{ intros i _; unfold FFT.angle, tau; do 2 f_equal; field; lra. }
    apply (Rmult_eq_reg_l (sin (tau / 2))); [|exact Hs].
    rewrite Rmult_0_r, Rmult_plus_distr_l, dirichlet_kernel.
    destruct (Nat.even N) eqn:He.
    + rewrite Hnyq by reflexivity.
      destruct Hpar as [Hpar _].
      apply (f_equal INR) in Hpar.
      rewrite plus_INR, mult_INR in Hpar; simpl in Hpar.
      replace (tau * (INR Hh + 1 / 2))
        with (PI * (INR j - INR n) - tau / 2)
        by (unfold tau; field_simplify_eq; [|lra];
            rewrite <- Hpar; ring).
      rewrite sin_minus, sin_int_PI, cos_int_PI; ring.
    + apply (f_equal INR) in Hpar.
      rewrite plus_INR, mult_INR in Hpar; simpl in Hpar.
      replace (tau * (INR Hh + 1 / 2)) with (PI * (INR j - INR n))
        by (unfold tau; field_simplify_eq; [|lra];
            rewrite <- Hpar; ring).
      rewrite sin_int_PI; ring.
Qed.

(** ** The coefficients of [rfft], in real terms *)

Lemma cis_val (t : R) : FFT.cis t = mkC (cos t) (sin t).
Proof.
  unfold FFT.cis, Cexp; simpl; rewrite exp_0; apply C_eq; simpl; ring.
Qed.

Lemma Im_fold_right_Cadd (l : list C) :
  Im (fold_right Cadd (RtoC 0) l) = fold_right Rplus 0 (map Im l).
Proof.
  induction l as [|z l IH]; simpl; [reflexivity|].
  rewrite IH; reflexivity.
Qed.

Lemma Im_Csum (n : nat) (f : nat -> C) :
  Im (Spec.Csum n f) = Spec.Rsum n (fun k => Im (f k)).
Proof.
  unfold Spec.Csum, Spec.Rsum.
  rewrite Im_fold_right_Cadd, map_map; reflexivity.
Qed.

Lemma rfft_coef_Re (x : list R) (k : nat) :
  Re (FFT.rfft_coef x k)
  = Spec.Rsum (length x)
      (fun n => nth n x 0 * cos (FFT.angle k n (length x))).
Proof.
  unfold FFT.rfft_coef; rewrite Re_Csum.
  apply Rsum_ext; intros n _.
  rewrite cis_val; simpl; rewrite cos_neg; ring.
Qed.

Lemma rfft_coef_Im (x : list R) (k : nat) :
  Im (FFT.rfft_coef x k)
  = - Spec.Rsum (length x)
        (fun n => nth n x 0 * sin (FFT.angle k n (length x))).
Proof.
  unfold FFT.rfft_coef; rewrite Im_Csum, <- Rsum_opp.
  apply Rsum_ext; intros n _.
  rewrite cis_val; simpl; rewrite sin_neg; ring.
Qed.

Lemma Re_rfft_coef_cis (x : list R) (k : nat) (t : R) :
  Re (Cmul (FFT.rfft_coef x k) (FFT.cis t))
  = Spec.Rsum (length x)
      (fun n => nth n x 0 * cos (t - FFT.angle k n (length x))).
Proof.
  rewrite cis_val; simpl; rewrite rfft_coef_Re, rfft_coef_Im.
  rewrite (Rsum_ext (length x)
             (fun n => nth n x 0 * cos (t - FFT.angle k n (length x)))
             (fun n => nth n x 0 * cos (FFT.angle k n (length x)) * cos t
                       + nth n x 0 * sin (FFT.angle k n (length x)) * sin t))
    by (intros n _; rewrite cos_minus; ring).
  rewrite Rsum_plus, !Rsum_scal_r; ring.
Qed.

(** ** Synthesis after analysis: [irfft] of the coefficients of [rfft] *)

Lemma irfft_sample_of_transform (x : list R) (a : list C) (j : nat) :
  (j < length x)%nat ->
  Re (nth 0 a Spec.czero) = Re (FFT.rfft_coef x 0) ->
  (forall i, (i < (length x - 1) / 2)%nat ->
     nth (S i) a Spec.czero = FFT.rfft_coef x (S i)) ->
  (Nat.even (length x) = true ->
   Re (nth (length x / 2) a Spec.czero)
   = Re (FFT.rfft_coef x (length x / 2))) ->
  FFT.irfft_sample a (length x) j = nth j x 0.
Proof.
  intros Hj H0 Hmid Hnyq.
  set (N := length x) in *.
  assert (HNR : 0 < INR N) by (apply lt_0_INR; lia).
  unfold FFT.irfft_sample.
  apply (Rmult_eq_reg_r (INR N)); [|lra].
  unfold Rdiv; rewrite Rmult_assoc, Rinv_l, Rmult_1_r by lra.
  transitivity
    (Spec.Rsum N
       (fun n => nth n x 0
                 * (1 + Spec.Rsum ((N - 1) / 2)
                          (fun i => 2 * cos (FFT.angle (S i) j N
                                             - FFT.angle (S i) n N))
                    + (if Nat.even N
                       then cos (FFT.angle (N / 2) n N) * cos (PI * INR j)
                       else 0)))).
  - rewrite (Rsum_ext N _
               (fun n =>
                  nth n x 0
                  + Spec.Rsum ((N - 1) / 2)
                      (fun i => 2 * (nth n x 0
                                     * cos (FFT.angle (S i) j N
                                            - FFT.angle (S i) n N)))
                  + nth n x 0
                    * (if Nat.even N
                       then cos (FFT.angle (N / 2) n N) * cos (PI * INR j)
                       else 0))).
    2:{ intros n _; rewrite !Rmult_plus_distr_l, Rmult_1_r, <- Rsum_scal.
        do 2 f_equal; apply Rsum_ext; intros i _; ring. }
    rewrite !Rsum_plus, Rsum_swap.
    f_equal; [f_equal|].
    + rewrite H0, rfft_coef_Re; fold N.
      apply Rsum_ext; intros n _; rewrite angle_0_l, cos_0; ring.
    + apply Rsum_ext; intros i Hi.
      rewrite Hmid by exact Hi.
      rewrite Re_rfft_coef_cis, Rsum_scal; reflexivity.
    + destruct (Nat.even N) eqn:He.
      * rewrite Hnyq by reflexivity.
        rewrite rfft_coef_Re; fold N; rewrite <- Rsum_scal_r.
        apply Rsum_ext; intros n _; ring.
      * symmetry; apply Rsum_zero; intros n _; ring.
  - rewrite (Rsum_ext N _
               (fun n => if Nat.eqb n j then nth n x 0 * INR N else 0)).
    + apply Rsum_delta; exact Hj.
    + intros n Hn; rewrite synthesis_kernel by assumption.
      destruct (Nat.eqb n j); ring.
Qed.

(** ** Analysis after synthesis: [rfft] of the output of [irfft] *)

Lemma nth_map_seq {A : Type} (f : nat -> A) (n i : nat) (d : A) :
  (i < n)%nat -> nth i (map f (seq 0 n)) d = f i.
Proof.
  intros Hi.
  rewrite (nth_indep _ d (f 0%nat)) by (rewrite length_map, length_seq; lia).
  rewrite map_nth, seq_nth by lia; reflexivity.
Qed.

Lemma irfft_sample_real (a : list C) (N n : nat) :
  (Nat.even N = true -> Re (nth (N / 2) a Spec.czero) = 0) ->
  FFT.irfft_sample a N n
  = (Re (nth 0 a Spec.czero)
     + Spec.Rsum ((N - 1) / 2)
         (fun i => 2 * (Re (nth (S i) a Spec.czero)
                        * cos (FFT.angle (S i) n N)
                        - Im (nth (S i) a Spec.czero)
                          * sin (FFT.angle (S i) n N))))
    / INR N.
Proof.
  intros Hnyq; unfold FFT.irfft_sample.
  replace (if Nat.even N
           then Re (nth (N / 2) a Spec.czero) * cos (PI * INR n)
           else 0) with 0
    by (destruct (Nat.even N); [rewrite Hnyq by reflexivity; ring
                               | reflexivity]).
  rewrite Rplus_0_r; do 2 f_equal.
  apply Rsum_ext; intros i _; rewrite cis_val; reflexivity.
Qed.

Lemma rfft_coef_of_synthesis (a : list C) (N k : nat) :
  (0 < N)%nat -> (k <= N / 2)%nat ->
  (Nat.even N = true -> Re (nth (N / 2) a Spec.czero) = 0) ->
  FFT.rfft_coef (map (FFT.irfft_sample a N) (seq 0 N)) k
  = if Nat.eqb k 0 then RtoC (Re (nth 0 a Spec.czero))
    else if Nat.leb k ((N - 1) / 2) then nth k a Spec.czero
    else Spec.czero.
Proof.
  intros HN Hk Hnyq.
  assert (HNR : 0 < INR N) by (apply lt_0_INR; exact HN).
  assert (Hlen : length (map (FFT.irfft_sample a N) (seq 0 N)) = N)
    by (rewrite length_map, length_seq; reflexivity).
  pose proof (synth_against_cos N HN
                (fun i => Re (nth (S i) a Spec.czero))
                (fun i => Im (nth (S i) a Spec.czero))
                (Re (nth 0 a Spec.czero)) k Hk) as Hc.
  pose proof (synth_against_sin N HN
                (fun i => Re (nth (S i) a Spec.czero))
                (fun i => Im (nth (S i) a Spec.czero))
                (Re (nth 0 a Spec.czero)) k Hk) as Hs.
  cbv beta in Hc, Hs.
  apply C_eq.
  - rewrite rfft_coef_Re, Hlen.
    rewrite (Rsum_ext N _
               (fun n =>
                  / INR N
                  * ((Re (nth 0 a Spec.czero)
                      + Spec.Rsum ((N - 1) / 2)
                          (fun i =>
                             2 * (Re (nth (S i) a Spec.czero)
                                  * cos (FFT.angle (S i) n N)
                                  - Im (nth (S i) a Spec.czero)
                                    * sin (FFT.angle (S i) n N))))
                     * cos (FFT.angle k n N)))).
    2:{ intros n Hn; rewrite nth_map_seq by exact Hn.
        rewrite irfft_sample_real by exact Hnyq.
        unfold Rdiv; ring. }
    rewrite Rsum_scal, Hc.
    destruct (Nat.eqb_spec k 0) as [->|Hk0]; [simpl; field; lra|].
    destruct (Nat.leb_spec k ((N - 1) / 2)) as [Hle|Hgt].
    + replace (S (k - 1)) with k by lia; field; lra.
    + simpl; field; lra.
  - rewrite rfft_coef_Im, Hlen.
    rewrite (Rsum_ext N _
               (fun n =>
                  / INR N
                  * ((Re (nth 0 a Spec.czero)
                      + Spec.Rsum ((N - 1) / 2)
                          (fun i =>
                             2 * (Re (nth (S i) a Spec.czero)
                                  * cos (FFT.angle (S i) n N)
                                  - Im (nth (S i) a Spec.czero)
                                    * sin (FFT.angle (S i) n N))))
                     * sin (FFT.angle k n N)))).
    2:{ intros n Hn; rewrite nth_map_seq by exact Hn.
        rewrite irfft_sample_real by exact Hnyq.
        unfold Rdiv; ring. }
    rewrite Rsum_scal, Hs.
    destruct (Nat.eqb_spec k 0) as [->|Hk0]; [simpl; field; lra|].
    destruct (Nat.leb_spec k ((N - 1) / 2)) as [Hle|Hgt].
    + replace (S (k - 1)) with k by lia; field; lra.
    + simpl; field; lra.
Qed.

(** ** Rotation and counter-rotation of the harmonics *)

Lemma cos_nat_PI (n : nat) : cos (PI * INR n) = (-1) ^ n.
Proof.
  induction n as [|n IH].
  - simpl; rewrite Rmult_0_r; apply cos_0.
  - rewrite S_INR, Rmult_plus_distr_l, Rmult_1_r, neg_cos, IH; simpl; ring.
Qed.

Lemma angle_nyquist (N n : nat) :
  (0 < N)%nat -> Nat.even N = true -> FFT.angle (N / 2) n N = PI * INR n.
Proof.
  intros HN He.
  assert (HNR : 0 < INR N) by (apply lt_0_INR; exact HN).
  pose proof (parity_half N HN) as Hpar; rewrite He in Hpar.
  destruct Hpar as [_ Hhalf].
  apply (f_equal INR) in Hhalf; rewrite mult_INR in Hhalf.
  change (INR 2) with (1 + 1) in Hhalf.
  unfold FFT.angle; field_simplify_eq; [|lra].
  rewrite <- Hhalf; ring.
Qed.

(** An even-length array without Nyquist component has a zero last
    coefficient. *)
Lemma nyquist_coef (x : list R) :
  (0 < length x)%nat -> Nat.even (length x) = true ->
  Spec.nyquist x = 0 ->
  FFT.rfft_coef x (length x / 2) = Spec.czero.
Proof.
  intros HN He Hny; apply C_eq.
  - rewrite rfft_coef_Re; change (Re Spec.czero) with 0.
    transitivity (Spec.nyquist x); [|exact Hny].
    unfold Spec.nyquist.
    apply Rsum_ext; intros n _.
    rewrite angle_nyquist, cos_nat_PI by assumption; apply Rmult_comm.
  - rewrite rfft_coef_Im; change (Im Spec.czero) with 0.
    rewrite Rsum_zero; [ring|].
    intros n _; rewrite angle_nyquist, sin_nat_PI by assumption; ring.
Qed.

Lemma cis_cancel (t : R) (z : C) :
  Cmul (FFT.cis (- t)) (Cmul (FFT.cis t) z) = z.
Proof.
  rewrite !cis_val, cos_neg, sin_neg.
  pose proof (sin2_cos2 t) as H; unfold Rsqr in H.
  apply C_eq; simpl.
  - transitivity ((sin t * sin t + cos t * cos t) * Re z); [ring|].
    rewrite H; ring.
  - transitivity ((sin t * sin t + cos t * cos t) * Im z); [ring|].
    rewrite H; ring.
Qed.

Lemma cis_0 : FFT.cis 0 = mkC 1 0.
Proof. rewrite cis_val, cos_0, sin_0; reflexivity. Qed.

Lemma vmul_comm (a b : list C) : vmul a b = vmul b a.
Proof.
  revert b; induction a as [|x a IH]; intros [|y b]; simpl; try reflexivity.
  rewrite Cmul_comm, IH; reflexivity.
Qed.

(** Multiplying the harmonics of [x] by [exp(i phi_k)], transforming back
    and forth, and multiplying by [exp(-i phi_k)] gives [x] again, for an
    odd length, and for an even length without Nyquist component. *)
Lemma rotate_round_trip (x : list R) (phi : nat -> R) (Ph Ph' : list C) :
  (0 < length x)%nat ->
  phi 0%nat = 0 ->
  length Ph = (length x / 2 + 1)%nat ->
  length Ph' = (length x / 2 + 1)%nat ->
  (forall k, (k <= length x / 2)%nat ->
     nth k Ph Spec.czero = FFT.cis (phi k)) ->
  (forall k, (k <= length x / 2)%nat ->
     nth k Ph' Spec.czero = FFT.cis (- phi k)) ->
  (Nat.even (length x) = true -> Spec.nyquist x = 0) ->
  map (FFT.irfft_sample
         (vmul Ph'
            (map (FFT.rfft_coef
                    (map (FFT.irfft_sample
                            (vmul Ph
                               (map (FFT.rfft_coef x)
                                  (seq 0 (length x / 2 + 1))))
                            (length x))
                       (seq 0 (length x))))
               (seq 0 (length x / 2 + 1))))
         (length x))
    (seq 0 (length x))
  = x.
Proof.
  intros HN Hphi0 HlP HlP' HP HP' Hny.
  set (N := length x) in *.
  set (X := map (FFT.rfft_coef x) (seq 0 (N / 2 + 1))).
  set (Y := vmul Ph X).
  set (mid := map (FFT.irfft_sample Y N) (seq 0 N)).
  set (X' := map (FFT.rfft_coef mid) (seq 0 (N / 2 + 1))).
  set (Y' := vmul Ph' X').
  pose proof (half_sum N HN) as Hh.
  assert (Hhalf : ((N - 1) / 2 <= N / 2)%nat)
    by (apply Nat.Div0.div_le_mono; lia).
  assert (HY : forall k, (k <= N / 2)%nat ->
                 nth k Y Spec.czero
                 = Cmul (FFT.cis (phi k)) (FFT.rfft_coef x k)).
  { intros k Hk; unfold Y, X.
    rewrite vmul_nth by (rewrite ?length_map, ?length_seq; lia).
    rewrite HP, nth_map_seq by lia; reflexivity. }
  assert (HYnyq : Nat.even N = true -> Re (nth (N / 2) Y Spec.czero) = 0).
  { intros He; rewrite HY by lia.
    unfold N; rewrite nyquist_coef by (fold N; auto).
    simpl; ring. }
  assert (HX' : forall k, (k <= N / 2)%nat ->
                  nth k X' Spec.czero
                  = if Nat.eqb k 0 then RtoC (Re (nth 0 Y Spec.czero))
                    else if Nat.leb k ((N - 1) / 2) then nth k Y Spec.czero
                    else Spec.czero).
  { intros k Hk; unfold X'.
    rewrite nth_map_seq by lia.
    apply rfft_coef_of_synthesis; assumption. }
  assert (HY' : forall k, (k <= N / 2)%nat ->
                  nth k Y' Spec.czero
                  = Cmul (FFT.cis (- phi k)) (nth k X' Spec.czero)).
  { intros k Hk; unfold Y'.
    rewrite vmul_nth
      by (unfold X'; rewrite ?length_map, ?length_seq; lia).
    rewrite HP' by lia; reflexivity. }
  transitivity (map (fun k => nth k x 0) (seq 0 (length x)));
    [|symmetry; apply map_seq_nth].
  fold N.
  apply map_ext_in; intros j Hj; apply in_seq in Hj.
  unfold N; apply irfft_sample_of_transform; fold N.
  - lia.
  - rewrite HY', HX', HY by lia.
    cbn [Nat.eqb]; rewrite Hphi0, Ropp_0, cis_0; simpl; ring.
  - intros i Hi.
    rewrite HY', HX' by lia.
    cbn [Nat.eqb].
    destruct (Nat.leb_spec (S i) ((N - 1) / 2)) as [_|Hgt]; [|lia].
    rewrite HY by lia.
    apply cis_cancel.
  - intros He.
    pose proof (parity_half N HN) as Hpar; rewrite He in Hpar.
    rewrite HY', HX' by lia.
    destruct (Nat.eqb_spec (N / 2) 0) as [H0|_]; [lia|].
    destruct (Nat.leb_spec (N / 2) ((N - 1) / 2)) as [Hle|_]; [lia|].
    replace (FFT.rfft_coef x (N / 2)) with Spec.czero
      by (symmetry; apply nyquist_coef; auto).
    simpl; ring.
Qed.

(** ** C5: a rotation followed by the opposite rotation *)

Lemma fft_rotate_phasor (N k : nat) (bins : R) :
  Cexp (Cdiv_real (Cmul (Cmul (mkC 0 (2 * PI)) (RtoC (INR k))) (RtoC bins))
          (INR N))
  = FFT.cis (2 * PI * INR k * bins / INR N).
Proof.
  unfold FFT.cis, Cexp, Cdiv_real; simpl.
  apply C_eq; simpl; (f_equal; f_equal; unfold Rdiv; ring).
Qed.

Lemma fft_rotate_returns (arr : list R) (bins : R) :
  arr <> [] ->
  fft_rotate arr bins
  = Py.Return
      (map (FFT.irfft_sample
              (vmul
                 (map (fun f =>
                         Cexp (Cdiv_real
                                 (Cmul (Cmul (mkC 0 (2 * PI)) (RtoC f))
                                    (RtoC bins))
                                 (INR (length arr))))
                    (arange (length arr / 2 + 1)))
                 (map (FFT.rfft_coef arr) (seq 0 (length arr / 2 + 1))))
              (length arr))
         (seq 0 (length arr))).
Proof.
  intros Hne; unfold fft_rotate; cbv zeta.
  rewrite (rfft_returns arr Hne); cbn [Py.bind].
  apply irfft_returns.
  destruct arr; [contradiction Hne; reflexivity | simpl; discriminate].
Qed.

(** [fft_rotate] by [b] and then by [-b], on an array of odd length or
    without Nyquist component. *)
Lemma fft_rotate_round_trip (arr : list R) (b : R) :
  (0 < length arr)%nat ->
  (Nat.even (length arr) = true -> Spec.nyquist arr = 0) ->
  exists mid,
    fft_rotate arr b = Py.Return mid /\ fft_rotate mid (- b) = Py.Return arr.
Proof.
  intros HN Hny.
  assert (Hne : arr <> []) by (intros ->; simpl in HN; lia).
  eexists; split; [apply fft_rotate_returns; exact Hne|].
  match goal with
  | |- fft_rotate ?m _ = _ =>
      assert (Hlen : length m = length arr)
        by (rewrite length_map, length_seq; reflexivity);
      assert (Hmne : m <> [])
        by (intros Hm; rewrite Hm in Hlen; simpl in Hlen; lia)
  end.
  rewrite fft_rotate_returns by exact Hmne.
  rewrite Hlen; f_equal.
  apply (rotate_round_trip arr
           (fun k => 2 * PI * INR k * b / INR (length arr))).
  - exact HN.
  - simpl; unfold Rdiv; ring.
  - rewrite length_map, arange_length; reflexivity.
  - rewrite length_map, arange_length; reflexivity.
  - intros k Hk; rewrite map_arange_nth by lia.
    apply fft_rotate_phasor.
  - intros k Hk; rewrite map_arange_nth by lia.
    rewrite fft_rotate_phasor; f_equal; unfold Rdiv; ring.
  - exact Hny.
Qed.

Lemma mapM_map_returns {A B T : Type} (F : B -> Py.outcome T) (h : A -> B)
    (G : A -> T) (l : list A) :
  (forall a, In a l -> F (h a) = Py.Return (G a)) ->
  Py.mapM F (map h l) = Py.Return (map G l).
Proof.
  induction l as [|a l IH]; intros H; simpl; [reflexivity|].
  rewrite H by (left; reflexivity); cbn [Py.bind].
  rewrite IH by (intros a' Ha'; apply H; right; exact Ha').
  reflexivity.
Qed.

Lemma rotate_portrait_even_returns (port : list (list R)) (s : R)
    (P : option R) (nu0 : freq) :
  Forall (fun row => (2 <= length row)%nat /\ Nat.even (length row) = true)
    port ->
  rotate_portrait port s None P None nu0
  = Py.Return
      (map (fun row =>
              map (FFT.irfft_sample
                     (vmul (map (FFT.rfft_coef row)
                              (seq 0 (length row / 2 + 1)))
                        (phasor (length row / 2 + 1) s))
                     (length row))
                (seq 0 (length row)))
         port).
Proof.
  intros H; unfold rotate_portrait.
  assert (Hne : Forall (fun row : list R => row <> []) port).
  { eapply Forall_impl; [|exact H].
    intros row [Hl _] Heq; subst row; simpl in Hl; lia. }
  rewrite (mapM_rfft_rows port Hne); cbn [Py.bind].
  rewrite mapM_rotate_row_phase_only by apply length_seq.
  cbn [Py.bind]; unfold FFT.rfft_rows; rewrite map_map.
  apply mapM_map_returns; intros row Hin.
  rewrite Forall_forall in H; destruct (H row Hin) as [Hl He].
  pose proof (parity_half (length row) ltac:(lia)) as Hpar.
  rewrite He in Hpar; destruct Hpar as [_ Hhalf].
  unfold FFT.irfft_default.
  rewrite vmul_length, phasor_length, !length_map, !length_seq.
  replace (2 * (Nat.min (length row / 2 + 1) (length row / 2 + 1) - 1))%nat
    with (length row) by lia.
  apply irfft_returns; lia.
Qed.

(** [rotate_portrait] by the phase [s] and then by [-s], on rows of even
    length without Nyquist component. *)
Lemma rotate_portrait_round_trip (port : list (list R)) (s : R)
    (P : option R) (nu0 : freq) :
  Forall (fun row => (2 <= length row)%nat
                     /\ Nat.even (length row) = true
                     /\ Spec.nyquist row = 0) port ->
  exists mid,
    rotate_portrait port s None P None nu0 = Py.Return mid
    /\ rotate_portrait mid (- s) None P None nu0 = Py.Return port.
Proof.
  intros H.
  assert (H1 : Forall (fun row => (2 <= length row)%nat
                                  /\ Nat.even (length row) = true) port).
  { eapply Forall_impl; [|exact H]; intros row [Hl [He _]]; auto. }
  eexists; split; [apply rotate_portrait_even_returns; exact H1|].
  rewrite rotate_portrait_even_returns.
  - f_equal; rewrite map_map.
    rewrite <- (map_id port) at 2.
    apply map_ext_in; intros row Hin.
    rewrite Forall_forall in H; destruct (H row Hin) as [Hl [He Hny]].
    rewrite !length_map, !length_seq.
    rewrite (vmul_comm (map (FFT.rfft_coef row) _)), (vmul_comm (map _ _)).
    apply (rotate_round_trip row (fun k => 2 * PI * INR k * s)).
    + lia.
    + simpl; ring.
    + apply phasor_length.
    + apply phasor_length.
    + intros k Hk; rewrite phasor_nth by lia; reflexivity.
    + intros k Hk; rewrite phasor_nth by lia.
      unfold Spec.shift; fold (FFT.cis (2 * PI * INR k * - s)).
      f_equal; ring.
    + intros _; exact Hny.
  - apply Forall_map.
    eapply Forall_impl; [|exact H1].
    intros row Hrow; cbv beta; rewrite length_map, length_seq; exact Hrow.
Qed.

(** C5, as the code has it.  For every real [b], [fft_rotate] by [b] and
    then by [-b] gives back every array of odd length and every array of
    even length without Nyquist component ([sum_n (-1)^n arr[n] = 0]); and
    [rotate_portrait] with the phase [s] and then [-s] ([DM] and [freqs]
    at [None]) gives back every portrait whose rows have even length and no
    Nyquist component. *)
Theorem rotation_round_trip :
  (forall (arr : list R) (b : R),
     (0 < length arr)%nat ->
     (Nat.even (length arr) = true -> Spec.nyquist arr = 0) ->
     exists mid,
       fft_rotate arr b = Py.Return mid
       /\ fft_rotate mid (- b) = Py.Return arr)
  /\ (forall (port : list (list R)) (s : R) (P : option R) (nu0 : freq),
        Forall (fun row => (2 <= length row)%nat
                           /\ Nat.even (length row) = true
                           /\ Spec.nyquist row = 0) port ->
        exists mid,
          rotate_portrait port s None P None nu0 = Py.Return mid
          /\ rotate_portrait mid (- s) None P None nu0 = Py.Return port).
Proof.
  split.
  - exact fft_rotate_round_trip.
  - exact rotate_portrait_round_trip.
Qed.

(** C5 on an array of three samples and on a portrait of one channel of
    two equal bins. *)
Lemma rotation_round_trip_witness :
  (exists mid,
     fft_rotate [1; 2; 3] (1/3) = Py.Return mid
     /\ fft_rotate mid (- (1/3)) = Py.Return [1; 2; 3])
  /\ (exists mid,
        rotate_portrait [[1; 1]] (1/3) None None None inf_freq = Py.Return mid
        /\ rotate_portrait mid (- (1/3)) None None None inf_freq
           = Py.Return [[1; 1]]).
Proof.
  split.
  - apply (proj1 rotation_round_trip [1; 2; 3] (1/3)).
    + simpl; lia.
    + simpl; discriminate.
  - apply (proj2 rotation_round_trip [[1; 1]] (1/3) None inf_freq).
    repeat constructor.
    unfold Spec.nyquist, Spec.Rsum; simpl; ring.
Defined.

(** ** C5 on two samples: the Nyquist harmonic *)

Lemma rfft_coef_two_0 (a c : R) : FFT.rfft_coef [a; c] 0 = mkC (a + c) 0.
Proof.
  apply C_eq.
  - rewrite rfft_coef_Re; unfold Spec.Rsum.
    cbn [length seq map fold_right nth].
    rewrite !angle_0_l, cos_0; simpl; ring.
  - rewrite rfft_coef_Im; unfold Spec.Rsum.
    cbn [length seq map fold_right nth].
    rewrite !angle_0_l, sin_0; simpl; ring.
Qed.

Lemma angle_1_0_2 : FFT.angle 1 0 2 = 0.
Proof. unfold FFT.angle; simpl; field. Qed.

Lemma angle_1_1_2 : FFT.angle 1 1 2 = PI.
Proof. unfold FFT.angle; simpl; field. Qed.

Lemma rfft_coef_two_1 (a c : R) : FFT.rfft_coef [a; c] 1 = mkC (a - c) 0.
Proof.
  apply C_eq.
  - rewrite rfft_coef_Re; unfold Spec.Rsum.
    cbn [length seq map fold_right nth].
    rewrite angle_1_0_2, angle_1_1_2, cos_0, cos_PI; simpl; ring.
  - rewrite rfft_coef_Im; unfold Spec.Rsum.
    cbn [length seq map fold_right nth].
    rewrite angle_1_0_2, angle_1_1_2, sin_0, sin_PI; simpl; ring.
Qed.

(** On two samples the rotation keeps the mean and multiplies the
    Nyquist harmonic, [a - c], by [cos (pi b)]. *)
Lemma fft_rotate_two (a c b : R) :
  fft_rotate [a; c] b
  = Py.Return [((a + c) + (a - c) * cos (PI * b)) / 2;
               ((a + c) - (a - c) * cos (PI * b)) / 2].
Proof.
  rewrite fft_rotate_returns by discriminate.
  change (length [a; c]) with 2%nat.
  change (2 / 2 + 1)%nat with 2%nat.
  unfold arange; cbn [seq map].
  rewrite !fft_rotate_phasor, rfft_coef_two_0, rfft_coef_two_1.
  cbn [vmul].
  unfold FFT.irfft_sample.
  change ((2 - 1) / 2)%nat with 0%nat; change (2 / 2)%nat with 1%nat.
  cbn [Nat.even nth]; rewrite !Rsum_0, !cis_val.
  do 2 f_equal.
  - replace (2 * PI * INR 0 * b / INR 2) with 0 by (simpl; field).
    replace (2 * PI * INR 1 * b / INR 2) with (PI * b) by (simpl; field).
    replace (PI * INR 0) with 0 by (simpl; ring).
    rewrite cos_0, sin_0; simpl; field.
  - f_equal.
    replace (2 * PI * INR 0 * b / INR 2) with 0 by (simpl; field).
    replace (2 * PI * INR 1 * b / INR 2) with (PI * b) by (simpl; field).
    replace (PI * INR 1) with PI by (simpl; ring).
    rewrite cos_0, sin_0, cos_PI; simpl; field.
Qed.

(** C5 as stated fails on an array of even length: [[1, -1]] rotated by
    half a bin is [[0, 0]], and no rotation brings it back. *)
Lemma fft_rotate_round_trip_even_fails :
  fft_rotate [1; -1] (1/2) = Py.Return [0; 0]
  /\ fft_rotate [0; 0] (- (1/2)) = Py.Return [0; 0]
  /\ [0; 0] <> [1; -1].
Proof.
  split; [|split].
  - rewrite fft_rotate_two.
    replace (PI * (1 / 2)) with (PI / 2) by field.
    rewrite cos_PI2; do 3 f_equal; field.
  - rewrite fft_rotate_two; do 3 f_equal; field.
  - intros H; injection H as H _; lra.
Qed.

(** ** [fft_rotate]: what the rotation keeps *)

(** The product [phasor * rfft(arr)], coefficient by coefficient. *)
Lemma fft_rotate_closed (arr : list R) (bins : R) :
  arr <> [] ->
  fft_rotate arr bins
  = Py.Return
      (map (FFT.irfft_sample
              (map (fun k => Cmul (FFT.cis (2 * PI * INR k * bins
                                            / INR (length arr)))
                               (FFT.rfft_coef arr k))
                 (seq 0 (length arr / 2 + 1)))
              (length arr))
         (seq 0 (length arr))).
Proof.
  intros Hne; rewrite fft_rotate_returns by exact Hne.
  do 3 f_equal.
  apply map_seq_by_index.
  - rewrite vmul_length, !length_map, arange_length, length_seq.
    apply Nat.min_id.
  - intros k Hk.
    rewrite vmul_nth by (rewrite length_map, ?arange_length, ?length_seq; lia).
    rewrite map_arange_nth, fft_rotate_phasor, nth_map_seq by lia.
    reflexivity.
Qed.

Lemma Cmul_1_l (z : C) : Cmul (mkC 1 0) z = z.
Proof. apply C_eq; simpl; ring. Qed.

(** X1.  A rotation by zero bins gives back every non-empty array, of odd
    or even length; the empty array raises the [ValueError] of [rfft]. *)
Theorem fft_rotate_zero (arr : list R) :
  fft_rotate arr 0
  = match arr with
    | [] => Py.Raise Py.ValueError
    | _ :: _ => Py.Return arr
    end.
Proof.
  destruct arr as [|h t]; [reflexivity|].
  set (x := h :: t).
  assert (Hne : x <> []) by discriminate.
  assert (HN : (0 < length x)%nat) by (simpl; lia).
  rewrite fft_rotate_closed by exact Hne.
  f_equal.
  transitivity (map (fun k => nth k x 0) (seq 0 (length x)));
    [|symmetry; apply map_seq_nth].
  apply map_ext_in; intros j Hj; apply in_seq in Hj.
  assert (Hhalf : ((length x - 1) / 2 <= length x / 2)%nat)
    by (apply Nat.Div0.div_le_mono; lia).
  assert (Hk : forall k, (k <= length x / 2)%nat ->
                 nth k (map (fun k => Cmul (FFT.cis (2 * PI * INR k * 0
                                                     / INR (length x)))
                                        (FFT.rfft_coef x k))
                          (seq 0 (length x / 2 + 1))) Spec.czero
                 = FFT.rfft_coef x k).
  { intros k Hk; rewrite nth_map_seq by lia.
    replace (2 * PI * INR k * 0 / INR (length x)) with 0
      by (unfold Rdiv; ring).
    rewrite cis_0; apply Cmul_1_l. }
  apply irfft_sample_of_transform.
  - lia.
  - rewrite Hk by lia; reflexivity.
  - intros i Hi; apply Hk; lia.
  - intros _; rewrite Hk by lia; reflexivity.
Qed.

Lemma cis_period (t : R) (k : nat) :
  FFT.cis (t + 2 * INR k * PI) = FFT.cis t.
Proof. rewrite !cis_val, cos_period, sin_period; reflexivity. Qed.

(** X2.  The rotation is periodic in [bins], with the length of the array
    as its period. *)
Theorem fft_rotate_period (arr : list R) (bins : R) :
  fft_rotate arr (bins + INR (length arr)) = fft_rotate arr bins.
Proof.
  destruct arr as [|h t]; [reflexivity|].
  set (x := h :: t).
  assert (Hne : x <> []) by discriminate.
  assert (HN : 0 < INR (length x)) by (apply lt_0_INR; simpl; lia).
  rewrite !fft_rotate_closed by exact Hne.
  do 3 f_equal.
  apply map_ext; intros k; f_equal.
  rewrite <- (cis_period (2 * PI * INR k * bins / INR (length x)) k).
  f_equal; field; lra.
Qed.

(** The samples that [irfft] synthesises add up to the real part of the
    first coefficient. *)
Lemma Rsum_irfft_sample (a : list C) (N : nat) :
  (0 < N)%nat ->
  Spec.Rsum N (FFT.irfft_sample a N) = Re (nth 0 a Spec.czero).
Proof.
  intros HN.
  assert (HNR : 0 < INR N) by (apply lt_0_INR; exact HN).
  unfold FFT.irfft_sample.
  rewrite (Rsum_ext N _
             (fun j =>
                / INR N
                * (Re (nth 0 a Spec.czero)
                   + Spec.Rsum ((N - 1) / 2)
                       (fun i => 2 * Re (Cmul (nth (S i) a Spec.czero)
                                           (FFT.cis (FFT.angle (S i) j N))))
                   + (if Nat.even N
                      then Re (nth (N / 2) a Spec.czero) * cos (PI * INR j)
                      else 0))))
    by (intros j _; unfold Rdiv; ring).
  rewrite Rsum_scal, !Rsum_plus, Rsum_const, Rsum_swap.
  rewrite (Rsum_zero ((N - 1) / 2)).
  2:{ intros i Hi.
      assert (HiN : (S i < N)%nat).
      { pose proof (half_sum N HN); lia. }
      rewrite (Rsum_ext N _
                 (fun j => 2 * Re (nth (S i) a Spec.czero)
                           * cos (FFT.angle (S i) j N)
                           + - (2 * Im (nth (S i) a Spec.czero))
                             * sin (FFT.angle (S i) j N)))
        by (intros j _; rewrite cis_val; simpl; ring).
      rewrite Rsum_plus, !Rsum_scal, sum_cos_harmonic, sum_sin_harmonic
        by exact HiN.
      cbn [Nat.eqb]; ring. }
  assert (Hnyq : Spec.Rsum N
                   (fun j => if Nat.even N
                             then Re (nth (N / 2) a Spec.czero)
                                  * cos (PI * INR j)
                             else 0) = 0).
  { destruct (Nat.even N) eqn:He.
    - pose proof (parity_half N HN) as Hpar; rewrite He in Hpar.
      rewrite (Rsum_ext N _
                 (fun j => Re (nth (N / 2) a Spec.czero)
                           * cos (FFT.angle (N / 2) j N)))
        by (intros j _; rewrite angle_nyquist by assumption; reflexivity).
      rewrite Rsum_scal, sum_cos_harmonic by lia.
      destruct (Nat.eqb_spec (N / 2) 0) as [H0|_]; [lia | ring].
    - apply Rsum_zero; reflexivity. }
  rewrite Hnyq; field; lra.
Qed.

Lemma Rsum_list (x : list R) :
  Spec.Rsum (length x) (fun n => nth n x 0) = fold_right Rplus 0 x.
Proof.
  unfold Spec.Rsum; rewrite <- (map_seq_nth x 0); reflexivity.
Qed.

(** X3.  A rotation keeps the number of samples and their sum, whatever
    [bins] is; only the empty array raises, with the [ValueError] of
    [rfft]. *)
Theorem fft_rotate_keeps_length_and_sum (arr : list R) (bins : R) :
  match fft_rotate arr bins with
  | Py.Return out => length out = length arr /\ np_sum out = np_sum arr
  | Py.Raise e => arr = [] /\ e = Py.ValueError
  end.
Proof.
  destruct arr as [|h t]; [split; reflexivity|].
  set (x := h :: t).
  assert (HN : (0 < length x)%nat) by (simpl; lia).
  rewrite fft_rotate_closed by discriminate.
  split; [rewrite length_map, length_seq; reflexivity|].
  rewrite !np_sum_fold_right.
  change (fold_right Rplus 0 (map ?f (seq 0 ?n))) with (Spec.Rsum n f).
  rewrite Rsum_irfft_sample by exact HN.
  rewrite nth_map_seq by lia.
  replace (2 * PI * INR 0 * bins / INR (length x)) with 0
    by (simpl; unfold Rdiv; ring).
  rewrite cis_0, Cmul_1_l, rfft_coef_Re, <- Rsum_list.
  apply Rsum_ext; intros n _; rewrite angle_0_l, cos_0; ring.
Qed.

Lemma irfft_sample_ext (a a' : list C) (N j : nat) :
  Re (nth 0 a Spec.czero) = Re (nth 0 a' Spec.czero) ->
  (forall i, (i < (N - 1) / 2)%nat ->
     nth (S i) a Spec.czero = nth (S i) a' Spec.czero) ->
  (Nat.even N = true ->
   Re (nth (N / 2) a Spec.czero) = Re (nth (N / 2) a' Spec.czero)) ->
  FFT.irfft_sample a N j = FFT.irfft_sample a' N j.
Proof.
  intros H0 Hmid Hnyq; unfold FFT.irfft_sample.
  rewrite H0; f_equal; f_equal; [f_equal|].
  - apply Rsum_ext; intros i Hi; rewrite Hmid by exact Hi; reflexivity.
  - destruct (Nat.even N); [rewrite Hnyq by reflexivity|]; reflexivity.
Qed.

Lemma cis_add (s t : R) (z : C) :
  Cmul (FFT.cis s) (Cmul (FFT.cis t) z) = Cmul (FFT.cis (t + s)) z.
Proof.
  rewrite !cis_val, cos_plus, sin_plus; apply C_eq; simpl; ring.
Qed.

(** X4.  Two rotations in a row are the rotation by the sum of the two
    shifts, on every array of odd length and on every array of even length
    without Nyquist component. *)
Theorem fft_rotate_compose (arr : list R) (a b : R) :
  (Nat.even (length arr) = true -> Spec.nyquist arr = 0) ->
  Py.bind (fft_rotate arr a) (fun mid => fft_rotate mid b)
  = fft_rotate arr (a + b).
Proof.
  intros Hny.
  destruct arr as [|h t]; [reflexivity|].
  set (x := h :: t) in *.
  set (N := length x) in *.
  assert (HN : (0 < N)%nat) by (unfold N; simpl; lia).
  assert (HNR : 0 < INR N) by (apply lt_0_INR; exact HN).
  assert (Hhalf : ((N - 1) / 2 <= N / 2)%nat)
    by (apply Nat.Div0.div_le_mono; lia).
  rewrite !(fft_rotate_closed x) by discriminate.
  cbn [Py.bind]; fold N.
  set (Y := map (fun k => Cmul (FFT.cis (2 * PI * INR k * a / INR N))
                            (FFT.rfft_coef x k)) (seq 0 (N / 2 + 1))).
  set (mid := map (FFT.irfft_sample Y N) (seq 0 N)).
  assert (Hlen : length mid = N)
    by (unfold mid; rewrite length_map, length_seq; reflexivity).
  rewrite fft_rotate_closed
    by (intros Hm; rewrite Hm in Hlen; simpl in Hlen; lia).
  rewrite Hlen; f_equal.
  apply map_ext_in; intros j Hj; apply in_seq in Hj.
  assert (HY : forall k, (k <= N / 2)%nat ->
                 nth k Y Spec.czero
                 = Cmul (FFT.cis (2 * PI * INR k * a / INR N))
                     (FFT.rfft_coef x k))
    by (intros k Hk; unfold Y; rewrite nth_map_seq by lia; reflexivity).
  assert (HYnyq : Nat.even N = true -> Re (nth (N / 2) Y Spec.czero) = 0).
  { intros He; rewrite HY by lia.
    unfold N; rewrite nyquist_coef by (fold N; auto).
    simpl; ring. }
  assert (Hmid : forall k, (k <= N / 2)%nat ->
                   FFT.rfft_coef mid k
                   = if Nat.eqb k 0 then RtoC (Re (nth 0 Y Spec.czero))
                     else if Nat.leb k ((N - 1) / 2) then nth k Y Spec.czero
                     else Spec.czero)
    by (intros k Hk; apply rfft_coef_of_synthesis; assumption).
  apply irfft_sample_ext.
  - rewrite !nth_map_seq, Hmid, HY by lia.
    cbn [Nat.eqb].
    replace (2 * PI * INR 0 * a / INR N) with 0 by (simpl; unfold Rdiv; ring).
    replace (2 * PI * INR 0 * b / INR N) with 0 by (simpl; unfold Rdiv; ring).
    replace (2 * PI * INR 0 * (a + b) / INR N) with 0
      by (simpl; unfold Rdiv; ring).
    rewrite cis_0; simpl; ring.
  - intros i Hi.
    rewrite !nth_map_seq, Hmid by lia.
    cbn [Nat.eqb].
    destruct (Nat.leb_spec (S i) ((N - 1) / 2)) as [_|Hgt]; [|lia].
    rewrite HY, cis_add by lia.
    do 2 f_equal; field; lra.
  - intros He.
    pose proof (parity_half N HN) as Hpar; rewrite He in Hpar.
    rewrite !nth_map_seq, Hmid by lia.
    destruct (Nat.eqb_spec (N / 2) 0) as [H0|_]; [lia|].
    destruct (Nat.leb_spec (N / 2) ((N - 1) / 2)) as [Hle|_]; [lia|].
    replace (FFT.rfft_coef x (N / 2)) with Spec.czero
      by (symmetry; apply nyquist_coef; auto).
    simpl; ring.
Qed.

(** X4 on three samples, where the hypothesis holds by parity. *)
Lemma fft_rotate_compose_witness :
  Py.bind (fft_rotate [1; 2; 3] (1/2)) (fun mid => fft_rotate mid (1/3))
  = fft_rotate [1; 2; 3] (1/2 + 1/3).
Proof.
  apply (fft_rotate_compose [1; 2; 3] (1/2) (1/3)).
  simpl; discriminate.
Defined.

(** ** [fft_rotate] by a whole number of bins *)

Lemma Rsum_S_first (n : nat) (f : nat -> R) :
  Spec.Rsum (S n) f = f 0%nat + Spec.Rsum n (fun i => f (S i)).
Proof.
  induction n as [|n IH]; [rewrite Rsum_S, !Rsum_0; ring|].
  rewrite Rsum_S, IH, Rsum_S; ring.
Qed.

Lemma angle_last (k n : nat) :
  FFT.angle k n (S n) = - FFT.angle k 1 (S n) + 2 * INR k * PI.
Proof.
  unfold FFT.angle; rewrite S_INR.
  pose proof (pos_INR n) as Hn.
  simpl; field; lra.
Qed.

Lemma angle_0_r (k N : nat) : FFT.angle k 0 N = 0.
Proof. unfold FFT.angle, Rdiv; simpl; ring. Qed.

Lemma angle_next (k m N : nat) :
  FFT.angle k (S m) N - FFT.angle k 1 N = FFT.angle k m N.
Proof. unfold FFT.angle; rewrite S_INR; simpl; unfold Rdiv; ring. Qed.

(** The shift theorem for one bin: moving the first sample to the end
    multiplies coefficient [k] by [exp(2 pi i k / N)]. *)
Lemma rfft_coef_rotl (h : R) (t : list R) (k : nat) :
  FFT.rfft_coef (t ++ [h]) k
  = Cmul (FFT.cis (FFT.angle k 1 (S (length t)))) (FFT.rfft_coef (h :: t) k).
Proof.
  set (n := length t).
  assert (Hl : length (t ++ [h]) = S n)
    by (rewrite length_app; simpl; unfold n; lia).
  assert (Hl' : length (h :: t) = S n) by reflexivity.
  assert (Hlast : nth n (t ++ [h]) 0 = h)
    by (unfold n; rewrite app_nth2, Nat.sub_diag by lia; reflexivity).
  rewrite cis_val; apply C_eq.
  - cbn [Re Im Cmul].
    rewrite !rfft_coef_Re, rfft_coef_Im, Hl, Hl'.
    rewrite Rsum_S, !Rsum_S_first, Hlast.
    cbn [nth].
    rewrite angle_last, cos_period, cos_neg.
    rewrite angle_0_r, cos_0, sin_0.
    rewrite (Rsum_ext n
               (fun m => nth m (t ++ [h]) 0 * cos (FFT.angle k m (S n)))
               (fun m => cos (FFT.angle k 1 (S n))
                         * (nth m t 0 * cos (FFT.angle k (S m) (S n)))
                         + sin (FFT.angle k 1 (S n))
                           * (nth m t 0 * sin (FFT.angle k (S m) (S n))))).
    + rewrite Rsum_plus, !Rsum_scal; ring.
    + intros m Hm.
      rewrite app_nth1 by (fold n; exact Hm).
      rewrite <- (angle_next k m (S n)), cos_minus; ring.
  - cbn [Re Im Cmul].
    rewrite !rfft_coef_Im, rfft_coef_Re, Hl, Hl'.
    rewrite Rsum_S, !Rsum_S_first, Hlast.
    cbn [nth].
    rewrite angle_last, sin_period, sin_neg.
    rewrite angle_0_r, cos_0, sin_0.
    rewrite (Rsum_ext n
               (fun m => nth m (t ++ [h]) 0 * sin (FFT.angle k m (S n)))
               (fun m => cos (FFT.angle k 1 (S n))
                         * (nth m t 0 * sin (FFT.angle k (S m) (S n)))
                         + - sin (FFT.angle k 1 (S n))
                           * (nth m t 0 * cos (FFT.angle k (S m) (S n))))).
    + rewrite Rsum_plus, !Rsum_scal; ring.
    + intros m Hm.
      rewrite app_nth1 by (fold n; exact Hm).
      rewrite <- (angle_next k m (S n)), sin_minus; ring.
Qed.

Lemma skipn_firstn_step {A : Type} (l : list A) (m : nat) (d : A) :
  (m < length l)%nat ->
  skipn m l = nth m l d :: skipn (S m) l
  /\ firstn (S m) l = firstn m l ++ [nth m l d].
Proof.
  revert m; induction l as [|x l IH]; intros m Hm; [simpl in Hm; lia|].
  destruct m as [|m]; [split; reflexivity|].
  destruct (IH m ltac:(simpl in Hm; lia)) as [H1 H2].
  split.
  - exact H1.
  - change (firstn (S (S m)) (x :: l)) with (x :: firstn (S m) l).
    rewrite H2; reflexivity.
Qed.

(** The shift theorem for [m] bins. *)
Lemma rfft_coef_shift (arr : list R) (m k : nat) :
  (m <= length arr)%nat ->
  FFT.rfft_coef (skipn m arr ++ firstn m arr) k
  = Cmul (FFT.cis (FFT.angle k m (length arr))) (FFT.rfft_coef arr k).
Proof.
  induction m as [|m IH]; intros Hm.
  - cbn [skipn firstn]; rewrite app_nil_r.
    unfold FFT.angle; simpl INR.
    replace (2 * PI * INR k * 0 / INR (length arr)) with 0
      by (unfold Rdiv; ring).
    rewrite cis_0, Cmul_1_l; reflexivity.
  - destruct (skipn_firstn_step arr m 0 Hm) as [Hs Hf].
    rewrite Hf, app_assoc, rfft_coef_rotl.
    assert (Hlen : S (length (skipn (S m) arr ++ firstn m arr))
                   = length arr).
    { rewrite length_app, length_skipn, length_firstn; lia. }
    rewrite Hlen.
    replace (nth m arr 0 :: skipn (S m) arr ++ firstn m arr)
      with (skipn m arr ++ firstn m arr) by (rewrite Hs; reflexivity).
    rewrite IH, cis_add by lia.
    do 2 f_equal.
    rewrite <- (angle_next k m (length arr)); ring.
Qed.

(** X5.  A rotation by a whole number [m] of bins moves every sample [m]
    places to the left, the first [m] samples going to the end. *)
Theorem fft_rotate_whole_bins (arr : list R) (m : nat) :
  arr <> [] -> (m <= length arr)%nat ->
  fft_rotate arr (INR m) = Py.Return (skipn m arr ++ firstn m arr).
Proof.
  intros Hne Hm.
  set (y := skipn m arr ++ firstn m arr).
  assert (Hlen : length y = length arr)
    by (unfold y; rewrite length_app, length_skipn, length_firstn; lia).
  assert (HN : (0 < length arr)%nat)
    by (destruct arr; [contradiction Hne; reflexivity | simpl; lia]).
  assert (Hhalf : ((length arr - 1) / 2 <= length arr / 2)%nat)
    by (apply Nat.Div0.div_le_mono; lia).
  rewrite fft_rotate_closed by exact Hne.
  f_equal.
  transitivity (map (fun k => nth k y 0) (seq 0 (length y)));
    [|symmetry; apply map_seq_nth].
  rewrite Hlen.
  apply map_ext_in; intros j Hj; apply in_seq in Hj.
  set (A := map (fun k => Cmul (FFT.cis (2 * PI * INR k * INR m
                                         / INR (length arr)))
                            (FFT.rfft_coef arr k))
              (seq 0 (length arr / 2 + 1))).
  assert (Hk : forall k, (k <= length arr / 2)%nat ->
                 nth k A Spec.czero = FFT.rfft_coef y k).
  { intros k Hk; unfold A; rewrite nth_map_seq by lia.
    unfold y; rewrite rfft_coef_shift by exact Hm; reflexivity. }
  pose proof (irfft_sample_of_transform y A j) as Ht.
  rewrite Hlen in Ht; apply Ht.
  - lia.
  - rewrite Hk by lia; reflexivity.
  - intros i Hi; apply Hk; lia.
  - intros _; rewrite Hk by lia; reflexivity.
Qed.

(** X5 on three samples and one bin. *)
Lemma fft_rotate_whole_bins_witness :
  fft_rotate [1; 2; 3] 1 = Py.Return [2; 3; 1].
Proof.
  apply (fft_rotate_whole_bins [1; 2; 3] 1); [discriminate | simpl; lia].
Defined.

(** ** [rotate_portrait]: rows, arguments *)

Lemma mapM_returns {A T : Type} (F : A -> Py.outcome T) (G : A -> T)
    (l : list A) :
  (forall a, In a l -> F a = Py.Return (G a)) ->
  Py.mapM F l = Py.Return (map G l).
Proof.
  intros H; rewrite <- (map_id l) at 1.
  apply (mapM_map_returns F (fun a => a) G); exact H.
Qed.

Lemma mapM_ext_in {A T : Type} (F G : A -> Py.outcome T) (l : list A) :
  (forall a, In a l -> F a = G a) -> Py.mapM F l = Py.mapM G l.
Proof.
  induction l as [|a l IH]; intros H; [reflexivity|].
  cbn [Py.mapM]; rewrite (H a) by (left; reflexivity).
  rewrite IH by (intros a' Ha'; apply H; right; exact Ha').
  reflexivity.
Qed.

Lemma mapM_length {A T : Type} (F : A -> Py.outcome T) (l : list A)
    (out : list T) :
  Py.mapM F l = Py.Return out -> length out = length l.
Proof.
  revert out; induction l as [|a l IH]; intros out H.
  - injection H as <-; reflexivity.
  - cbn [Py.mapM] in H.
    destruct (F a) as [y|e]; [|discriminate H].
    cbn [Py.bind] in H.
    destruct (Py.mapM F l) as [ys|e]; [|discriminate H].
    injection H as <-; simpl; rewrite (IH ys eq_refl); reflexivity.
Qed.

(** X6.  On rows of even length, [rotate_portrait] by the phase [s]
    ([DM] and [freqs] at [None]) is [fft_rotate] of every row by [s] times
    the number of bins. *)
Theorem rotate_portrait_rows (port : list (list R)) (s : R) (P : option R)
    (nu0 : freq) :
  Forall (fun row => (2 <= length row)%nat /\ Nat.even (length row) = true)
    port ->
  rotate_portrait port s None P None nu0
  = Py.mapM (fun row => fft_rotate row (s * INR (length row))) port.
Proof.
  intros H.
  rewrite rotate_portrait_even_returns by exact H.
  symmetry; apply mapM_returns; intros row Hin.
  rewrite Forall_forall in H; destruct (H row Hin) as [Hl He].
  assert (HNR : 0 < INR (length row)) by (apply lt_0_INR; lia).
  rewrite fft_rotate_closed by (intros ->; simpl in Hl; lia).
  do 3 f_equal.
  symmetry; apply map_seq_by_index.
  - rewrite vmul_length, phasor_length, length_map, length_seq.
    apply Nat.min_id.
  - intros k Hk.
    rewrite vmul_nth by (rewrite ?phasor_length, ?length_map, ?length_seq; lia).
    rewrite nth_map_seq, phasor_nth, Cmul_comm by lia.
    unfold Spec.shift; fold (FFT.cis (2 * PI * INR k * s)).
    do 2 f_equal; field; lra.
Qed.

(** X6 on one row of two bins. *)
Lemma rotate_portrait_rows_witness :
  rotate_portrait [[1; 2]] (1/4) None None None inf_freq
  = Py.mapM (fun row => fft_rotate row (1/4 * INR (length row))) [[1; 2]].
Proof.
  apply (rotate_portrait_rows [[1; 2]] (1/4) None inf_freq).
  repeat constructor.
Defined.

(** X7.  With [DM = 0], a period and frequencies that are not zero and at
    least one frequency per row, [rotate_portrait] is the phase-only
    rotation: the frequencies and the reference frequency play no part. *)
Theorem rotate_portrait_zero_DM (port : list (list R)) (phase P : R)
    (freqs : list freq) (nu0 : freq) :
  P <> 0 -> (length port <= length freqs)%nat ->
  Forall (fun f => f <> MHz 0) freqs -> nu0 <> MHz 0 ->
  rotate_portrait port phase (Some 0) (Some P) (Some freqs) nu0
  = rotate_portrait port phase None (Some P) None nu0.
Proof.
  intros HP Hlen Hfreqs Hnu0; unfold rotate_portrait.
  destruct (Py.mapM FFT.rfft port) as [pFFT|e] eqn:Hfft; [|reflexivity].
  cbn [Py.bind].
  pose proof (mapM_length _ _ _ Hfft) as Hl.
  f_equal.
  apply mapM_ext_in; intros [nn row] Hin.
  apply in_combine_l in Hin; apply in_seq in Hin.
  cbn [fst snd rotate_row].
  destruct (nth_error freqs nn) as [f|] eqn:Hf.
  - unfold chan_delay.
    replace (phase + 0 * Dconst / P * (freq_pow_m2 f - freq_pow_m2 nu0))
      with phase by (field; exact HP).
    reflexivity.
  - apply nth_error_None in Hf; lia.
Qed.

(** X7 on one row of two bins at 1400 MHz. *)
Lemma rotate_portrait_zero_DM_witness :
  rotate_portrait [[1; 2]] (1/4) (Some 0) (Some 1) (Some [MHz 1400]) inf_freq
  = rotate_portrait [[1; 2]] (1/4) None (Some 1) None inf_freq.
Proof.
  apply (rotate_portrait_zero_DM [[1; 2]] (1/4) 1 [MHz 1400] inf_freq).
  - lra.
  - simpl; lia.
  - constructor; [|constructor].
    intros H; injection H as H; lra.
  - discriminate.
Defined.



(** ** The objective: what does not change it *)

Lemma fold_left_ext_all {A B : Type} (f g : A -> B -> A) (l : list B)
    (a : A) :
  (forall x y, f x y = g x y) -> fold_left f l a = fold_left g l a.
Proof.
  intros H; revert a; induction l as [|y l IH]; intros a; simpl;
    [reflexivity | rewrite H; apply IH].
Qed.

(** A whole turn of delay leaves every harmonic's phasor as it is. *)
Lemma phasor_whole_turn (n : nat) (delta : R) :
  phasor n (delta + 1) = phasor n delta.
Proof.
  unfold phasor, arange; rewrite !map_map.
  apply map_ext; intros k.
  rewrite !phasor_factor.
  fold (FFT.cis (2 * PI * INR k * (delta + 1))).
  fold (FFT.cis (2 * PI * INR k * delta)).
  rewrite <- (cis_period (2 * PI * INR k * delta) k).
  f_equal; ring.
Qed.

Lemma chan_delay_whole_turn (phase D : R) (f nu0 : freq) :
  chan_delay (phase + 1) D f nu0 = chan_delay phase D f nu0 + 1.
Proof. unfold chan_delay; ring. Qed.

(** X9.  The objective and its gradient are periodic in the phase, with
    period one turn, for every input, with or without the period and the
    frequencies. *)
Theorem fit_portrait_function_whole_turn (phase DM : R)
    (model : list (list C)) (p : list R) (data : list (list C)) (d : R)
    (errs : list R) (P : option R) (freqs : option (list freq))
    (nu0 : freq) :
  fit_portrait_function (phase + 1, DM) model p data d errs P freqs nu0
  = fit_portrait_function (phase, DM) model p data d errs P freqs nu0
  /\ fit_portrait_function_deriv (phase + 1, DM) model p data d errs P freqs
       nu0
     = fit_portrait_function_deriv (phase, DM) model p data d errs P freqs
         nu0.
Proof.
  split.
  - unfold fit_portrait_function; cbn [fst snd].
    f_equal; apply fold_left_ext_all; intros m nn.
    rewrite chan_delay_whole_turn, phasor_whole_turn; reflexivity.
  - unfold fit_portrait_function_deriv; cbn [fst snd].
    destruct P as [P|]; [|reflexivity].
    destruct freqs as [freqs|]; [|reflexivity].
    f_equal; apply fold_left_ext_all; intros acc nn.
    unfold deriv_step.
    rewrite chan_delay_whole_turn, phasor_whole_turn; reflexivity.
Qed.

(** X10.  Changing the reference frequency from [nu0] to [nu1] is a
    change of the phase parameter alone: for a period and frequencies that
    are not zero, the objective at [(phase, DM)] with [nu0] is the
    objective at [(phase + (Dconst DM / P) (nu1^-2 - nu0^-2), DM)] with
    [nu1]. *)
Theorem fit_portrait_function_reference (phase DM P : R)
    (model : list (list C)) (p : list R) (data : list (list C)) (d : R)
    (errs : list R) (freqs : list freq) (nu0 nu1 : freq) :
  P <> 0 -> Forall (fun f => f <> MHz 0) freqs ->
  nu0 <> MHz 0 -> nu1 <> MHz 0 ->
  fit_portrait_function (phase, DM) model p data d errs (Some P)
    (Some freqs) nu0
  = fit_portrait_function
      (phase + Dconst * DM / P * (freq_pow_m2 nu1 - freq_pow_m2 nu0), DM)
      model p data d errs (Some P) (Some freqs) nu1.
Proof.
  intros HP Hfreqs Hnu0 Hnu1.
  unfold fit_portrait_function; cbn [fst snd].
  f_equal; apply fold_left_ext_all; intros m nn.
  replace (chan_delay
             (phase + Dconst * DM / P * (freq_pow_m2 nu1 - freq_pow_m2 nu0))
             (Dconst * DM / P) (nth nn freqs inf_freq) nu1)
    with (chan_delay phase (Dconst * DM / P) (nth nn freqs inf_freq) nu0)
    by (unfold chan_delay; ring).
  reflexivity.
Qed.

(** X10 on one channel with two harmonics, from infinite frequency to
    1500 MHz. *)
Lemma fit_portrait_function_reference_witness :
  fit_portrait_function (1/4, 2) [[mkC 1 0; mkC 0 1]] [2]
    [[mkC 3 0; mkC 1 2]] 7 [1/2] (Some 1) (Some [MHz 1400]) inf_freq
  = fit_portrait_function
      (1/4 + Dconst * 2 / 1
             * (freq_pow_m2 (MHz 1500) - freq_pow_m2 inf_freq), 2)
      [[mkC 1 0; mkC 0 1]] [2] [[mkC 3 0; mkC 1 2]] 7 [1/2] (Some 1)
      (Some [MHz 1400]) (MHz 1500).
Proof.
  apply (fit_portrait_function_reference (1/4) 2 1 [[mkC 1 0; mkC 0 1]] [2]
           [[mkC 3 0; mkC 1 2]] 7 [1/2] [MHz 1400] inf_freq (MHz 1500)).
  - lra.
  - constructor; [|constructor].
    intros H; injection H as H; lra.
  - discriminate.
  - intros H; injection H as H; lra.
Defined.

Lemma cis_val_exp (t : R) : mkC (cos t) (sin t) = Cexp (Cj t).
Proof. symmetry; apply cis_val. Qed.

(** ** The objective is never negative *)

Lemma cs_step (S t A B a b : R) :
  0 <= A -> 0 <= B -> 0 <= a -> 0 <= b ->
  S * S <= A * B -> t * t <= a * b ->
  (S + t) * (S + t) <= (A + a) * (B + b).
Proof.
  intros HA HB Ha Hb HS Ht.
  assert (Hx : 0 <= A * b + B * a) by nra.
  assert (Hsq : (2 * (S * t)) * (2 * (S * t))
                <= (A * b + B * a) * (A * b + B * a)).
  { assert (H1 : (S * S) * (t * t) <= (A * B) * (a * b)).
    { apply Rmult_le_compat; try assumption; apply Rle_0_sqr. }
    pose proof (Rle_0_sqr (A * b - B * a)) as H2; unfold Rsqr in H2.
    nra. }
  assert (H2St : 2 * (S * t) <= A * b + B * a).
  { destruct (Rle_lt_dec (2 * (S * t)) (A * b + B * a)) as [H|H];
      [exact H|].
    exfalso; nra. }
  nra.
Qed.

Lemma Rsum_le (n : nat) (f g : nat -> R) :
  (forall k, (k < n)%nat -> f k <= g k) -> Spec.Rsum n f <= Spec.Rsum n g.
Proof.
  induction n as [|n IH]; intros H; [rewrite !Rsum_0; lra|].
  rewrite !Rsum_S.
  apply Rplus_le_compat; [apply IH; intros; apply H; lia | apply H; lia].
Qed.

Lemma Rsum_nonneg (n : nat) (f : nat -> R) :
  (forall k, (k < n)%nat -> 0 <= f k) -> 0 <= Spec.Rsum n f.
Proof.
  intros H; rewrite <- (Rsum_zero n (fun _ => 0)) by reflexivity.
  apply Rsum_le; exact H.
Qed.

(** The Cauchy-Schwarz inequality, term by term. *)
Lemma Rsum_cauchy (n : nat) (t a b : nat -> R) :
  (forall k, (k < n)%nat -> 0 <= a k) ->
  (forall k, (k < n)%nat -> 0 <= b k) ->
  (forall k, (k < n)%nat -> t k * t k <= a k * b k) ->
  Spec.Rsum n t * Spec.Rsum n t <= Spec.Rsum n a * Spec.Rsum n b.
Proof.
  induction n as [|n IH]; intros Ha Hb Ht; [rewrite !Rsum_0; lra|].
  rewrite !Rsum_S.
  apply cs_step.
  - apply Rsum_nonneg; intros; apply Ha; lia.
  - apply Rsum_nonneg; intros; apply Hb; lia.
  - apply Ha; lia.
  - apply Hb; lia.
  - apply IH; intros; [apply Ha | apply Hb | apply Ht]; lia.
  - apply Ht; lia.
Qed.

Lemma Cabs2_nonneg (z : C) : 0 <= Cabs2 z.
Proof. unfold Cabs2; nra. Qed.

Lemma power_nonneg (row : list C) : 0 <= Spec.power row.
Proof. apply Rsum_nonneg; intros; apply Cabs2_nonneg. Qed.

(** One channel: the squared cross-correlation is at most the product of
    the two powers, at every delay. *)
Lemma g1_cauchy (Dc Mc : list C) (delta : R) :
  length Dc = length Mc ->
  Spec.g1 Dc Mc delta * Spec.g1 Dc Mc delta
  <= Spec.power Dc * Spec.power Mc.
Proof.
  intros Hl; unfold Spec.g1, Spec.power.
  rewrite Re_Csum, Hl.
  apply Rsum_cauchy; try (intros; apply Cabs2_nonneg).
  intros k _.
  unfold Spec.shift; rewrite <- (cis_val_exp (2 * PI * INR k * delta)).
  destruct (nth k Dc Spec.czero) as [dr di], (nth k Mc Spec.czero) as [mr mi].
  unfold Cabs2; cbn [Re Im Cmul Cconj].
  set (c := cos (2 * PI * INR k * delta)).
  set (s := sin (2 * PI * INR k * delta)).
  assert (Hcs : s * s + c * c = 1) by (apply sin2_cos2).
  pose proof (Rle_0_sqr ((dr * mr - di * - mi) * s
                         + (dr * - mi + di * mr) * c)) as Hq.
  unfold Rsqr in Hq.
  nra.
Qed.

(** X11.  With the [d] and [p] that [fit_portrait] computes, precisions
    that are not negative, model rows that are not zero, and a period and
    frequencies that are not zero, the objective lies between [0] and [d]
    at every trial phase and DM. *)
Theorem fit_portrait_function_bounds (data model : list (list C))
    (errs : list R) (phase DM P : R) (freqs : list freq) (nu0 : freq) :
  P <> 0 -> Forall (fun f => f <> MHz 0) freqs -> nu0 <> MHz 0 ->
  length errs = length data ->
  length freqs = length data ->
  (forall c, (c < length freqs)%nat ->
     length (nth c data []) = length (nth c model [])) ->
  (forall c, (c < length freqs)%nat -> 0 <= nth c errs 0) ->
  (forall c, (c < length freqs)%nat -> 0 < nth c (portrait_p model) 0) ->
  0 <= fit_portrait_function (phase, DM) model (portrait_p model) data
         (portrait_d errs data) errs (Some P) (Some freqs) nu0
    <= portrait_d errs data.
Proof.
  intros HP Hfreqs Hnu0 Hl Hf Hrows Herrs Hp.
  rewrite fit_portrait_function_sum by exact Hrows.
  rewrite portrait_d_spec by exact Hl.
  unfold Spec.d; rewrite <- Hf.
  split.
  - apply Rge_le, Rge_minus, Rle_ge, Rsum_le; intros c Hc.
    pose proof (g1_cauchy (nth c data []) (nth c model [])
                  (Spec.Delta phase DM P (nth c freqs inf_freq) nu0)
                  (Hrows c Hc)) as Hcs.
    pose proof (Hp c Hc) as Hpc; pose proof (Herrs c Hc) as Hec.
    rewrite portrait_p_nth in Hpc |- *.
    set (g := Spec.g1 _ _ _) in *.
    set (pm := Spec.power (nth c model [])) in *.
    set (pd := Spec.power (nth c data [])) in *.
    set (e := nth c errs 0) in *.
    replace (g ^ 2) with (g * g) by ring.
    apply (Rmult_le_reg_r pm); [exact Hpc|].
    replace (g * g * e / pm * pm) with (e * (g * g)) by (field; lra).
    replace (e * pd * pm) with (e * (pd * pm)) by ring.
    apply Rmult_le_compat_l; assumption.
  - assert (H0 : 0 <= Spec.Rsum (length freqs)
                        (fun c => Spec.g1 (nth c data []) (nth c model [])
                                    (Spec.Delta phase DM P
                                       (nth c freqs inf_freq) nu0) ^ 2
                                  * nth c errs 0 / nth c (portrait_p model) 0)).
    { apply Rsum_nonneg; intros c Hc.
      pose proof (Hp c Hc) as Hpc; pose proof (Herrs c Hc) as Hec.
      apply Rmult_le_pos; [apply Rmult_le_pos; [|exact Hec]|].
      - apply pow2_ge_0.
      - left; apply Rinv_0_lt_compat; exact Hpc. }
    lra.
Qed.

(** X11 on one channel with two harmonics. *)
Lemma fit_portrait_function_bounds_witness :
  0 <= fit_portrait_function (1/4, 2) [[mkC 1 0; mkC 0 1]]
         (portrait_p [[mkC 1 0; mkC 0 1]]) [[mkC 3 0; mkC 1 2]]
         (portrait_d [1/2] [[mkC 3 0; mkC 1 2]]) [1/2] (Some 1)
         (Some [MHz 1400]) inf_freq
    <= portrait_d [1/2] [[mkC 3 0; mkC 1 2]].
Proof.
  apply (fit_portrait_function_bounds [[mkC 3 0; mkC 1 2]]
           [[mkC 1 0; mkC 0 1]] [1/2] (1/4) 2 1 [MHz 1400] inf_freq).
  - lra.
  - constructor; [|constructor].
    intros H; injection H as H; lra.
  - discriminate.
  - reflexivity.
  - reflexivity.
  - intros c Hc; simpl in Hc.
    destruct c as [|c]; [reflexivity | lia].
  - intros c Hc; simpl in Hc.
    destruct c as [|c]; [simpl; lra | lia].
  - intros c Hc; simpl in Hc.
    destruct c as [|c]; [|lia].
    unfold portrait_p, np_csum; simpl; lra.
Defined.

(** ** [DM_delay] *)

(** X12.  For a positive DM, a lower frequency arrives later: between
    [0 < f1 < f2] the delay of [f1] relative to [f2] is positive, in
    seconds and in turns of a positive period, and it is smaller than the
    delay relative to infinite frequency. *)
Theorem DM_delay_lower_is_later (DM f1 f2 P : R) :
  0 < DM -> 0 < f1 -> f1 < f2 -> 0 < P ->
  0 < DM_delay DM (MHz f1) (MHz f2) None
  /\ 0 < DM_delay DM (MHz f1) (MHz f2) (Some P)
  /\ DM_delay DM (MHz f1) (MHz f2) None
     < DM_delay DM (MHz f1) inf_freq None.
Proof.
  intros HDM Hf1 Hlt HP.
  pose proof Dconst_pos as HD.
  assert (Hsq : f1 * f1 < f2 * f2) by nra.
  assert (Hp1 : 0 < f1 * f1) by nra.
  assert (Hp2 : 0 < f2 * f2) by nra.
  assert (Hinv : / (f2 * f2) < / (f1 * f1))
    by (apply Rinv_lt_contravar;
        [apply Rmult_lt_0_compat; assumption | exact Hsq]).
  assert (Hpos2 : 0 < / (f2 * f2)) by (apply Rinv_0_lt_compat; nra).
  assert (Hk : 0 < Dconst * DM) by (apply Rmult_lt_0_compat; assumption).
  assert (H0 : 0 < Dconst * DM * (pow_m2 f1 - pow_m2 f2))
    by (unfold pow_m2; apply Rmult_lt_0_compat; lra).
  unfold DM_delay; cbn [freq_pow_m2]; cbv zeta.
  split; [exact H0|split].
  - destruct (Req_dec_T P 0) as [HP0|_]; [lra|].
    apply Rdiv_lt_0_compat; assumption.
  - unfold pow_m2 in *; nra.
Qed.

(** X12 at DM 10, between 400 and 800 MHz, for a period of 5 ms. *)
Lemma DM_delay_lower_is_later_witness :
  0 < DM_delay 10 (MHz 400) (MHz 800) None
  /\ 0 < DM_delay 10 (MHz 400) (MHz 800) (Some (5/1000))
  /\ DM_delay 10 (MHz 400) (MHz 800) None
     < DM_delay 10 (MHz 400) inf_freq None.
Proof.
  apply (DM_delay_lower_is_later 10 400 800 (5/1000)); lra.
Defined.

(** X13.  The delay that [fit_portrait_function] tries and that
    [rotate_portrait] applies in a channel is the phase plus
    [DM_delay(DM, freq, nu0, P)]; the delay in turns times the period is
    the delay in seconds, and a period of [0.0] leaves it in seconds. *)
Theorem DM_delay_is_channel_delay (phase DM P : R) (f nu0 : freq) :
  P <> 0 ->
  chan_delay phase (Dconst * DM / P) f nu0
  = phase + DM_delay DM f nu0 (Some P)
  /\ (forall (freqs : list freq) (nn : nat) (row : list C),
        nth_error freqs nn = Some f ->
        rotate_row phase (Some DM) (Some P) (Some freqs) nu0 nn row
        = Py.Return
            (vmul row
               (phasor (length row)
                  (phase + DM_delay DM f nu0 (Some P)))))
  /\ DM_delay DM f nu0 (Some P) * P = DM_delay DM f nu0 None
  /\ DM_delay DM f nu0 (Some 0) = DM_delay DM f nu0 None.
Proof.
  intros HP.
  assert (Hd : DM_delay DM f nu0 (Some P)
               = Dconst * DM * (freq_pow_m2 f - freq_pow_m2 nu0) / P).
  { unfold DM_delay; cbv zeta.
    destruct (Req_dec_T P 0) as [H0|_]; [contradiction|reflexivity]. }
  split; [|split; [|split]].
  - rewrite Hd; unfold chan_delay; field; exact HP.
  - intros freqs nn row Hnn.
    cbn [rotate_row]; rewrite Hnn.
    do 3 f_equal.
    rewrite Hd; unfold chan_delay; field; exact HP.
  - rewrite Hd; unfold DM_delay; field; exact HP.
  - unfold DM_delay; cbv zeta.
    destruct (Req_dec_T 0 0) as [_|H0]; [reflexivity|].
    contradiction H0; reflexivity.
Qed.

(** X13 at 1400 MHz and a period of 5 ms. *)
Lemma DM_delay_is_channel_delay_witness :
  chan_delay (1/4) (Dconst * 10 / (5/1000)) (MHz 1400) inf_freq
  = 1/4 + DM_delay 10 (MHz 1400) inf_freq (Some (5/1000))
  /\ (forall (freqs : list freq) (nn : nat) (row : list C),
        nth_error freqs nn = Some (MHz 1400) ->
        rotate_row (1/4) (Some 10) (Some (5/1000)) (Some freqs) inf_freq nn
          row
        = Py.Return
            (vmul row
               (phasor (length row)
                  (1/4 + DM_delay 10 (MHz 1400) inf_freq (Some (5/1000))))))
  /\ DM_delay 10 (MHz 1400) inf_freq (Some (5/1000)) * (5/1000)
     = DM_delay 10 (MHz 1400) inf_freq None
  /\ DM_delay 10 (MHz 1400) inf_freq (Some 0)
     = DM_delay 10 (MHz 1400) inf_freq None.
Proof.
  apply (DM_delay_is_channel_delay (1/4) 10 (5/1000) (MHz 1400) inf_freq).
  lra.
Defined.

(** ** Power laws: the integral and the equal-power frequencies *)

Lemma fpow_inv_base (x y : R) : 0 < x -> fpow (/ x) y = fpow x (- y).
Proof.
  intros Hx; unfold fpow, Rpower.
  rewrite ln_Rinv by exact Hx; f_equal; ring.
Qed.

Lemma powlaw_split (nu nu0 A alpha : R) :
  0 < nu -> 0 < nu0 ->
  powlaw nu nu0 A alpha = A * fpow nu0 (- alpha) * fpow nu alpha.
Proof.
  intros Hnu Hnu0; unfold powlaw, Rdiv.
  assert (Hi : 0 < / nu0) by (apply Rinv_0_lt_compat; exact Hnu0).
  unfold fpow at 1; rewrite <- Rpower_mult_distr by assumption.
  fold (fpow nu alpha); fold (fpow (/ nu0) alpha).
  rewrite fpow_inv_base by exact Hnu0; ring.
Qed.

Lemma dpl_ln_ratio (nu1 x : R) :
  0 < nu1 -> 0 < x ->
  derivable_pt_lim (fun y => ln (y / nu1)) x (/ x).
Proof.
  intros H1 Hx.
  assert (Hq : 0 < x / nu1) by (apply Rdiv_lt_0_compat; assumption).
  apply (dpl_val _ _ (/ (x / nu1) * (/ nu1 * 1))); [field; lra|].
  apply (derivable_pt_lim_comp (fun y => y / nu1) ln).
  - apply (dpl_ext (fun y => / nu1 * y)); [intros y; unfold Rdiv; ring|].
    apply dpl_scal, derivable_pt_lim_id.
  - apply derivable_pt_lim_ln; exact Hq.
Qed.

(** X14.  For positive frequencies, [powlaw_integral] is zero on an empty
    band and its derivative with respect to the upper frequency is
    [powlaw] there, for every spectral index, [-1] included: it is the
    integral of the power law. *)
Theorem powlaw_integral_antiderivative (nu2 nu1 nu0 A alpha : R) :
  0 < nu2 -> 0 < nu1 -> 0 < nu0 ->
  powlaw_integral nu1 nu1 nu0 A alpha = 0
  /\ derivable_pt_lim (fun x => powlaw_integral x nu1 nu0 A alpha) nu2
       (powlaw nu2 nu0 A alpha).
Proof.
  intros H2 H1 H0; unfold powlaw_integral; cbv zeta.
  destruct (Req_dec_T alpha (-1)) as [Ha|Ha].
  - split.
    + unfold Rdiv; rewrite Rinv_r, ln_1 by lra; ring.
    + apply (dpl_val _ _ (A * nu0 * / nu2)).
      * rewrite powlaw_split, Ha by assumption.
        replace (- -1) with 1 by ring.
        replace (-1) with (Ropp 1) by ring.
        unfold fpow; rewrite Rpower_Ropp, !Rpower_1 by assumption.
        reflexivity.
      * apply dpl_scal, dpl_ln_ratio; assumption.
  - split; [ring|].
    assert (Hne : 1 + alpha <> 0) by lra.
    apply (dpl_val _ _ (A * fpow nu0 (- alpha) / (1 + alpha)
                        * ((1 + alpha) * fpow nu2 (1 + alpha - 1) - 0))).
    + rewrite powlaw_split by assumption.
      replace (1 + alpha - 1) with alpha by ring.
      field; exact Hne.
    + apply dpl_scal, dpl_minus; [|apply dpl_const].
      apply derivable_pt_lim_power; exact H2.
Qed.

(** X14 for a flat spectrum between 1 and 2. *)
Lemma powlaw_integral_antiderivative_witness :
  powlaw_integral 1 1 1 1 0 = 0
  /\ derivable_pt_lim (fun x => powlaw_integral x 1 1 1 0) 2
       (powlaw 2 1 1 0).
Proof.
  apply (powlaw_integral_antiderivative 2 1 1 1 0); lra.
Defined.



Lemma linspace_length (a b : R) (num : nat) :
  length (linspace a b num) = num.
Proof.
  destruct num as [|[|num]]; [reflexivity | reflexivity |].
  unfold linspace; rewrite length_map, length_seq; reflexivity.
Qed.

Lemma linspace_nth (a b : R) (N n : nat) :
  (0 < N)%nat -> (n <= N)%nat ->
  nth n (linspace a b (N + 1)) 0 = a + INR n * ((b - a) / INR N).
Proof.
  intros HN Hn.
  rewrite Nat.add_1_r.
  destruct N as [|N]; [lia|].
  unfold linspace.
  rewrite nth_map_seq by lia.
  replace (S (S N) - 1)%nat with (S N) by lia.
  reflexivity.
Qed.

Lemma nth_map_in_range {A B : Type} (f : A -> B) (l : list A) (n : nat)
    (da : A) (db : B) :
  (n < length l)%nat -> nth n (map f l) db = f (nth n l da).
Proof.
  intros Hn.
  rewrite (nth_indep _ db (f da)) by (rewrite length_map; exact Hn).
  apply map_nth.
Qed.

Lemma fpow_pos (x y : R) : 0 < fpow x y.
Proof. unfold fpow, Rpower; apply exp_pos. Qed.

Lemma fpow_root (x y : R) : 0 < x -> y <> 0 -> fpow (fpow x (/ y)) y = x.
Proof.
  intros Hx Hy; unfold fpow.
  rewrite Rpower_mult, Rinv_l, Rpower_1 by assumption; reflexivity.
Qed.

Lemma between_pos (u v t : R) :
  0 < u -> 0 < v -> 0 <= t <= 1 -> 0 < u + t * (v - u).
Proof.
  intros Hu Hv [Ht0 Ht1].
  destruct (Rle_dec u v) as [Huv|Huv]; [nra|].
  replace (u + t * (v - u)) with (v + (1 - t) * (u - v)) by ring.
  nra.
Qed.

Lemma step_fraction (N n : nat) :
  (0 < N)%nat -> (n <= N)%nat -> 0 <= INR n / INR N <= 1.
Proof.
  intros HN Hn.
  assert (HNR : 0 < INR N) by (apply lt_0_INR; exact HN).
  pose proof (pos_INR n) as H0.
  apply le_INR in Hn.
  split.
  - apply Rmult_le_pos; [exact H0 | left; apply Rinv_0_lt_compat; exact HNR].
  - apply (Rmult_le_reg_r (INR N)); [exact HNR|].
    unfold Rdiv; rewrite Rmult_assoc, Rinv_l by lra; lra.
Qed.

Lemma ln_ratio (x y : R) : 0 < x -> 0 < y -> ln (x / y) = ln x - ln y.
Proof.
  intros Hx Hy; unfold Rdiv.
  rewrite ln_mult, ln_Rinv by (try apply Rinv_0_lt_compat; assumption).
  ring.
Qed.

(** The frequencies that [powlaw_freqs] returns, one by one. *)
Lemma powlaw_freqs_nth (lo hi alpha : R) (N n : nat) :
  (0 < N)%nat -> (n <= N)%nat ->
  nth n (powlaw_freqs lo hi N alpha false) 0
  = if Req_dec_T alpha (-1)
    then exp (ln lo + INR n * ((ln hi - ln lo) / INR N))
    else fpow (fpow lo (1 + alpha)
               + INR n * ((fpow hi (1 + alpha) - fpow lo (1 + alpha))
                          / INR N))
           (/ (1 + alpha)).
Proof.
  intros HN Hn; unfold powlaw_freqs; cbv zeta.
  destruct (Req_dec_T alpha (-1)) as [_|_].
  - rewrite (nth_map_in_range exp _ n 0 0)
      by (rewrite linspace_length; lia).
    rewrite linspace_nth by assumption; reflexivity.
  - rewrite (nth_map_in_range _ _ n 0 0) by (rewrite linspace_length; lia).
    rewrite linspace_nth by assumption; reflexivity.
Qed.



(** X17.  For positive [lo] and [hi] and at least one chunk,
    [powlaw_freqs] returns [N + 1] frequencies that start at [lo] and end
    at [hi]; with [mid=True] it returns [N] frequencies, each of them the
    mean of two neighbours of the former. *)
Theorem powlaw_freqs_ends (lo hi alpha : R) (N : nat) :
  0 < lo -> 0 < hi -> (0 < N)%nat ->
  length (powlaw_freqs lo hi N alpha false) = S N
  /\ nth 0 (powlaw_freqs lo hi N alpha false) 0 = lo
  /\ nth N (powlaw_freqs lo hi N alpha false) 0 = hi
  /\ length (powlaw_freqs lo hi N alpha true) = N
  /\ (forall n, (n < N)%nat ->
        nth n (powlaw_freqs lo hi N alpha true) 0
        = (nth n (powlaw_freqs lo hi N alpha false) 0
           + nth (S n) (powlaw_freqs lo hi N alpha false) 0) / 2).
Proof.
  intros Hlo Hhi HN.
  assert (HNR : 0 < INR N) by (apply lt_0_INR; exact HN).
  split; [|split; [|split; [|split]]].
  - unfold powlaw_freqs; cbv zeta.
    destruct (Req_dec_T alpha (-1));
      rewrite length_map, linspace_length; lia.
  - rewrite powlaw_freqs_nth by lia.
    destruct (Req_dec_T alpha (-1)) as [Ha|Ha].
    + simpl INR; rewrite Rmult_0_l, Rplus_0_r; apply exp_ln; exact Hlo.
    + simpl INR; rewrite Rmult_0_l, Rplus_0_r.
      unfold fpow; rewrite Rpower_mult, Rinv_r, Rpower_1 by lra.
      reflexivity.
  - rewrite powlaw_freqs_nth by lia.
    destruct (Req_dec_T alpha (-1)) as [Ha|Ha].
    + replace (ln lo + INR N * ((ln hi - ln lo) / INR N)) with (ln hi)
        by (field; lra).
      apply exp_ln; exact Hhi.
    + replace (fpow lo (1 + alpha)
               + INR N * ((fpow hi (1 + alpha) - fpow lo (1 + alpha))
                          / INR N))
        with (fpow hi (1 + alpha)) by (field; lra).
      unfold fpow; rewrite Rpower_mult, Rinv_r, Rpower_1 by lra.
      reflexivity.
  - unfold powlaw_freqs; cbv zeta.
    rewrite length_map, length_seq; reflexivity.
  - intros n Hn.
    unfold powlaw_freqs at 1; cbv zeta.
    rewrite nth_map_seq by exact Hn.
    unfold powlaw_freqs; cbv zeta; field.
Qed.

(** X17 on the band 1..2 cut in two, for a flat spectrum. *)
Lemma powlaw_freqs_ends_witness :
  length (powlaw_freqs 1 2 2 0 false) = 3%nat
  /\ nth 0 (powlaw_freqs 1 2 2 0 false) 0 = 1
  /\ nth 2 (powlaw_freqs 1 2 2 0 false) 0 = 2
  /\ length (powlaw_freqs 1 2 2 0 true) = 2%nat
  /\ (forall n, (n < 2)%nat ->
        nth n (powlaw_freqs 1 2 2 0 true) 0
        = (nth n (powlaw_freqs 1 2 2 0 false) 0
           + nth (S n) (powlaw_freqs 1 2 2 0 false) 0) / 2).
Proof.
  apply (powlaw_freqs_ends 1 2 0 2); [lra | lra | lia].
Defined.

(** ** [gaussian_profile]: the range of the samples *)

Lemma list_set_length (l : list R) (i : nat) (v : R) :
  length (list_set l i v) = length l.
Proof.
  revert i; induction l as [|x l IH]; intros [|i]; simpl; auto.
Qed.

Lemma np_put_length (a : list R) (inds : list nat) (vals : list R) :
  length (np_put a inds vals) = length a.
Proof.
  revert a vals; induction inds as [|i inds IH]; intros a [|v vals]; simpl;
    try reflexivity.
  rewrite IH; apply list_set_length.
Qed.

Lemma list_set_Forall (Q : R -> Prop) (l : list R) (i : nat) (v : R) :
  Forall Q l -> Q v -> Forall Q (list_set l i v).
Proof.
  intros Hl Hv; revert i; induction Hl as [|x l Hx Hl IH]; intros [|i];
    simpl; constructor; auto.
Qed.

Lemma np_put_Forall (Q : R -> Prop) (a : list R) (inds : list nat)
    (vals : list R) :
  Forall Q a -> Forall Q vals -> Forall Q (np_put a inds vals).
Proof.
  revert a vals; induction inds as [|i inds IH]; intros a vals Ha Hv;
    destruct vals as [|v vals]; simpl; try exact Ha.
  apply IH; [apply list_set_Forall|]; inversion Hv; assumption.
Qed.

Lemma zeros_Forall (Q : R -> Prop) (N : nat) : Q 0 -> Forall Q (zeros N).
Proof.
  intros H0; unfold zeros; induction N; simpl; constructor; auto.
Qed.

Lemma sigma_of_pos (wid : R) : 0 < wid -> 0 < Gaussian.sigma_of wid.
Proof.
  intros Hw; unfold Gaussian.sigma_of.
  pose proof sqrt_2ln2_gt_1 as Hs.
  apply Rdiv_lt_0_compat; lra.
Qed.

Lemma raw_profile_length (N : nat) (loc wid : R) :
  length (Gaussian.raw_profile N loc wid) = N.
Proof.
  unfold Gaussian.raw_profile; cbv zeta.
  rewrite np_put_length; unfold zeros; apply repeat_length.
Qed.

Lemma raw_profile_nonneg (N : nat) (loc wid : R) :
  0 < wid -> Forall (fun x => 0 <= x) (Gaussian.raw_profile N loc wid).
Proof.
  intros Hw; unfold Gaussian.raw_profile; cbv zeta.
  apply np_put_Forall; [apply zeros_Forall; lra|].
  apply Forall_map, Forall_forall; intros z _.
  pose proof (sigma_of_pos wid Hw) as Hs.
  assert (Hq : 0 < sqrt (2 * PI))
    by (apply sqrt_lt_R0; pose proof PI_RGT_0; lra).
  left; apply Rdiv_lt_0_compat;
    [apply exp_pos | apply Rmult_lt_0_compat; assumption].
Qed.

Lemma fold_Rmax_ge_init (l : list R) (x : R) : x <= fold_left Rmax l x.
Proof.
  revert x; induction l as [|y l IH]; intros x; simpl; [lra|].
  eapply Rle_trans; [apply (Rmax_l x y) | apply IH].
Qed.

Lemma fold_Rmax_ge (l : list R) (x : R) :
  Forall (fun y => y <= fold_left Rmax l x) l.
Proof.
  revert x; induction l as [|y l IH]; intros x; simpl; constructor.
  - eapply Rle_trans; [apply (Rmax_r x y) | apply fold_Rmax_ge_init].
  - apply IH.
Qed.

Lemma fold_Rmax_In (l : list R) (x : R) : In (fold_left Rmax l x) (x :: l).
Proof.
  revert x; induction l as [|y l IH]; intros x; simpl; [left; reflexivity|].
  destruct (IH (Rmax x y)) as [H|H].
  - unfold Rmax in H at 1; destruct (Rle_dec x y);
      [right; left | left]; exact H.
  - right; right; exact H.
Qed.

(** The largest entry of a non-empty array bounds every entry and is one
    of them. *)
Lemma np_max_spec (l : list R) (mx : R) :
  np_max l = Some mx -> Forall (fun y => y <= mx) l /\ In mx l.
Proof.
  destruct l as [|x l]; [discriminate|].
  intros H; injection H as <-; split.
  - constructor; [apply fold_Rmax_ge_init | apply fold_Rmax_ge].
  - apply fold_Rmax_In.
Qed.

Lemma map_Rabs_nonneg (l : list R) :
  Forall (fun x => 0 <= x) l -> map Rabs l = l.
Proof.
  induction 1 as [|x l Hx _ IH]; simpl; [reflexivity|].
  rewrite IH, Rabs_right by lra; reflexivity.
Qed.

Lemma all_zero_zeros (l : list R) :
  Forall (fun x => x = 0) l -> l = zeros (length l).
Proof.
  induction 1 as [|x l Hx _ IH]; simpl; [reflexivity|].
  unfold zeros in *; simpl; rewrite Hx, <- IH; reflexivity.
Qed.

(** With a positive width, on at least one bin. *)
Lemma gaussian_body_range (N : nat) (loc wid : R) :
  (0 < N)%nat -> 0 < wid ->
  exists out,
    Gaussian.gaussian_body N loc wid false = Gaussian.Profile out
    /\ length out = N
    /\ Forall (fun x => 0 <= x <= 1) out
    /\ (out = zeros N \/ In 1 out).
Proof.
  intros HN Hw.
  unfold Gaussian.gaussian_body; cbv zeta.
  pose proof (raw_profile_nonneg N loc wid Hw) as Hpos.
  pose proof (raw_profile_length N loc wid) as Hlen.
  set (raw := Gaussian.raw_profile N loc wid) in *.
  rewrite (map_Rabs_nonneg raw Hpos).
  destruct (np_max raw) as [mx|] eqn:Hmx.
  2:{ destruct raw; [simpl in Hlen; lia | discriminate Hmx]. }
  destruct (np_max_spec raw mx Hmx) as [Hle Hin].
  rewrite Forall_forall in Hpos, Hle.
  destruct (Req_dec_T mx 0) as [H0|H0].
  - exists raw; repeat split; [exact Hlen | |].
    + apply Forall_forall; intros x Hx.
      pose proof (Hpos x Hx); pose proof (Hle x Hx); lra.
    + left; rewrite <- Hlen; apply all_zero_zeros.
      apply Forall_forall; intros x Hx.
      pose proof (Hpos x Hx); pose proof (Hle x Hx); lra.
  - assert (Hmxpos : 0 < mx) by (pose proof (Hpos mx Hin); lra).
    exists (map (fun x => x / mx) raw); repeat split.
    + rewrite length_map; exact Hlen.
    + apply Forall_map, Forall_forall; intros x Hx.
      pose proof (Hpos x Hx); pose proof (Hle x Hx).
      split.
      * apply Rmult_le_pos; [lra | left; apply Rinv_0_lt_compat; lra].
      * apply (Rmult_le_reg_r mx); [exact Hmxpos|].
        unfold Rdiv; rewrite Rmult_assoc, Rinv_l by lra; lra.
    + right; apply in_map_iff; exists mx; split; [field; lra | exact Hin].
Qed.

Lemma gaussian_default_nonpositive (N : nat) (loc wid : R) :
  wid <= 0 ->
  Gaussian.gaussian_profile_default N loc wid = Gaussian.Profile (zeros N).
Proof.
  intros Hw.
  unfold Gaussian.gaussian_profile_default, Gaussian.gaussian_profile.
  destruct (Rgt_dec wid 0) as [Hgt|_]; [lra|].
  destruct (Req_dec_T wid 0) as [_|Hne]; [reflexivity|].
  destruct (Rlt_dec wid 0) as [_|Hnlt]; [reflexivity | lra].
Qed.

Lemma gaussian_default_positive (N : nat) (loc wid : R) :
  0 < wid ->
  Gaussian.gaussian_profile_default N loc wid
  = Gaussian.gaussian_body N loc wid false.
Proof.
  intros Hw.
  unfold Gaussian.gaussian_profile_default, Gaussian.gaussian_profile.
  destruct (Rgt_dec wid 0) as [_|Hn]; [reflexivity | lra].
Qed.

(** X18.  On a grid of at least one bin, [gaussian_profile] with its
    default options returns [N] samples between [0] and [1], and either
    all of them are zero or one of them is [1]: the peak amplitude of a
    profile that is not zero is [1]. *)
Theorem gaussian_profile_range (N : nat) (loc wid : R) :
  (0 < N)%nat ->
  exists out,
    Gaussian.gaussian_profile_default N loc wid = Gaussian.Profile out
    /\ length out = N
    /\ Forall (fun x => 0 <= x <= 1) out
    /\ (out = zeros N \/ In 1 out).
Proof.
  intros HN.
  destruct (Rle_lt_dec wid 0) as [Hw|Hw].
  - rewrite gaussian_default_nonpositive by exact Hw.
    exists (zeros N); repeat split.
    + unfold zeros; apply repeat_length.
    + apply zeros_Forall; lra.
    + left; reflexivity.
  - rewrite gaussian_default_positive by exact Hw.
    apply gaussian_body_range; assumption.
Qed.

(** X18 on four bins. *)
Lemma gaussian_profile_range_witness :
  exists out,
    Gaussian.gaussian_profile_default 4 (1/3) (1/10) = Gaussian.Profile out
    /\ length out = 4%nat
    /\ Forall (fun x => 0 <= x <= 1) out
    /\ (out = zeros 4 \/ In 1 out).
Proof.
  apply (gaussian_profile_range 4 (1/3) (1/10)); lia.
Defined.

(** ** [gen_gaussian_profile] *)

Lemma ngauss_nat (params : list R) :
  Z.to_nat ((Z.of_nat (length params) - 1) / 3)
  = ((length params - 1) / 3)%nat.
Proof.
  destruct params as [|p0 rest]; [reflexivity|].
  replace (Z.of_nat (length (p0 :: rest)) - 1)%Z
    with (Z.of_nat (length (p0 :: rest) - 1)) by (simpl length; lia).
  change 3%Z with (Z.of_nat 3).
  rewrite <- Nat2Z.inj_div; apply Nat2Z.id.
Qed.

Lemma add_scaled_length (model : list R) (amp : R) (g : list R) :
  length g = length model -> length (add_scaled model amp g) = length model.
Proof.
  intros H; unfold add_scaled.
  rewrite length_map, length_combine, H; apply Nat.min_id.
Qed.

Lemma add_scaled_zeros (model : list R) (amp : R) (N : nat) :
  length model = N -> add_scaled model amp (zeros N) = model.
Proof.
  intros <-; unfold add_scaled, zeros.
  induction model as [|x model IH]; simpl; [reflexivity|].
  rewrite IH; f_equal; ring.
Qed.

Lemma add_scaled_lower (lo : R) (model : list R) (amp : R) (g : list R) :
  0 <= amp -> Forall (fun x => lo <= x) model ->
  Forall (fun x => 0 <= x) g ->
  Forall (fun x => lo <= x) (add_scaled model amp g).
Proof.
  intros Ha Hm; revert g; unfold add_scaled.
  induction Hm as [|x model Hx _ IH]; intros g Hg; [constructor|].
  destruct Hg as [|y g Hy Hg]; simpl; constructor.
  - cbn [fst snd]; nra.
  - apply IH; exact Hg.
Qed.

Lemma fold_add_component_raise (params : list R) (N : nat) (l : list nat)
    (e : Py.exn) :
  fold_left (add_component params N) l (Py.Raise e) = Py.Raise e.
Proof. induction l as [|ii l IH]; simpl; [reflexivity | exact IH]. Qed.

(** X19.  When no component has a positive width, [gen_gaussian_profile]
    returns the constant profile [params[0]], on any number of bins; in
    particular for [params] of length one, two or three, where there is
    no component at all. *)
Theorem gen_gaussian_profile_no_width (p0 : R) (rest : list R) (N : nat) :
  (forall ii, (ii < length rest / 3)%nat ->
     nth (2 + ii * 3) (p0 :: rest) 0 <= 0) ->
  gen_gaussian_profile (p0 :: rest) N = Py.Return (repeat p0 N).
Proof.
  intros Hw; unfold gen_gaussian_profile; cbv zeta.
  rewrite ngauss_nat.
  replace (length (p0 :: rest) - 1)%nat with (length rest)
    by (simpl; lia).
  replace (map (fun z => z + p0) (zeros N)) with (repeat p0 N).
  2:{ unfold zeros; induction N as [|N IH]; simpl; [reflexivity|].
      rewrite <- IH; f_equal; ring. }
  assert (Hfold : forall l,
            (forall ii, In ii l -> (ii < length rest / 3)%nat) ->
            fold_left (add_component (p0 :: rest) N) l
              (Py.Return (repeat p0 N))
            = Py.Return (repeat p0 N)).
  { induction l as [|ii l IH]; intros Hl; [reflexivity|].
    cbn [fold_left]; unfold add_component at 2; cbn [Py.bind].
    rewrite gaussian_default_nonpositive
      by (apply Hw, Hl; left; reflexivity).
    rewrite add_scaled_zeros by apply repeat_length.
    apply IH; intros jj Hjj; apply Hl; right; exact Hjj. }
  apply Hfold; intros ii Hii; apply in_seq in Hii; lia.
Qed.

(** X19 on one component of width zero. *)
Lemma gen_gaussian_profile_no_width_witness :
  gen_gaussian_profile [5; 1/2; 0; 3] 4 = Py.Return (repeat 5 4).
Proof.
  apply (gen_gaussian_profile_no_width 5 [1/2; 0; 3] 4).
  intros ii Hii; simpl in Hii.
  destruct ii as [|ii]; [simpl; lra | lia].
Defined.

(** X20.  On at least one bin, [gen_gaussian_profile] returns a model of
    [N] samples for every non-empty [params]; when no amplitude is
    negative, no sample is below the DC level [params[0]].  An empty
    [params] raises [IndexError]. *)
Theorem gen_gaussian_profile_returns (p0 : R) (rest : list R) (N : nat) :
  (0 < N)%nat ->
  gen_gaussian_profile [] N = Py.Raise Py.IndexError
  /\ exists model,
       gen_gaussian_profile (p0 :: rest) N = Py.Return model
       /\ length model = N
       /\ ((forall ii, (ii < length rest / 3)%nat ->
              0 <= nth (3 + ii * 3) (p0 :: rest) 0) ->
           Forall (fun x => p0 <= x) model).
Proof.
  intros HN; split; [reflexivity|].
  unfold gen_gaussian_profile; cbv zeta.
  rewrite ngauss_nat.
  replace (length (p0 :: rest) - 1)%nat with (length rest)
    by (simpl; lia).
  set (HA := forall ii, (ii < length rest / 3)%nat ->
                        0 <= nth (3 + ii * 3) (p0 :: rest) 0).
  assert (Hfold : forall l m,
            (forall ii, In ii l -> (ii < length rest / 3)%nat) ->
            length m = N -> (HA -> Forall (fun x => p0 <= x) m) ->
            exists model,
              fold_left (add_component (p0 :: rest) N) l (Py.Return m)
              = Py.Return model
              /\ length model = N
              /\ (HA -> Forall (fun x => p0 <= x) model)).
  { induction l as [|ii l IH]; intros m Hl Hlen Hlow.
    - exists m; repeat split; assumption.
    - cbn [fold_left]; unfold add_component at 2; cbn [Py.bind].
      set (loc := nth (1 + ii * 3) (p0 :: rest) 0).
      set (wid := nth (2 + ii * 3) (p0 :: rest) 0).
      set (amp := nth (3 + ii * 3) (p0 :: rest) 0).
      assert (Hg : exists g,
                 Gaussian.gaussian_profile_default N loc wid
                 = Gaussian.Profile g
                 /\ length g = N /\ Forall (fun x => 0 <= x) g).
      { destruct (Rle_lt_dec wid 0) as [Hw|Hw].
        - rewrite gaussian_default_nonpositive by exact Hw.
          exists (zeros N); repeat split;
            [unfold zeros; apply repeat_length | apply zeros_Forall; lra].
        - rewrite gaussian_default_positive by exact Hw.
          destruct (gaussian_body_range N loc wid HN Hw)
            as [g [Hg [Hgl [Hgr _]]]].
          exists g; repeat split; [exact Hg | exact Hgl |].
          eapply Forall_impl; [|exact Hgr]; intros x Hx; lra. }
      destruct Hg as [g [Hg [Hgl Hgpos]]]; rewrite Hg.
      apply IH.
      + intros jj Hjj; apply Hl; right; exact Hjj.
      + rewrite add_scaled_length; lia.
      + intros Hamp; apply add_scaled_lower;
          [apply Hamp, Hl; left; reflexivity | apply Hlow; exact Hamp
           | exact Hgpos]. }
  apply Hfold.
  - intros ii Hii; apply in_seq in Hii; lia.
  - rewrite length_map; unfold zeros; apply repeat_length.
  - intros _; apply Forall_map, zeros_Forall; lra.
Qed.

(** X20 on four bins and one component. *)
Lemma gen_gaussian_profile_returns_witness :
  gen_gaussian_profile [] 4 = Py.Raise Py.IndexError
  /\ exists model,
       gen_gaussian_profile [5; 1/2; 1/10; 3] 4 = Py.Return model
       /\ length model = 4%nat
       /\ ((forall ii, (ii < length [1/2; 1/10; 3] / 3)%nat ->
              0 <= nth (3 + ii * 3) [5; 1/2; 1/10; 3] 0) ->
           Forall (fun x => 5 <= x) model).
Proof.
  apply (gen_gaussian_profile_returns 5 [1/2; 1/10; 3] 4); lia.
Defined.

Lemma fold_left_ext_in {A B : Type} (f g : A -> B -> A) (l : list B)
    (a : A) :
  (forall x y, In y l -> f x y = g x y) ->
  fold_left f l a = fold_left g l a.
Proof.
  revert a; induction l as [|y l IH]; intros a H; simpl; [reflexivity|].
  rewrite H by (left; reflexivity).
  apply IH; intros x y' Hy'; apply H; right; exact Hy'.
Qed.

(** X21.  Values after the last complete group of three are never read:
    one or two more values at the end of [params] leave the model as it
    is. *)
Theorem gen_gaussian_profile_trailing (params extra : list R) (N M : nat) :
  length params = (1 + 3 * M)%nat -> (length extra < 3)%nat ->
  gen_gaussian_profile (params ++ extra) N = gen_gaussian_profile params N.
Proof.
  intros Hlen Hex.
  destruct params as [|p0 rest]; [simpl in Hlen; lia|].
  unfold gen_gaussian_profile; cbv zeta.
  rewrite !ngauss_nat.
  assert (H1 : ((length ((p0 :: rest) ++ extra) - 1) / 3 = M)%nat).
  { rewrite length_app, Hlen.
    replace (1 + 3 * M + length extra - 1)%nat
      with (M * 3 + length extra)%nat by lia.
    rewrite Nat.div_add_l, Nat.div_small by lia; lia. }
  assert (H2 : ((length (p0 :: rest) - 1) / 3 = M)%nat).
  { rewrite Hlen.
    replace (1 + 3 * M - 1)%nat with (M * 3)%nat by lia.
    apply Nat.div_mul; lia. }
  rewrite H1, H2.
  cbn [app].
  apply fold_left_ext_in; intros m ii Hii; apply in_seq in Hii.
  unfold add_component.
  change (p0 :: rest ++ extra) with ((p0 :: rest) ++ extra).
  rewrite !(app_nth1 (p0 :: rest) extra) by (rewrite Hlen; lia).
  reflexivity.
Qed.

(** X21 on one component and two more values. *)
Lemma gen_gaussian_profile_trailing_witness :
  gen_gaussian_profile ([5; 1/2; 1/10; 3] ++ [7; 8]) 4
  = gen_gaussian_profile [5; 1/2; 1/10; 3] 4.
Proof.
  apply (gen_gaussian_profile_trailing [5; 1/2; 1/10; 3] [7; 8] 4 1);
    simpl; lia.
Defined.

(** ** The Wiener filter and the brick wall closest to it *)

(** X22.  For a non-empty profile and a noise level that is not zero,
    [wiener_filter] returns one weight per harmonic, [len(prof)/2 + 1] of
    them, each at least [0] and less than [1]. *)
Theorem wiener_filter_range (prof : list R) (noise : R) :
  prof <> [] -> noise <> 0 ->
  exists wf,
    wiener_filter prof noise = Py.Return wf
    /\ length wf = (length prof / 2 + 1)%nat
    /\ Forall (fun x => 0 <= x < 1) wf.
Proof.
  intros Hne Hnoise; unfold wiener_filter.
  rewrite rfft_returns by exact Hne; cbn [Py.bind].
  eexists; split; [reflexivity|split].
  - rewrite !length_map, length_seq; reflexivity.
  - assert (HN : 0 < INR (length prof)).
    { apply lt_0_INR; destruct prof; [contradiction Hne; reflexivity|].
      simpl; lia. }
    assert (Hn2 : 0 < noise ^ 2).
    { replace (noise ^ 2) with (Rsqr noise) by (unfold Rsqr; ring).
      apply Rsqr_pos_lt; exact Hnoise. }
    apply Forall_map, Forall_map, Forall_forall; intros z _.
    rewrite Re_mul_conj_self.
    assert (Hpw : 0 <= Cabs2 z / INR (length prof)).
    { apply Rmult_le_pos; [apply Cabs2_nonneg|].
      left; apply Rinv_0_lt_compat; exact HN. }
    set (pw := Cabs2 z / INR (length prof)) in *.
    split.
    + apply Rmult_le_pos; [exact Hpw|].
      left; apply Rinv_0_lt_compat; lra.
    + apply (Rmult_lt_reg_r (pw + noise ^ 2)); [lra|].
      unfold Rdiv; rewrite Rmult_assoc, Rinv_l by lra; lra.
Qed.

(** X22 on two samples. *)
Lemma wiener_filter_range_witness :
  exists wf,
    wiener_filter [1; 2] 3 = Py.Return wf
    /\ length wf = (length [1; 2] / 2 + 1)%nat
    /\ Forall (fun x => 0 <= x < 1) wf.
Proof.
  apply (wiener_filter_range [1; 2] 3); [discriminate | lra].
Defined.

(** [argmin_from], started after the entries [pre]. *)
Lemma argmin_from_spec (l pre : list R) (best : nat) (least : R) :
  (best < length pre)%nat ->
  nth best pre 0 = least ->
  (forall j, (j < length pre)%nat -> least <= nth j pre 0) ->
  (forall j, (j < best)%nat -> least < nth j pre 0) ->
  (argmin_from (length pre) best least l < length (pre ++ l))%nat
  /\ (forall j, (j < length (pre ++ l))%nat ->
        nth (argmin_from (length pre) best least l) (pre ++ l) 0
        <= nth j (pre ++ l) 0)
  /\ (forall j, (j < argmin_from (length pre) best least l)%nat ->
        nth (argmin_from (length pre) best least l) (pre ++ l) 0
        < nth j (pre ++ l) 0).
Proof.
  revert pre best least; induction l as [|x l IH];
    intros pre best least Hb Hnth Hle Hlt.
  - cbn [argmin_from]; rewrite app_nil_r, Hnth.
    split; [exact Hb | split; assumption].
  - cbn [argmin_from].
    assert (Hlen : length (pre ++ [x]) = S (length pre))
      by (rewrite length_app; simpl; lia).
    assert (Hx : nth (length pre) (pre ++ [x]) 0 = x)
      by (rewrite app_nth2, Nat.sub_diag by lia; reflexivity).
    replace (pre ++ x :: l) with ((pre ++ [x]) ++ l)
      by (rewrite <- app_assoc; reflexivity).
    rewrite <- Hlen.
    destruct (Rlt_dec x least) as [Hxl|Hxl].
    + apply IH.
      * rewrite Hlen; lia.
      * exact Hx.
      * intros j Hj; rewrite Hlen in Hj.
        destruct (Nat.eq_dec j (length pre)) as [->|Hne];
          [rewrite Hx; lra|].
        rewrite app_nth1 by lia.
        pose proof (Hle j ltac:(lia)); lra.
      * intros j Hj.
        rewrite app_nth1 by lia.
        pose proof (Hle j Hj); lra.
    + apply IH.
      * rewrite Hlen; lia.
      * rewrite app_nth1 by exact Hb; exact Hnth.
      * intros j Hj; rewrite Hlen in Hj.
        destruct (Nat.eq_dec j (length pre)) as [->|Hne];
          [rewrite Hx; lra|].
        rewrite app_nth1 by lia; apply Hle; lia.
      * intros j Hj.
        rewrite app_nth1 by lia; apply Hlt; exact Hj.
Qed.

(** [argmin] returns the first index of the least entry. *)
Lemma argmin_spec (l : list R) :
  l <> [] ->
  exists i,
    argmin l = Some i /\ (i < length l)%nat
    /\ (forall j, (j < length l)%nat -> nth i l 0 <= nth j l 0)
    /\ (forall j, (j < i)%nat -> nth i l 0 < nth j l 0).
Proof.
  destruct l as [|x l]; [intros H; contradiction H; reflexivity|intros _].
  eexists; split; [reflexivity|].
  apply (argmin_from_spec l [x] 0 x).
  - simpl; lia.
  - reflexivity.
  - intros j Hj; simpl in Hj.
    destruct j as [|j]; [simpl; lra | lia].
  - intros j Hj; lia.
Qed.

(** X23.  For a non-empty profile and a noise level that is not zero,
    [find_kc] returns an index [kc] among the harmonics of the Wiener
    filter whose brick wall is the closest to the filter: its squared
    distance is the least of all, and strictly less than that of every
    smaller index. *)
Theorem find_kc_least (prof : list R) (noise : R) :
  prof <> [] -> noise <> 0 ->
  exists wf kc,
    wiener_filter prof noise = Py.Return wf
    /\ find_kc prof noise = Py.Return kc
    /\ (kc < length wf)%nat
    /\ (forall j, (j < length wf)%nat ->
          nth kc (brickwall_distances wf) 0
          <= nth j (brickwall_distances wf) 0)
    /\ (forall j, (j < kc)%nat ->
          nth kc (brickwall_distances wf) 0
          < nth j (brickwall_distances wf) 0).
Proof.
  intros Hne Hnoise.
  unfold find_kc, wiener_filter.
  rewrite rfft_returns by exact Hne; cbn [Py.bind].
  match goal with
  | |- exists wf kc, Py.Return ?w = _ /\ _ => set (wf := w)
  end.
  assert (Hlen : length (brickwall_distances wf) = length wf)
    by (unfold brickwall_distances; rewrite length_map, length_seq;
        reflexivity).
  assert (Hwf : (0 < length wf)%nat)
    by (unfold wf; rewrite !length_map, length_seq; lia).
  destruct (argmin_spec (brickwall_distances wf)) as [kc [Hk [Hr [Hle Hlt]]]].
  { intros H0; rewrite H0 in Hlen; simpl in Hlen; lia. }
  exists wf, kc; rewrite Hk, <- Hlen.
  repeat split; assumption.
Qed.

(** X23 on two samples. *)
Lemma find_kc_least_witness :
  exists wf kc,
    wiener_filter [1; 2] 3 = Py.Return wf
    /\ find_kc [1; 2] 3 = Py.Return kc
    /\ (kc < length wf)%nat
    /\ (forall j, (j < length wf)%nat ->
          nth kc (brickwall_distances wf) 0
          <= nth j (brickwall_distances wf) 0)
    /\ (forall j, (j < kc)%nat ->
          nth kc (brickwall_distances wf) 0
          < nth j (brickwall_distances wf) 0).
Proof.
  apply (find_kc_least [1; 2] 3); [discriminate | lra].
Defined.

(** ** [get_TOAs]: what is recorded *)

Section DriverRecords.
Import Py PPToas.

Variable fit_portrait_full :
  list (list R) -> list (list R) -> list R -> R -> list R -> list R ->
  list (option R) -> list R -> list Z -> option (list bound) -> bool ->
  string -> results.
Variable fit_phase_shift : list R -> list R -> R -> nat -> phase_shift.

Lemma fit_subints_length (o : options) (a : archive)
    (ss : list subint) (b b' : option (list bound)) (acc l : list TOA) :
  fit_subints fit_portrait_full fit_phase_shift o a b ss acc
  = Return (l, b') ->
  length l = (length acc + length ss)%nat.
Proof.
  revert b acc; induction ss as [|s ss IH]; intros b acc H.
  - cbn in H; injection H as <- _; simpl; lia.
  - cbn [fit_subints] in H.
    destruct (fit_subint fit_portrait_full fit_phase_shift o a b s)
      as [[t b1]|e]; [|discriminate H].
    cbn [bind fst snd] in H.
    rewrite (IH _ _ H), length_app; simpl; lia.
Qed.

Lemma get_TOAs_loop_length (o : options) (datafiles : list load_result)
    (b : option (list bound)) (acc l : list TOA) :
  get_TOAs_loop fit_portrait_full fit_phase_shift o datafiles b acc
  = Return l ->
  length l
  = (length acc
     + list_sum (map (fun f => match f with
                               | RuntimeError => 0%nat
                               | Loaded a => length (ok_subints a)
                               end) datafiles))%nat.
Proof.
  revert b acc; induction datafiles as [|f rest IH]; intros b acc H.
  - cbn in H; injection H as <-; simpl; lia.
  - cbn [get_TOAs_loop] in H; cbn [map]; unfold list_sum; cbn [fold_right];
      fold (list_sum
              (map (fun f => match f with
                             | RuntimeError => 0%nat
                             | Loaded a => length (ok_subints a)
                             end) rest)).
    destruct f as [|a]; [rewrite (IH _ _ H); lia|].
    destruct (ok_subints a) as [|s ss] eqn:Hs;
      [rewrite (IH _ _ H); simpl; lia|].
    destruct (if negb (fit_DM o)
              then setitem b 1
                     (Some match DM0 o with
                           | Some v => v
                           | None => DM_stored a
                           end,
                      Some match DM0 o with
                           | Some v => v
                           | None => DM_stored a
                           end)
              else Return b) as [b1|e]; [|discriminate H].
    cbn [bind] in H.
    destruct (fit_subints fit_portrait_full fit_phase_shift o a b1
                (s :: ss) acc) as [[l1 b2]|e] eqn:Hfit; [|discriminate H].
    cbn [bind fst snd] in H.
    rewrite (IH _ _ H), (fit_subints_length _ _ _ _ _ _ _ Hfit); lia.
Qed.


(** X25.  Archives that fail to load, and archives without a good
    subintegration, are passed over: dropping them from the list of data
    files changes nothing of what [get_TOAs] returns or raises. *)
Theorem get_TOAs_skips_unusable (o : options)
    (datafiles : list load_result) :
  get_TOAs fit_portrait_full fit_phase_shift o
    (filter (fun f => match f with
                      | RuntimeError => false
                      | Loaded a => match ok_subints a with
                                    | [] => false
                                    | _ :: _ => true
                                    end
                      end) datafiles)
  = get_TOAs fit_portrait_full fit_phase_shift o datafiles.
Proof.
  unfold get_TOAs.
  generalize (bounds o) as b, (@nil TOA) as acc.
  induction datafiles as [|f rest IH]; intros b acc; [reflexivity|].
  cbn [filter].
  destruct f as [|a]; [cbn [get_TOAs_loop]; apply IH|].
  destruct (ok_subints a) as [|s ss] eqn:Hs.
  - cbn [get_TOAs_loop]; rewrite Hs; apply IH.
  - cbn [get_TOAs_loop]; rewrite Hs.
    destruct (if negb (fit_DM o) then _ else _) as [b1|e]; [|reflexivity].
    cbn [bind].
    destruct (fit_subints _ _ _ _ _ _ _) as [[l1 b2]|e]; [|reflexivity].
    cbn [bind fst snd]; apply IH.
Qed.

Lemma fit_subint_returns (o : options) (a : archive)
    (b : option (list bound)) (s : subint) :
  bary_DM o = false ->
  portx s <> [] -> modelx s <> [] -> errs s <> [] -> freqsx s <> [] ->
  exists t b',
    fit_subint fit_portrait_full fit_phase_shift o a b s = Return (t, b')
    /\ toa_MJD t
       = epoch s + (phi (toa_results t) * P s + backend_delay a)
                   / (3600 * 24)
    /\ toa_error t = phi_err (toa_results t) * P s * 1000000.
Proof.
  intros Hb Hp Hm He Hf.
  unfold fit_subint; cbv zeta; rewrite Hb.
  destruct (Nat.leb (nchan_min (get_setup o)) (length (freqsx s))).
  - cbn [bind]; eexists; eexists; split; [reflexivity|].
    split; reflexivity.
  - destruct (portx s) as [|p0 ps]; [contradiction Hp; reflexivity|].
    destruct (modelx s) as [|m0 ms]; [contradiction Hm; reflexivity|].
    destruct (errs s) as [|e0 es]; [contradiction He; reflexivity|].
    destruct (freqsx s) as [|f0 fs]; [contradiction Hf; reflexivity|].
    cbn [bind]; eexists; eexists; split; [reflexivity|].
    split; reflexivity.
Qed.

Lemma fit_subints_returns (o : options) (a : archive) (ss : list subint)
    (b : option (list bound)) (acc : list TOA) :
  bary_DM o = false ->
  Forall (fun s => portx s <> [] /\ modelx s <> [] /\ errs s <> []
                   /\ freqsx s <> []) ss ->
  exists l b',
    fit_subints fit_portrait_full fit_phase_shift o a b ss acc
    = Return (l, b').
Proof.
  intros Hb Hss; revert b acc.
  induction Hss as [|s ss [Hp [Hm [He Hf]]] _ IH]; intros b acc.
  - eexists; eexists; reflexivity.
  - cbn [fit_subints].
    destruct (fit_subint_returns o a b s Hb Hp Hm He Hf)
      as [t [b1 [Ht _]]].
    rewrite Ht; cbn [bind fst snd]; apply IH.
Qed.


End DriverRecords.


(** ** [get_scales]: the amplitudes of a scaled model *)

Lemma zeros_map_seq (n : nat) : zeros n = map (fun _ => 0) (seq 0 n).
Proof.
  unfold zeros.
  rewrite <- (length_seq n 0) at 1.
  induction (seq 0 n) as [|k l IH]; simpl; [reflexivity|].
  rewrite IH; reflexivity.
Qed.

(** The loop over the harmonics adds up one sum per channel. *)
Lemma fold_left_columns (n K : nat) (t : nat -> nat -> R) :
  fold_left (fun scales kk =>
               map (fun c => nth c scales 0 + t c kk) (seq 0 n))
    (seq 0 K) (zeros n)
  = map (fun c => Spec.Rsum K (t c)) (seq 0 n).
Proof.
  induction K as [|K IH].
  - cbn [seq fold_left]; rewrite zeros_map_seq.
    apply map_ext; intros c; reflexivity.
  - rewrite seq_S, fold_left_app, IH; cbn [fold_left Nat.add].
    apply map_ext_in; intros c Hc; apply in_seq in Hc.
    rewrite nth_map_seq, Rsum_S by lia; reflexivity.
Qed.

(** The transform is linear: scaling the samples scales the
    coefficients. *)
Lemma rfft_coef_scaled (a : R) (x : list R) (k : nat) :
  FFT.rfft_coef (map (Rmult a) x) k = Cmul (RtoC a) (FFT.rfft_coef x k).
Proof.
  assert (Hn : forall n, nth n (map (Rmult a) x) 0 = a * nth n x 0).
  { intros n; rewrite <- (Rmult_0_r a) at 1; apply map_nth. }
  apply C_eq.
  - cbn [Re Im Cmul RtoC].
    rewrite !rfft_coef_Re, rfft_coef_Im, length_map.
    rewrite (Rsum_ext (length x) _
               (fun n => a * (nth n x 0 * cos (FFT.angle k n (length x)))))
      by (intros n _; rewrite Hn; ring).
    rewrite Rsum_scal; ring.
  - cbn [Re Im Cmul RtoC].
    rewrite !rfft_coef_Im, rfft_coef_Re, length_map.
    rewrite (Rsum_ext (length x) _
               (fun n => a * (nth n x 0 * sin (FFT.angle k n (length x)))))
      by (intros n _; rewrite Hn; ring).
    rewrite Rsum_scal; ring.
Qed.

Lemma Cexp_zero (z : C) : Re z = 0 -> Im z = 0 -> Cexp z = mkC 1 0.
Proof.
  destruct z as [zr zi]; cbn [Re Im]; intros -> ->.
  unfold Cexp; cbn [Re Im]; rewrite exp_0, cos_0, sin_0.
  apply C_eq; simpl; ring.
Qed.

(** X27.  When every row of the data is a multiple [a_c] of the same row
    of the model, [get_scales] at zero phase and zero DM returns the
    multiples [a_c], for model rows of one length that are not zero, one
    frequency per row, and a period and frequencies that are not zero. *)
Theorem get_scales_recovers_amplitudes (model : list (list R))
    (amps : list R) (P : R) (freqs : list freq) (nu0 : freq) (nbin : nat) :
  (0 < nbin)%nat -> model <> [] ->
  Forall (fun row => length row = nbin) model ->
  length amps = length model ->
  P <> 0 ->
  length freqs = length model ->
  Forall (fun f => f <> MHz 0) freqs -> nu0 <> MHz 0 ->
  Forall (fun pc => pc <> 0) (portrait_p (FFT.rfft_rows model)) ->
  get_scales
    (map (fun ar => map (Rmult (fst ar)) (snd ar)) (combine amps model))
    model 0 0 P freqs nu0
  = Py.Return amps.
Proof.
  intros Hnbin Hne Hrows Hlen HP Hlf Hfreqs Hnu0 Hp.
  set (data := map (fun ar => map (Rmult (fst ar)) (snd ar))
                 (combine amps model)).
  assert (Hm : Forall (fun row : list R => row <> []) model).
  { eapply Forall_impl; [|exact Hrows].
    intros row Hr Heq; subst row; simpl in Hr; lia. }
  assert (Hd : Forall (fun row : list R => row <> []) data).
  { unfold data; apply Forall_map, Forall_forall; intros [a row] Hin.
    apply in_combine_r in Hin.
    rewrite Forall_forall in Hm; specialize (Hm row Hin).
    cbn [fst snd]; destruct row; [contradiction Hm; reflexivity|].
    discriminate. }
  unfold get_scales.
  rewrite (mapM_rfft_rows data Hd), (mapM_rfft_rows model Hm).
  cbn [Py.bind].
  destruct (FFT.rfft_rows model) as [|mrow0 mrest] eqn:HmF.
  { destruct model; [contradiction Hne; reflexivity | discriminate HmF]. }
  rewrite <- HmF in *; f_equal.
  assert (HlenF : length (FFT.rfft_rows model) = length model)
    by apply rfft_rows_length.
  assert (Hrow0 : length mrow0 = (nbin / 2 + 1)%nat).
  { destruct model as [|r0 rs]; [contradiction Hne; reflexivity|].
    unfold FFT.rfft_rows in HmF; cbn [map] in HmF.
    injection HmF as <- _.
    rewrite length_map, length_seq.
    inversion Hrows as [|? ? Hr0 _]; rewrite Hr0; reflexivity. }
  rewrite (fold_left_columns (length (FFT.rfft_rows model)) (length mrow0)
             (fun c kk =>
                Re (Cmul (Cmul (nth kk (nth c (FFT.rfft_rows data) [])
                                  Spec.czero)
                            (Cconj (nth kk (nth c (FFT.rfft_rows model) [])
                                      Spec.czero)))
                      (Cexp (Cmul (Cmul (Cmul (Cj 2) (RtoC PI))
                                     (RtoC (INR kk)))
                               (RtoC (chan_delay 0 (0 * Dconst / P)
                                        (nth c freqs inf_freq) nu0)))))
                / nth c (portrait_p (FFT.rfft_rows model)) 0)).
  rewrite HlenF, <- Hlen.
  rewrite (map_seq_nth amps 0) at 2.
  apply map_ext_in; intros c Hc; apply in_seq in Hc.
  assert (Hcm : (c < length model)%nat) by lia.
  assert (Hrc : length (nth c model []) = nbin).
  { rewrite Forall_forall in Hrows; apply Hrows, nth_In; exact Hcm. }
  assert (HmFc : nth c (FFT.rfft_rows model) []
                 = map (FFT.rfft_coef (nth c model []))
                     (seq 0 (nbin / 2 + 1))).
  { unfold FFT.rfft_rows.
    rewrite (nth_map_in_range _ model c [] []) by exact Hcm.
    rewrite Hrc; reflexivity. }
  assert (HdFc : nth c (FFT.rfft_rows data) []
                 = map (FFT.rfft_coef (map (Rmult (nth c amps 0))
                                         (nth c model [])))
                     (seq 0 (nbin / 2 + 1))).
  { unfold FFT.rfft_rows, data.
    rewrite map_map.
    rewrite (nth_map_in_range _ (combine amps model) c (0, []) [])
      by (rewrite length_combine; lia).
    rewrite combine_nth by exact Hlen.
    cbn [fst snd]; rewrite length_map, Hrc; reflexivity. }
  assert (Hpc : nth c (portrait_p (FFT.rfft_rows model)) 0 <> 0).
  { rewrite Forall_forall in Hp; apply Hp, nth_In.
    unfold portrait_p; rewrite length_map, HlenF; exact Hcm. }
  rewrite portrait_p_nth in Hpc |- *.
  rewrite HmFc in Hpc.
  rewrite HdFc, HmFc, Hrow0.
  unfold Spec.power in Hpc |- *.
  rewrite length_map, length_seq in Hpc |- *.
  rewrite (Rsum_ext (nbin / 2 + 1) _
             (fun kk =>
                nth c amps 0
                * / Spec.Rsum (nbin / 2 + 1)
                      (fun k => Cabs2
                                  (nth k
                                     (map (FFT.rfft_coef (nth c model []))
                                        (seq 0 (nbin / 2 + 1)))
                                     Spec.czero))
                * Cabs2 (nth kk
                           (map (FFT.rfft_coef (nth c model []))
                              (seq 0 (nbin / 2 + 1))) Spec.czero))).
  - rewrite Rsum_scal; field; exact Hpc.
  - intros kk Hkk.
    rewrite !nth_map_seq by exact Hkk.
    rewrite rfft_coef_scaled.
    replace (chan_delay 0 (0 * Dconst / P) (nth c freqs inf_freq) nu0)
      with 0 by (unfold chan_delay; field; exact HP).
    rewrite Cexp_zero by (cbn; ring).
    unfold Cabs2; cbn [Re Im Cmul Cconj RtoC].
    unfold Rdiv; ring.
Qed.

(** X27 on one channel of two bins, three times the model. *)
Lemma get_scales_recovers_amplitudes_witness :
  get_scales
    (map (fun ar => map (Rmult (fst ar)) (snd ar)) (combine [3] [[1; 2]]))
    [[1; 2]] 0 0 1 [MHz 1400] inf_freq
  = Py.Return [3].
Proof.
  apply (get_scales_recovers_amplitudes [[1; 2]] [3] 1 [MHz 1400] inf_freq 2).
  - lia.
  - discriminate.
  - repeat constructor.
  - reflexivity.
  - lra.
  - reflexivity.
  - constructor; [|constructor].
    intros H; injection H as H; lra.
  - discriminate.
  - unfold portrait_p, FFT.rfft_rows.
    cbn [map].
    change (length [1%R; 2%R] / 2 + 1)%nat with 2%nat.
    cbn [map seq].
    rewrite rfft_coef_two_0, rfft_coef_two_1.
    constructor; [|constructor].
    unfold np_csum; cbn; lra.
Defined.

(** ** [first_guess]: the best phase of the grid *)

(** [argmax_from], started after the entries [pre]. *)
Lemma argmax_from_spec (l pre : list R) (best : nat) (most : R) :
  (best < length pre)%nat ->
  nth best pre 0 = most ->
  (forall j, (j < length pre)%nat -> nth j pre 0 <= most) ->
  (forall j, (j < best)%nat -> nth j pre 0 < most) ->
  (argmax_from (length pre) best most l < length (pre ++ l))%nat
  /\ (forall j, (j < length (pre ++ l))%nat ->
        nth j (pre ++ l) 0
        <= nth (argmax_from (length pre) best most l) (pre ++ l) 0)
  /\ (forall j, (j < argmax_from (length pre) best most l)%nat ->
        nth j (pre ++ l) 0
        < nth (argmax_from (length pre) best most l) (pre ++ l) 0).
Proof.
  revert pre best most; induction l as [|x l IH];
    intros pre best most Hb Hnth Hle Hlt.
  - cbn [argmax_from]; rewrite app_nil_r, Hnth.
    split; [exact Hb | split; assumption].
  - cbn [argmax_from].
    assert (Hlen : length (pre ++ [x]) = S (length pre))
      by (rewrite length_app; simpl; lia).
    assert (Hx : nth (length pre) (pre ++ [x]) 0 = x)
      by (rewrite app_nth2, Nat.sub_diag by lia; reflexivity).
    replace (pre ++ x :: l) with ((pre ++ [x]) ++ l)
      by (rewrite <- app_assoc; reflexivity).
    rewrite <- Hlen.
    destruct (Rgt_dec x most) as [Hxm|Hxm].
    + apply IH.
      * rewrite Hlen; lia.
      * exact Hx.
      * intros j Hj; rewrite Hlen in Hj.
        destruct (Nat.eq_dec j (length pre)) as [->|Hne];
          [rewrite Hx; lra|].
        rewrite app_nth1 by lia.
        pose proof (Hle j ltac:(lia)); lra.
      * intros j Hj.
        rewrite app_nth1 by lia.
        pose proof (Hle j Hj); lra.
    + apply IH.
      * rewrite Hlen; lia.
      * rewrite app_nth1 by exact Hb; exact Hnth.
      * intros j Hj; rewrite Hlen in Hj.
        destruct (Nat.eq_dec j (length pre)) as [->|Hne];
          [rewrite Hx; lra|].
        rewrite app_nth1 by lia; apply Hle; lia.
      * intros j Hj.
        rewrite app_nth1 by lia; apply Hlt; exact Hj.
Qed.

(** [argmax] returns the first index of the greatest entry. *)
Lemma argmax_spec (l : list R) :
  l <> [] ->
  exists i,
    argmax l = Some i /\ (i < length l)%nat
    /\ (forall j, (j < length l)%nat -> nth j l 0 <= nth i l 0)
    /\ (forall j, (j < i)%nat -> nth j l 0 < nth i l 0).
Proof.
  destruct l as [|x l]; [intros H; contradiction H; reflexivity|intros _].
  eexists; split; [reflexivity|].
  apply (argmax_from_spec l [x] 0 x).
  - simpl; lia.
  - reflexivity.
  - intros j Hj; simpl in Hj.
    destruct j as [|j]; [simpl; lra | lia].
  - intros j Hj; lia.
Qed.

Lemma linspace_half_turn (nguess i : nat) :
  (i < nguess)%nat ->
  - (1/2) <= nth i (linspace (- (1/2)) (1/2) nguess) 0 <= 1/2.
Proof.
  intros Hi.
  destruct nguess as [|[|n]]; [lia | |].
  - destruct i as [|i]; [simpl; lra | lia].
  - unfold linspace.
    rewrite nth_map_seq by exact Hi.
    replace (S (S n) - 1)%nat with (S n) by lia.
    pose proof (step_fraction (S n) i ltac:(lia) ltac:(lia)) as [H0 H1].
    assert (HNR : 0 < INR (S n)) by (apply lt_0_INR; lia).
    replace (- (1 / 2) + INR i * ((1 / 2 - - (1 / 2)) / INR (S n)))
      with (- (1/2) + INR i / INR (S n)) by (field; lra).
    lra.
Qed.

(** The correlation at a trial phase, when the two profiles have one
    length. *)
Lemma phase_correlation_returns (data model : list (list R)) (phase : R) :
  col_sums data <> [] ->
  length (col_sums model) = length (col_sums data) ->
  exists c, phase_correlation data model phase = Py.Return c.
Proof.
  intros Hne Hlen; unfold phase_correlation; cbv zeta.
  rewrite fft_rotate_closed by exact Hne; cbn [Py.bind].
  unfold correlate_scalar.
  rewrite length_map, length_seq, Hlen, Nat.eqb_refl.
  destruct (col_sums data) as [|x xs] eqn:Hc;
    [contradiction Hne; reflexivity|].
  cbn [length seq map]; eexists; reflexivity.
Qed.

(** X28.  For a data portrait and a model portrait with rows of one
    positive length and at least one trial phase, [first_guess] returns a
    phase of the grid between [-1/2] and [1/2], and the correlation at
    that phase is the greatest of the correlations at the trial phases;
    with no trial phase it raises [ValueError]. *)
Theorem first_guess_best_of_grid (d0 m0 : list R)
    (drest mrest : list (list R)) (nguess : nat) :
  d0 <> [] -> length m0 = length d0 -> (0 < nguess)%nat ->
  first_guess (d0 :: drest) (m0 :: mrest) 0 = Py.Raise Py.ValueError
  /\ exists i best,
       (i < nguess)%nat
       /\ first_guess (d0 :: drest) (m0 :: mrest) nguess
          = Py.Return (nth i (linspace (- (1/2)) (1/2) nguess) 0)
       /\ - (1/2) <= nth i (linspace (- (1/2)) (1/2) nguess) 0 <= 1/2
       /\ phase_correlation (d0 :: drest) (m0 :: mrest)
            (nth i (linspace (- (1/2)) (1/2) nguess) 0)
          = Py.Return best
       /\ forall j, (j < nguess)%nat ->
            exists c,
              phase_correlation (d0 :: drest) (m0 :: mrest)
                (nth j (linspace (- (1/2)) (1/2) nguess) 0)
              = Py.Return c
              /\ c <= best.
Proof.
  intros Hd Hm Hn; split; [reflexivity|].
  set (data := d0 :: drest); set (model := m0 :: mrest).
  set (grid := linspace (- (1/2)) (1/2) nguess).
  assert (Hne : col_sums data <> []).
  { unfold data, col_sums.
    destruct d0; [contradiction Hd; reflexivity | discriminate]. }
  assert (Hlen : length (col_sums model) = length (col_sums data)).
  { unfold data, model, col_sums.
    rewrite !length_map, !length_seq; exact Hm. }
  assert (Hcorr : forall phase, exists c,
             phase_correlation data model phase = Py.Return c)
    by (intros phase; apply phase_correlation_returns; assumption).
  set (corr := fun phase =>
                 match phase_correlation data model phase with
                 | Py.Return c => c
                 | Py.Raise _ => 0
                 end).
  assert (Hret : forall phase,
             phase_correlation data model phase = Py.Return (corr phase)).
  { intros phase; unfold corr.
    destruct (Hcorr phase) as [c Hc]; rewrite Hc; reflexivity. }
  assert (Hgrid : length grid = nguess) by apply linspace_length.
  assert (HmapM : Py.mapM (phase_correlation data model) grid
                  = Py.Return (map corr grid))
    by (apply mapM_returns; intros phase _; apply Hret).
  destruct (argmax_spec (map corr grid)) as [i [Hi [Hr [Hle _]]]].
  { intros H0; apply (f_equal (@length R)) in H0.
    rewrite length_map, Hgrid in H0; simpl in H0; lia. }
  rewrite length_map, Hgrid in Hr, Hle.
  exists i, (corr (nth i grid 0)); split; [exact Hr|].
  split; [|split; [|split]].
  - unfold first_guess; cbv zeta; fold grid.
    rewrite HmapM; cbn [Py.bind]; rewrite Hi; reflexivity.
  - apply linspace_half_turn; exact Hr.
  - apply Hret.
  - intros j Hj; exists (corr (nth j grid 0)); split; [apply Hret|].
    specialize (Hle j Hj).
    rewrite !(nth_map_in_range corr grid _ 0 0) in Hle
      by (rewrite Hgrid; assumption).
    exact Hle.
Qed.

(** X28 on one channel of two bins and three trial phases. *)
Lemma first_guess_best_of_grid_witness :
  first_guess [[1; 2]] [[2; 1]] 0 = Py.Raise Py.ValueError
  /\ exists i best,
       (i < 3)%nat
       /\ first_guess [[1; 2]] [[2; 1]] 3
          = Py.Return (nth i (linspace (- (1/2)) (1/2) 3) 0)
       /\ - (1/2) <= nth i (linspace (- (1/2)) (1/2) 3) 0 <= 1/2
       /\ phase_correlation [[1; 2]] [[2; 1]]
            (nth i (linspace (- (1/2)) (1/2) 3) 0)
          = Py.Return best
       /\ forall j, (j < 3)%nat ->
            exists c,
              phase_correlation [[1; 2]] [[2; 1]]
                (nth j (linspace (- (1/2)) (1/2) 3) 0)
              = Py.Return c
              /\ c <= best.
Proof.
  apply (first_guess_best_of_grid [1; 2] [2; 1] [] [] 3);
    [discriminate | reflexivity | lia].
Defined.

(** ** [get_noise]: precisions and levels *)

Lemma np_mean_nonneg (l : list R) :
  Forall (fun x => 0 <= x) l -> 0 <= np_mean l.
Proof.
  intros H; unfold np_mean; rewrite np_sum_fold_right.
  apply Rmult_le_pos; [apply fold_right_Rplus_nonneg; exact H|].
  apply Rinv_nonneg, pos_INR.
Qed.

Lemma slice_from_Forall {A : Type} (Q : A -> Prop) (s : Z) (l : list A) :
  Forall Q l -> Forall Q (slice_from s l).
Proof.
  intros H; unfold slice_from; cbv zeta.
  rewrite <- (firstn_skipn (Z.to_nat (if (s <? 0)%Z
                                      then Z.max (Z.of_nat (length l) + s) 0
                                      else Z.min s (Z.of_nat (length l))))
                l) in H.
  apply Forall_app in H; destruct H as [_ H]; exact H.
Qed.

Lemma power_spectrum_nonneg (prof : list R) (X : list C) :
  Forall (fun x => 0 <= x) (power_spectrum prof X).
Proof.
  unfold power_spectrum; apply Forall_map, Forall_forall; intros z _.
  rewrite Re_mul_conj_self.
  apply Rmult_le_pos; [apply Cabs2_nonneg | apply Rinv_nonneg, pos_INR].
Qed.

(** The inverse of a mean power is the inverse square of its root. *)
Lemma pow_m2_sqrt (m : R) : 0 <= m -> pow_m2 (sqrt m) = / m.
Proof. intros Hm; unfold pow_m2; rewrite sqrt_sqrt by exact Hm; reflexivity. Qed.

Lemma mean_power_nonneg (frac : positive) (prof : list R) (X : list C) :
  0 <= np_mean (last_part frac (power_spectrum prof X)).
Proof.
  apply np_mean_nonneg; unfold last_part.
  apply slice_from_Forall, power_spectrum_nonneg.
Qed.

Lemma profile_noise_tau (prof : list R) (frac : positive) (fd : bool) :
  profile_noise prof frac true fd
  = Py.bind (profile_noise prof frac false fd)
      (fun r => Py.Return match r with
                          | Level x => Level (pow_m2 x)
                          | Levels l => Levels (map pow_m2 l)
                          end).
Proof.
  unfold profile_noise.
  destruct (FFT.rfft prof) as [X|e]; [|reflexivity].
  cbn [Py.bind]; destruct fd; cbn [Py.bind]; [reflexivity|].
  rewrite pow_m2_sqrt by apply mean_power_nonneg; reflexivity.
Qed.

(** X29.  With [tau=True], [get_noise] returns the inverse square of what
    it returns with [tau=False], level by level, on every array and for
    every [frac], [chans] and [fd]; and it raises what that call raises. *)
Theorem get_noise_tau (data : ndarray) (frac : positive)
    (chans fd : bool) :
  get_noise data frac true chans fd
  = Py.bind (get_noise data frac false chans fd)
      (fun r => Py.Return match r with
                          | Level x => Level (pow_m2 x)
                          | Levels l => Levels (map pow_m2 l)
                          end).
Proof.
  destruct data as [a|ncol rows]; cbn [get_noise].
  - apply profile_noise_tau.
  - destruct (Nat.eqb (length rows) 1); [apply profile_noise_tau|].
    destruct (Nat.eqb ncol 1); [apply profile_noise_tau|].
    destruct (Py.mapM (row_noise frac fd) rows) as [noise|e];
      [|reflexivity].
    cbn [Py.bind]; destruct chans; reflexivity.
Qed.

Lemma row_noise_returns (frac : positive) (fd : bool) (row : list R) :
  row <> [] ->
  row_noise frac fd row
  = Py.Return
      (if fd
       then np_std (last_part frac
                      (map Re (map (FFT.rfft_coef row)
                                 (seq 0 (length row / 2 + 1)))))
       else sqrt (np_mean
                    (last_part frac
                       (power_spectrum row
                          (map (FFT.rfft_coef row)
                             (seq 0 (length row / 2 + 1))))))).
Proof.
  intros Hne; unfold row_noise.
  rewrite rfft_returns by exact Hne; cbn [Py.bind].
  destruct fd; reflexivity.
Qed.

Lemma slice_from_map {A B : Type} (f : A -> B) (s : Z) (l : list A) :
  slice_from s (map f l) = map f (slice_from s l).
Proof.
  unfold slice_from; cbv zeta; rewrite length_map; apply skipn_map.
Qed.

(** X30.  On a portrait of at least two channels and at least two bins,
    [get_noise] with [chans=True] returns one level per channel, and the
    level of channel [c] is what [get_noise] returns on the profile of
    that channel alone, with the same [frac], [tau] and [fd]; with
    [frac=4], [tau=True] and [fd=True] these levels are the precisions
    that [fit_portrait] computes for its channels. *)
Theorem get_noise_per_channel (data : list (list R)) (nbin : nat)
    (frac : positive) (tau fd : bool) :
  (2 <= length data)%nat -> (2 <= nbin)%nat ->
  Forall (fun row => length row = nbin) data ->
  (exists levels,
     get_noise (Array2 nbin data) frac tau true fd
     = Py.Return (Levels levels)
     /\ length levels = length data
     /\ forall c chans, (c < length data)%nat ->
          get_noise (Array1 (nth c data [])) frac tau chans fd
          = Py.Return (Level (nth c levels 0)))
  /\ get_noise (Array2 nbin data) 4 true true true
     = Py.Return
         (Levels (unnorm_errs (FFT.rfft_rows data)
                    (nth 0 (FFT.rfft_rows data) []))).
Proof.
  intros Hrows Hnbin Hlen.
  assert (Hne : forall row, In row data -> row <> []).
  { intros row Hin Heq; rewrite Forall_forall in Hlen.
    specialize (Hlen row Hin); subst row; simpl in Hlen; lia. }
  assert (E1 : Nat.eqb (length data) 1 = false)
    by (apply Nat.eqb_neq; lia).
  assert (E2 : Nat.eqb nbin 1 = false) by (apply Nat.eqb_neq; lia).
  assert (HmapM : forall fr fd',
            Py.mapM (row_noise fr fd') data
            = Py.Return
                (map (fun row =>
                        if fd'
                        then np_std
                               (last_part fr
                                  (map Re (map (FFT.rfft_coef row)
                                             (seq 0 (length row / 2 + 1)))))
                        else sqrt
                               (np_mean
                                  (last_part fr
                                     (power_spectrum row
                                        (map (FFT.rfft_coef row)
                                           (seq 0 (length row / 2 + 1)))))))
                   data)).
  { intros fr fd'; apply mapM_returns; intros row Hin.
    apply row_noise_returns, Hne, Hin. }
  split.
  - cbn [get_noise]; rewrite E1, E2, HmapM; cbn [Py.bind].
    eexists; split; [reflexivity|].
    split; [destruct tau; rewrite ?length_map; reflexivity|].
    intros c chans Hc.
    cbn [get_noise]; unfold profile_noise.
    rewrite rfft_returns by (apply Hne, nth_In; exact Hc).
    cbn [Py.bind]; do 2 f_equal.
    destruct tau.
    + rewrite (nth_map_in_range pow_m2 _ c 0 0)
        by (rewrite length_map; exact Hc).
      rewrite (nth_map_in_range _ data c [] 0) by exact Hc.
      destruct fd; [reflexivity|].
      rewrite pow_m2_sqrt by apply mean_power_nonneg; reflexivity.
    + rewrite (nth_map_in_range _ data c [] 0) by exact Hc.
      destruct fd; reflexivity.
  - cbn [get_noise]; rewrite E1, E2, HmapM; cbn [Py.bind].
    do 2 f_equal.
    unfold unnorm_errs, FFT.rfft_rows; rewrite !map_map.
    apply map_ext_in; intros row Hin.
    unfold last_part; rewrite slice_from_map, !length_map, !length_seq.
    rewrite (nth_map_in_range _ data 0 [] []) by lia.
    rewrite length_map, length_seq.
    rewrite Forall_forall in Hlen.
    rewrite (Hlen row Hin), (Hlen (nth 0 data [])) by (apply nth_In; lia).
    reflexivity.
Qed.

(** X30 on two channels of two bins. *)
Lemma get_noise_per_channel_witness :
  (exists levels,
     get_noise (Array2 2 [[1; 2]; [3; 5]]) 4 false true false
     = Py.Return (Levels levels)
     /\ length levels = length [[1; 2]; [3; 5]]
     /\ forall c chans, (c < length [[1; 2]; [3; 5]])%nat ->
          get_noise (Array1 (nth c [[1; 2]; [3; 5]] [])) 4 false chans false
          = Py.Return (Level (nth c levels 0)))
  /\ get_noise (Array2 2 [[1; 2]; [3; 5]]) 4 true true true
     = Py.Return
         (Levels (unnorm_errs (FFT.rfft_rows [[1; 2]; [3; 5]])
                    (nth 0 (FFT.rfft_rows [[1; 2]; [3; 5]]) []))).
Proof.
  apply (get_noise_per_channel [[1; 2]; [3; 5]] 2 4 false false).
  - simpl; lia.
  - lia.
  - repeat constructor.
Defined.
